(** * Zarchiver: a shallow embedding of [zarchiver.py]

    The program is glue code over the Python standard library: it checks
    two paths, reads a file or walks a directory, and hands the bytes to a
    codec (gzip, lzma, bz2) or an archiver (zipfile, tarfile).  The
    development has four layers:

    - strings and POSIX path arithmetic ([Str.endswith], [Str.segments],
      [OsPath.join], [OsPath.basename], [OsPath.relpath]);
    - a file system: a tree of directories and regular files, addressed by
      path strings that are resolved component by component;
    - the library interface: codecs and archive formats as a record of
      functions ([Codecs]) with their round-trip laws ([CodecLaws]), and
      hash constructors ([HashAlgo]);
    - the program itself, function by function, in a state-and-exception
      monad over the world (disk and console). *)

From Stdlib Require Import String Ascii List ZArith Lia Bool Arith.
From Stdlib Require Import Init.Byte.
Import ListNotations.

Local Open Scope string_scope.
Local Open Scope list_scope.

(** [bytes] is Python's [bytes]. *)
Definition bytes := list byte.

Infix "+++" := String.append (at level 60, right associativity).

(* ================================================================== *)
(** ** Strings *)

Module Str.

Fixpoint prefixb (p l : list ascii) : bool :=
  match p, l with
  | [], _ => true
  | _ :: _, [] => false
  | a :: p', b :: l' => Ascii.eqb a b && prefixb p' l'
  end.

(** [str.endswith]: [suffix] is a suffix of [s], compared character by
    character (hence case-sensitively). *)
Definition endswith (s suffix : string) : bool :=
  prefixb (rev (list_ascii_of_string suffix)) (rev (list_ascii_of_string s)).

(** [str.startswith]. *)
Definition startswith (s p : string) : bool :=
  prefixb (list_ascii_of_string p) (list_ascii_of_string s).

(** [s.split("/")]: the segments between slashes, empty ones included;
    never the empty list. *)
Fixpoint segments (s : string) : list string :=
  match s with
  | EmptyString => [""]
  | String c r =>
      if Ascii.eqb c "/" then "" :: segments r
      else match segments r with
           | x :: xs => String c x :: xs
           | [] => [String c ""]
           end
  end.

(** ["/".join(parts)]. *)
Fixpoint join_slash (parts : list string) : string :=
  match parts with
  | [] => ""
  | [x] => x
  | x :: rest => x +++ "/" +++ join_slash rest
  end.

Fixpoint has_slash (s : string) : bool :=
  match s with
  | EmptyString => false
  | String c r => Ascii.eqb c "/" || has_slash r
  end.

(** A name a directory entry can carry: not empty, not [.] or [..], and
    free of slashes. *)
Definition proper_name (s : string) : bool :=
  negb (s =? "") && negb (s =? ".") && negb (s =? "..") && negb (has_slash s).

End Str.

(* ================================================================== *)
(** ** [os.path] (posixpath) *)

Module OsPath.
Import Str.

(** [os.path.basename(p)]: what follows the last slash. *)
Definition basename (p : string) : string := last (segments p) "".

(** [os.path.join(a, b)]. *)
Definition join (a b : string) : string :=
  if startswith b "/" then b
  else if (a =? "") || endswith a "/" then a +++ b
  else a +++ "/" +++ b.

(** The component stack of [os.path.normpath] for a path taken from the
    root: empty and [.] segments vanish, [..] pops a component (and is
    dropped at the root). *)
Fixpoint norm_from (stack : list string) (segs : list string) : list string :=
  match segs with
  | [] => stack
  | s :: rest =>
      if (s =? "") || (s =? ".") then norm_from stack rest
      else if s =? ".." then norm_from (removelast stack) rest
      else norm_from (stack ++ [s]) rest
  end.

(** The components of [os.path.abspath(p)].  The working directory of
    the process is the root of the tree. *)
Definition abspath_parts (p : string) : list string := norm_from [] (segments p).

(** POSIX lets a path that begins with exactly two slashes mean
    something of its own, so [os.path.normpath] keeps two leading
    slashes, and turns three or more into one. *)
Definition double_slash (p : string) : bool :=
  startswith p "//" && negb (startswith p "///").

(** [os.path.abspath(p)]: the leading slashes, then the components
    joined by slashes. *)
Definition abspath (p : string) : string :=
  (if double_slash p then "//" else "/") +++ join_slash (abspath_parts p).

Fixpoint strip_common (a b : list string) : list string * list string :=
  match a, b with
  | x :: a', y :: b' => if x =? y then strip_common a' b' else (a, b)
  | _, _ => (a, b)
  end.

(** [os.path.relpath(path, start)]: it compares the components of the
    two absolute paths, whatever their leading slashes. *)
Definition relpath (path start : string) : string :=
  let '(up, down) := strip_common (abspath_parts start) (abspath_parts path) in
  match (map (fun _ => "..") up ++ down)%list with
  | [] => "."
  | rel => join_slash rel
  end.

End OsPath.

(* ================================================================== *)
(** ** Exceptions and results *)

(** The exceptions the program can meet.  [CompressionError] is the one
    class the program declares; the others come from the libraries. *)
Inductive exn : Type :=
| CompressionError (msg : string)
| OSError            (* FileNotFoundError, IsADirectoryError, NotADirectoryError, ... *)
| ValueError (msg : string)
| CodecError.        (* BadGzipFile, LZMAError, BadZipFile, tarfile.ReadError, ... *)

Inductive result (A : Type) : Type :=
| Ok (a : A)
| Raise (e : exn).
Arguments Ok {A} a.
Arguments Raise {A} e.

(* ================================================================== *)
(** ** The file system *)

Module FS.
Import Str.

(** A directory lists its entries in the order [os.scandir] reports them. *)
#[warnings="-register-all"] Inductive node : Type :=
| File (data : bytes)
| Dir (entries : list (string * node)).

Definition is_dir_node (n : node) : bool :=
  match n with Dir _ => true | File _ => false end.

Fixpoint lookup_entry (name : string) (es : list (string * node)) : option node :=
  match es with
  | [] => None
  | (n, x) :: r => if n =? name then Some x else lookup_entry name r
  end.

(** Replace the entry called [name], or append it when there is none. *)
Fixpoint set_entry (name : string) (x : node) (es : list (string * node))
  : list (string * node) :=
  match es with
  | [] => [(name, x)]
  | (n, y) :: r => if n =? name then (n, x) :: r else (n, y) :: set_entry name x r
  end.

(** A location is a list of names from the root of the tree. *)
Definition loc := list string.

Fixpoint node_at (t : node) (l : loc) : option node :=
  match l with
  | [] => Some t
  | c :: rest =>
      match t with
      | Dir es =>
          match lookup_entry c es with
          | Some x => node_at x rest
          | None => None
          end
      | File _ => None
      end
  end.

(** Put [x] at location [l]; the parent of [l] must be a directory. *)
Fixpoint put_at (t : node) (l : loc) (x : node) : option node :=
  match l with
  | [] => Some x
  | c :: rest =>
      match t with
      | Dir es =>
          match rest with
          | [] => Some (Dir (set_entry c x es))
          | _ :: _ =>
              match lookup_entry c es with
              | Some y =>
                  match put_at y rest x with
                  | Some y' => Some (Dir (set_entry c y' es))
                  | None => None
                  end
              | None => None
              end
          end
      | File _ => None
      end
  end.

Definition is_dir_at (t : node) (l : loc) : bool :=
  match node_at t l with
  | Some (Dir _) => true
  | _ => false
  end.

(** Path resolution, one segment at a time, as the kernel does it
    (without symbolic links): every step is taken from a directory; an
    empty segment or [.] stays, [..] goes up (and stays at the root), a
    name goes down.  The last name need not exist. *)
Fixpoint resolve (t : node) (here : loc) (segs : list string) : option loc :=
  match segs with
  | [] => Some here
  | s :: rest =>
      if is_dir_at t here then
        if (s =? "") || (s =? ".") then resolve t here rest
        else if s =? ".." then resolve t (removelast here) rest
        else resolve t (here ++ [s]) rest
      else None
  end.

(** The location a path string denotes for a system call.  The empty
    string is no path (ENOENT). *)
Definition locate (t : node) (p : string) : option loc :=
  if p =? "" then None else resolve t [] (segments p).

(** [pathlib.Path(p)] drops empty and [.] segments (so also a trailing
    slash) before it asks the system; [Path("")] is [Path(".")]. *)
Definition pure_parts (p : string) : list string :=
  filter (fun s => negb ((s =? "") || (s =? "."))) (segments p).

Definition Path_node (t : node) (p : string) : option node :=
  match resolve t [] (pure_parts p) with
  | Some l => node_at t l
  | None => None
  end.

(** [Path(p).exists()] *)
Definition Path_exists (t : node) (p : string) : bool :=
  match Path_node t p with Some _ => true | None => false end.

(** [Path(p).is_dir()] *)
Definition Path_is_dir (t : node) (p : string) : bool :=
  match Path_node t p with Some (Dir _) => true | _ => false end.

(** [open(p, 'rb').read()] *)
Definition read_file (t : node) (p : string) : result bytes :=
  match locate t p with
  | Some l =>
      match node_at t l with
      | Some (File d) => Ok d
      | _ => Raise OSError
      end
  | None => Raise OSError
  end.

(** [open(p, 'wb')], [write(data)], [close()]: creates or truncates the
    regular file at [p]. *)
Definition write_file (t : node) (p : string) (data : bytes) : result node :=
  match locate t p with
  | Some l =>
      match node_at t l with
      | Some (Dir _) => Raise OSError
      | _ =>
          match put_at t l (File data) with
          | Some t' => Ok t'
          | None => Raise OSError
          end
      end
  | None => Raise OSError
  end.

(** [os.makedirs] along a list of segments: directories that are missing
    are created on the way. *)
Fixpoint makedirs (t : node) (here : loc) (segs : list string) : option node :=
  match segs with
  | [] => Some t
  | s :: rest =>
      if is_dir_at t here then
        if (s =? "") || (s =? ".") then makedirs t here rest
        else if s =? ".." then makedirs t (removelast here) rest
        else match node_at t (here ++ [s]) with
             | Some _ => makedirs t (here ++ [s]) rest
             | None =>
                 match put_at t (here ++ [s]) (Dir []) with
                 | Some t' => makedirs t' (here ++ [s]) rest
                 | None => None
                 end
             end
      else None
  end.

Definition file_names (es : list (string * node)) : list string :=
  map fst (filter (fun e => negb (is_dir_node (snd e))) es).

Definition dir_names (es : list (string * node)) : list string :=
  map fst (filter (fun e => is_dir_node (snd e)) es).

(** [os.walk(top)], top-down: the triple of a directory first, then the
    walks of its subdirectories in listing order.  A [top] that is not a
    directory yields nothing (the scandir error is ignored). *)
Fixpoint walk_node (top : string) (n : node)
  : list (string * list string * list string) :=
  match n with
  | File _ => []
  | Dir es =>
      (top, dir_names es, file_names es)
      :: flat_map (fun '(name, child) =>
                     match child with
                     | Dir _ => walk_node (OsPath.join top name) child
                     | File _ => []
                     end) es
  end.

Definition os_walk (t : node) (top : string)
  : list (string * list string * list string) :=
  match locate t top with
  | Some l =>
      match node_at t l with
      | Some n => walk_node top n
      | None => []
      end
  | None => []
  end.

(** The regular files among the entries of a directory. *)
Fixpoint own_files (es : list (string * node)) : list (loc * bytes) :=
  match es with
  | [] => []
  | (name, File d) :: r => ([name], d) :: own_files r
  | (_, Dir _) :: r => own_files r
  end.

(** The regular files below a directory node, each with its location
    relative to the node, in walk order: the files of the directory
    itself, then those of each subdirectory. *)
Fixpoint files_under (n : node) : list (loc * bytes) :=
  match n with
  | File _ => []
  | Dir es =>
      own_files es
      ++ flat_map (fun '(name, child) =>
                     map (fun e => (name :: fst e, snd e)) (files_under child)) es
  end.

(** Trees a file system can hold: entry names are proper and unique
    within their directory. *)
#[warnings="-register-all"] Inductive wf_node : node -> Prop :=
| wf_File d : wf_node (File d)
| wf_Dir es :
    NoDup (map fst es) ->
    Forall (fun e => proper_name (fst e) = true) es ->
    Forall (fun e => wf_node (snd e)) es ->
    wf_node (Dir es).

End FS.

(* ================================================================== *)
(** ** The libraries: codecs, archives, hashes *)

(** A member of a tar or zip archive.  Ownership, modes and time stamps
    are not part of the model. *)
Inductive member : Type :=
| RegFile (name : string) (data : bytes)
| DirMember (name : string).

Definition member_name (m : member) : string :=
  match m with RegFile n _ => n | DirMember n => n end.

(** The codecs and archive formats of the Python standard library.  A
    compressor takes the level and the data; a decompressor fails on
    bytes that are not in its format.  [zip_pack] takes the optional
    [compresslevel] of [zipfile.ZipFile].  The command line admits the
    levels 1 to 9, which every codec accepts; what a codec does with
    another level (some raise [ValueError]) is not described.

    The last three fields say what has reached the disk of a file that
    is still open for writing.  [open_buffer_size] is the size of the
    buffer [open(p, 'wb')] gives its file object (the block size of the
    device, or [io.DEFAULT_BUFFER_SIZE]).  [tar_unfinished ms] is what
    the disk holds of a tar archive to which the members [ms] have been
    added and which is not closed yet.  [zip_unfinished level ms] is
    what [ZipFile.write] stores when the file it is given is the
    archive itself, after the members [ms]: it reads on while its own
    output reaches the disk, and [None] stands for a copy that does not
    come to an end before the disk is full. *)
Record Codecs : Type := {
  gzip_compress : Z -> bytes -> bytes;
  gzip_decompress : bytes -> option bytes;
  lzma_compress : Z -> bytes -> bytes;
  lzma_decompress : bytes -> option bytes;
  bz2_compress : Z -> bytes -> bytes;
  bz2_decompress : bytes -> option bytes;
  tar_pack : list member -> bytes;
  tar_unpack : bytes -> option (list member);
  zip_pack : option Z -> list member -> bytes;
  zip_unpack : bytes -> option (list member);
  open_buffer_size : nat;
  tar_unfinished : list member -> bytes;
  zip_unfinished : option Z -> list member -> option bytes
}.

(** What the libraries promise: decoding undoes encoding, for the levels
    1 to 9 the command line admits. *)
Record CodecLaws (C : Codecs) : Prop := {
  gzip_roundtrip : forall l d, (1 <= l <= 9)%Z ->
    gzip_decompress C (gzip_compress C l d) = Some d;
  lzma_roundtrip : forall l d, (1 <= l <= 9)%Z ->
    lzma_decompress C (lzma_compress C l d) = Some d;
  bz2_roundtrip : forall l d, (1 <= l <= 9)%Z ->
    bz2_decompress C (bz2_compress C l d) = Some d;
  tar_roundtrip : forall ms, tar_unpack C (tar_pack C ms) = Some ms;
  zip_roundtrip : forall l ms, (1 <= l <= 9)%Z ->
    zip_unpack C (zip_pack C (Some l) ms) = Some ms;
  zip_roundtrip_default : forall ms,
    zip_unpack C (zip_pack C None ms) = Some ms
}.

(** A hash constructor of [hashlib]: a fresh object, [update] and
    [hexdigest]. *)
Record HashAlgo : Type := {
  hash_state : Type;
  hash_new : hash_state;
  hash_update : hash_state -> bytes -> hash_state;
  hash_hexdigest : hash_state -> string
}.

(** The law of [hashlib]: repeated calls of [update] are equivalent to a
    single call with the concatenation of the arguments (so no call at
    all is a call with no bytes). *)
Definition streaming (H : HashAlgo) : Prop :=
  (forall s : hash_state H, hash_update H s [] = s)
  /\ (forall (s : hash_state H) (a b : bytes),
        hash_update H (hash_update H s a) b = hash_update H s (a ++ b)).

(** The reference one-shot hash: [hashlib.new(name, data).hexdigest()]. *)
Definition one_shot (H : HashAlgo) (data : bytes) : string :=
  hash_hexdigest H (hash_update H (hash_new H) data).

(** [hashlib.new] by name; [None] stands for its [ValueError]. *)
Definition Hashlib := string -> option HashAlgo.

(* ================================================================== *)
(** ** The world and the monad of the program *)

Inductive event : Type :=
| LogInfo (msg : string)
| LogError (msg : string)
| HelpText
| Traceback (e : exn).

Record world : Type := {
  disk : FS.node;
  console : list event
}.

(** A computation runs on a world and ends in a value or an exception;
    the world it leaves is kept in both cases, since nothing the program
    wrote is rolled back. *)
Definition M (A : Type) : Type := world -> result A * world.

Definition ret {A} (a : A) : M A := fun w => (Ok a, w).

Definition raise {A} (e : exn) : M A := fun w => (Raise e, w).

Definition bind {A B} (m : M A) (k : A -> M B) : M B :=
  fun w =>
    match m w with
    | (Ok a, w') => k a w'
    | (Raise e, w') => (Raise e, w')
    end.

Notation "x <- m ;; k" := (bind m (fun x => k))
  (at level 61, m at next level, right associativity).
Notation "m ;; k" := (bind m (fun _ => k))
  (at level 61, right associativity).

(** A [for] loop that carries an accumulator. *)
Fixpoint for_each {A B} (l : list A) (acc : B) (body : B -> A -> M B) : M B :=
  match l with
  | [] => ret acc
  | x :: r => acc' <- body acc x ;; for_each r acc' body
  end.

Definition get_disk : M FS.node := fun w => (Ok (disk w), w).

Definition set_disk (t : FS.node) : M unit :=
  fun w => (Ok tt, {| disk := t; console := console w |}).

Definition emit (e : event) : M unit :=
  fun w => (Ok tt, {| disk := disk w; console := console w ++ [e] |}).

Definition lift_result {A} (r : result A) : M A := fun w => (r, w).

(** [logging.info] and [logging.error] *)
Definition logging_info (msg : string) : M unit := emit (LogInfo msg).
Definition logging_error (msg : string) : M unit := emit (LogError msg).

(* ================================================================== *)
(** ** Library calls on the world *)

Module Lib.
Import Str.

(** [with open(p, 'rb') as f: f.read()] *)
Definition read_all (p : string) : M bytes :=
  t <- get_disk ;; lift_result (FS.read_file t p).

(** [open(p, 'wb')] followed by the writes and the close. *)
Definition write_all (p : string) (data : bytes) : M unit :=
  t <- get_disk ;;
  t' <- lift_result (FS.write_file t p data) ;;
  set_disk t'.

(** Opening for writing creates the file (empty) before anything is
    written to it. *)
Definition create (p : string) : M unit := write_all p [].

(** A write of the raw file behind a file object that [open(p, 'wb')]
    has given: the bytes go to the end of the file. *)
Definition append_file (p : string) (data : bytes) : M unit :=
  old <- read_all p ;; write_all p (old ++ data).

(** [f.write(data)] on the file object of [open(p, 'wb')], whose buffer
    takes [size] bytes and holds [buf].  Data that fits is kept in the
    buffer.  Otherwise the buffer is written out first; then data longer
    than the buffer goes to the file at once, other data into the
    buffer.  The value is the buffer after the call. *)
Definition buffered_write (size : nat) (p : string) (buf data : bytes) : M bytes :=
  if (length data <=? size - length buf)%nat then ret (buf ++ data)
  else
    append_file p buf ;;
    (if (size <? length data)%nat then append_file p data ;; ret []
     else ret data).

(** Reading through a decompressor and copying into [dst] with
    [shutil.copyfileobj]: [src] is opened first, then [dst] is created,
    then the data is decoded.  What a failed decoding leaves in [dst]
    beyond the created file is not modelled. *)
Definition copy_decoded (decode : bytes -> option bytes) (src dst : string) : M unit :=
  raw <- read_all src ;;
  create dst ;;
  match decode raw with
  | Some data => write_all dst data
  | None => raise CodecError
  end.

(** An archive object open for writing: its name (the absolute path,
    as [TarFile.name]), the path it was opened with, and the members
    added so far. *)
Record archive : Type := {
  arc_name : string;
  arc_file : string;
  arc_members : list member
}.

Definition archive_open (p : string) : M archive :=
  create p ;;
  ret {| arc_name := OsPath.abspath p; arc_file := p; arc_members := [] |}.

Definition add_members (a : archive) (ms : list member) : archive :=
  {| arc_name := arc_name a; arc_file := arc_file a;
     arc_members := arc_members a ++ ms |}.

(** The members [TarFile.add(name, arcname)] makes of a node: a regular
    file is one member, a directory is added with all it contains. *)
Fixpoint tar_members (arcname : string) (n : FS.node) : list member :=
  match n with
  | FS.File d => [RegFile arcname d]
  | FS.Dir es =>
      DirMember arcname
      :: flat_map (fun '(name, child) =>
                     tar_members (OsPath.join arcname name) child) es
  end.

Definition same_parts (a b : list string) : bool :=
  if list_eq_dec string_dec a b then true else false.

(** The file at [l] is the file of the archive itself, which is still
    open. *)
Definition own_file (a : archive) (t : FS.node) (l : FS.loc) : bool :=
  match FS.locate t (arc_file a) with
  | Some lo => same_parts l lo
  | None => false
  end.

(** [tar.add(name, arcname=arcname)].  A name whose absolute path is the
    name of the archive is skipped; the two are compared as strings.  A
    regular file is read as the disk has it; of the archive itself, when
    it is not skipped, that is [unfinished] of the members added so
    far. *)
Definition tar_add (unfinished : list member -> bytes) (a : archive)
    (name arcname : string) : M archive :=
  if (OsPath.abspath name =? arc_name a)%string then ret a
  else
    t <- get_disk ;;
    match FS.locate t name with
    | Some l =>
        match FS.node_at t l with
        | Some n =>
            if own_file a t l
            then ret (add_members a [RegFile arcname (unfinished (arc_members a))])
            else ret (add_members a (tar_members arcname n))
        | None => raise OSError
        end
    | None => raise OSError
    end.

(** [zipf.write(name, arcname=arcname)]: a regular file is stored with
    its content, a directory as an entry of its own.  Nothing keeps the
    archive from storing itself; what it reads then is [unfinished] of
    the members added so far, and the call fails when that has no
    end. *)
Definition zip_write (unfinished : list member -> option bytes) (a : archive)
    (name arcname : string) : M archive :=
  t <- get_disk ;;
  match FS.locate t name with
  | Some l =>
      match FS.node_at t l with
      | Some (FS.File d) =>
          if own_file a t l then
            match unfinished (arc_members a) with
            | Some d' => ret (add_members a [RegFile arcname d'])
            | None => raise OSError
            end
          else ret (add_members a [RegFile arcname d])
      | Some (FS.Dir _) => ret (add_members a [DirMember (arcname +++ "/")])
      | None => raise OSError
      end
  | None => raise OSError
  end.

(** Extraction of one member below [path]: missing directories above the
    target are made first. *)
Definition extract_member (path : string) (m : member) : M unit :=
  let target := OsPath.join path (member_name m) in
  t <- get_disk ;;
  match m with
  | RegFile _ data =>
      match FS.makedirs t [] (removelast (segments target)) with
      | Some t' => set_disk t' ;; write_all target data
      | None => raise OSError
      end
  | DirMember _ =>
      match FS.makedirs t [] (segments target) with
      | Some t' => set_disk t'
      | None => raise OSError
      end
  end.

(** [extractall(path)] of an archive read from [src]. *)
Definition extractall (unpack : bytes -> option (list member)) (src path : string)
  : M unit :=
  raw <- read_all src ;;
  match unpack raw with
  | Some ms => for_each ms tt (fun _ m => extract_member path m)
  | None => raise CodecError
  end.

End Lib.

(* ================================================================== *)
(** ** The program *)

Section Program.

Variable C : Codecs.
Variable hashlib : Hashlib.

(** [validate_input_path] *)
Definition validate_input_path (input_path : string) : M unit :=
  t <- get_disk ;;
  if negb (FS.Path_exists t input_path)
  then raise (CompressionError ("Input path does not exist: " +++ input_path))
  else ret tt.

(** [validate_output_path] *)
Definition validate_output_path (output_path : string) : M unit :=
  t <- get_disk ;;
  if FS.Path_exists t output_path
  then raise (CompressionError ("Output path already exists: " +++ output_path))
  else ret tt.

Definition chunk_size : nat := 4096.

(** The loop [for chunk in iter(lambda: f.read(4096), b""): update(chunk)]
    over the unread rest [f] of the file.  Each round reads a chunk; the
    empty chunk ends the loop.  [fuel] bounds the number of rounds. *)
Fixpoint read_chunks (H : HashAlgo) (fuel : nat) (f : bytes) (h : hash_state H)
  : option (hash_state H) :=
  match fuel with
  | O => None
  | S fuel' =>
      match firstn chunk_size f with
      | [] => Some h
      | chunk => read_chunks H fuel' (skipn chunk_size f) (hash_update H h chunk)
      end
  end.

(** [calculate_checksum] (the source gives [algorithm] the default
    ['sha256']).  A file of [n] bytes needs at most [n + 1] rounds, so
    the loop never runs out of fuel and the last case is never taken
    ([read_chunks_enough]). *)
Definition calculate_checksum (file_path algorithm : string) : M string :=
  match hashlib algorithm with
  | None => raise (ValueError ("unsupported hash type " +++ algorithm))
  | Some H =>
      f <- Lib.read_all file_path ;;
      match read_chunks H (S (length f)) f (hash_new H) with
      | Some h => ret (hash_hexdigest H h)
      | None => raise OSError
      end
  end.

(** [compress_file] *)
Definition compress_file (input_path output_path format : string) (level : Z)
    (verbose : bool) : M unit :=
  validate_input_path input_path ;;
  validate_output_path output_path ;;
  logging_info ("Compressing file: " +++ input_path +++ " to " +++ output_path
                +++ " with format " +++ format) ;;
  data <- Lib.read_all input_path ;;
  (if format =? "gz" then
     Lib.write_all output_path (gzip_compress C level data)
   else if format =? "xz" then
     Lib.write_all output_path (lzma_compress C level data)
   else if format =? "bz2" then
     Lib.write_all output_path (bz2_compress C level data)
   else if format =? "zip" then
     zipf <- Lib.archive_open output_path ;;
     zipf <- Lib.zip_write (zip_unfinished C (Some level)) zipf input_path
               (OsPath.basename input_path) ;;
     Lib.write_all output_path (zip_pack C (Some level) (Lib.arc_members zipf))
   else if format =? "tar" then
     tar <- Lib.archive_open output_path ;;
     tar <- Lib.tar_add (tar_unfinished C) tar input_path
              (OsPath.basename input_path) ;;
     Lib.write_all output_path (tar_pack C (Lib.arc_members tar))
   else if format =? "zst" then
     Lib.write_all output_path data
   else
     raise (CompressionError ("Unsupported format: " +++ format))) ;;
  logging_info "Compression complete".

(** [compress_directory].  The walk is taken once the output file has
    been opened, as in the source, so an output placed inside the input
    directory is one of the files the walk lists.  What the loop reads
    of it then is what has reached the disk: for the placeholder format
    what the buffer of [f_out] has let through, for the archive formats
    what the library says ([tar_unfinished], [zip_unfinished]).  The
    rest reaches the disk when the [with] block ends. *)
Definition compress_directory (input_path output_path format : string)
    (verbose : bool) : M unit :=
  validate_input_path input_path ;;
  validate_output_path output_path ;;
  logging_info ("Compressing directory: " +++ input_path +++ " to " +++ output_path
                +++ " with format " +++ format) ;;
  (if format =? "tar" then
     tar <- Lib.archive_open output_path ;;
     t <- get_disk ;;
     tar <- for_each (FS.os_walk t input_path) tar (fun tar '(root, _, files) =>
              for_each files tar (fun tar file =>
                let file_path := OsPath.join root file in
                let arcname := OsPath.relpath file_path input_path in
                Lib.tar_add (tar_unfinished C) tar file_path arcname)) ;;
     Lib.write_all output_path (tar_pack C (Lib.arc_members tar))
   else if format =? "zip" then
     zipf <- Lib.archive_open output_path ;;
     t <- get_disk ;;
     zipf <- for_each (FS.os_walk t input_path) zipf (fun zipf '(root, _, files) =>
               for_each files zipf (fun zipf file =>
                 let file_path := OsPath.join root file in
                 let arcname := OsPath.relpath file_path input_path in
                 Lib.zip_write (zip_unfinished C None) zipf file_path arcname)) ;;
     Lib.write_all output_path (zip_pack C None (Lib.arc_members zipf))
   else if format =? "zst" then
     Lib.create output_path ;;
     t <- get_disk ;;
     f_out <- for_each (FS.os_walk t input_path) [] (fun f_out '(root, _, files) =>
                for_each files f_out (fun f_out file =>
                  let file_path := OsPath.join root file in
                  data <- Lib.read_all file_path ;;
                  Lib.buffered_write (open_buffer_size C) output_path f_out data)) ;;
     Lib.append_file output_path f_out
   else
     raise (CompressionError ("Unsupported format for directories: " +++ format))) ;;
  logging_info "Compression complete".

(** [decompress] *)
Definition decompress (input_path output_path : string) (verbose : bool) : M unit :=
  validate_input_path input_path ;;
  validate_output_path output_path ;;
  logging_info ("Decompressing file: " +++ input_path +++ " to " +++ output_path) ;;
  (if Str.endswith input_path ".gz" then
     Lib.copy_decoded (gzip_decompress C) input_path output_path
   else if Str.endswith input_path ".xz" then
     Lib.copy_decoded (lzma_decompress C) input_path output_path
   else if Str.endswith input_path ".bz2" then
     Lib.copy_decoded (bz2_decompress C) input_path output_path
   else if Str.endswith input_path ".zip" then
     Lib.extractall (zip_unpack C) input_path output_path
   else if Str.endswith input_path ".tar" then
     Lib.extractall (tar_unpack C) input_path output_path
   else if Str.endswith input_path ".zst" then
     Lib.copy_decoded (fun raw => Some raw) input_path output_path
   else
     raise (CompressionError ("Unsupported format: " +++ input_path))) ;;
  logging_info "Decompression complete".

(** [setup_logging] installs a coloured formatter and sets the level of
    the root logger.  Neither shows in the model: a log line is an event,
    whatever it looks like. *)
Definition setup_logging (verbose : bool) : M unit := ret tt.

(** The parsed command line ([argparse.Namespace]); [argparse] admits the
    six format tags and the levels 1 to 9. *)
Record Args : Type := {
  arg_compress : bool;
  arg_decompress : bool;
  arg_input : string;
  arg_output : string;
  arg_format : string;
  arg_level : Z;
  arg_verbose : bool
}.

(** [str(Path(p))]: empty and [.] segments are dropped. *)
Definition Path_str (p : string) : string :=
  if Str.startswith p "/" then "/" +++ Str.join_slash (FS.pure_parts p)
  else match FS.pure_parts p with
       | [] => "."
       | parts => Str.join_slash parts
       end.

(** The body of the [try] block of [main]. *)
Definition dispatch (args : Args) : M unit :=
  if arg_compress args then
    let input_path := Path_str (arg_input args) in
    let output_path := Path_str (arg_output args) in
    t <- get_disk ;;
    if FS.Path_is_dir t input_path then
      compress_directory input_path output_path (arg_format args) (arg_verbose args)
    else
      compress_file input_path output_path (arg_format args) (arg_level args)
                    (arg_verbose args)
  else if arg_decompress args then
    decompress (arg_input args) (arg_output args) (arg_verbose args)
  else
    emit HelpText.

(** The [try] statement of [main]: the exit status of the process and
    the world it leaves.  [CompressionError] is caught and logged; any
    other exception ends the interpreter with a traceback.  Both give
    status 1. *)
Definition finish (r : result unit * world) : Z * world :=
  match r with
  | (Ok _, w') => (0%Z, w')
  | (Raise (CompressionError msg), w') =>
      (1%Z, snd (logging_error ("Error: " +++ msg) w'))
  | (Raise e, w') => (1%Z, snd (emit (Traceback e) w'))
  end.

(** [main], after argument parsing.  An interrupt from the keyboard is
    an event from outside and has no place in the model. *)
Definition main (args : Args) (w : world) : Z * world :=
  finish ((setup_logging (arg_verbose args) ;; dispatch args) w).

End Program.

(* ================================================================== *)
(** ** SHA-256 (FIPS 180-4) as a streaming hash object *)

Module Sha256.
Local Open Scope Z_scope.

Definition mask32 : Z := 4294967295.

Definition add32 (x y : Z) : Z := Z.land (x + y) mask32.

Definition rotr (n x : Z) : Z :=
  Z.lor (Z.shiftr x n) (Z.land (Z.shiftl x (32 - n)) mask32).

Definition Ch (x y z : Z) : Z :=
  Z.lxor (Z.land x y) (Z.land (Z.lxor x mask32) z).

Definition Maj (x y z : Z) : Z :=
  Z.lxor (Z.lxor (Z.land x y) (Z.land x z)) (Z.land y z).

Definition Sigma0 (x : Z) : Z := Z.lxor (Z.lxor (rotr 2 x) (rotr 13 x)) (rotr 22 x).
Definition Sigma1 (x : Z) : Z := Z.lxor (Z.lxor (rotr 6 x) (rotr 11 x)) (rotr 25 x).
Definition sigma0 (x : Z) : Z := Z.lxor (Z.lxor (rotr 7 x) (rotr 18 x)) (Z.shiftr x 3).
Definition sigma1 (x : Z) : Z := Z.lxor (Z.lxor (rotr 17 x) (rotr 19 x)) (Z.shiftr x 10).

(** The constants are not tabulated but derived as the standard defines
    them (FIPS 180-4, 4.2.2 and 5.3.3): the first 32 bits of the
    fractional parts of the cube roots, for [K], and of the square roots,
    for [H0], of the first primes. *)
Definition is_prime (p : Z) : bool :=
  forallb (fun d => negb (p mod d =? 0)) (map Z.of_nat (seq 2 (Z.to_nat p - 2))).

Definition primes : list Z :=
  filter is_prime (map Z.of_nat (seq 2 310)).

(** The integer cube root, bit by bit from the top. *)
Fixpoint cbrt_bits (bits : nat) (n r : Z) : Z :=
  match bits with
  | O => r
  | S b =>
      let c := r + Z.shiftl 1 (Z.of_nat b) in
      if c * c * c <=? n then cbrt_bits b n c else cbrt_bits b n r
  end.

Definition frac_cbrt32 (p : Z) : Z := Z.land (cbrt_bits 40 (Z.shiftl p 96) 0) mask32.

Definition frac_sqrt32 (p : Z) : Z := Z.land (Z.sqrt (Z.shiftl p 64)) mask32.

Definition K : list Z := Eval vm_compute in map frac_cbrt32 (firstn 64 primes).

Definition H0 : list Z := Eval vm_compute in map frac_sqrt32 (firstn 8 primes).

Definition byte_val (b : byte) : Z := Z.of_N (Byte.to_N b).

(** Big-endian 32-bit words of a byte string (a tail of fewer than four
    bytes is dropped; blocks have 64). *)
Fixpoint words_of (bs : bytes) : list Z :=
  match bs with
  | a :: b :: c :: d :: r =>
      (byte_val a * 16777216 + byte_val b * 65536 + byte_val c * 256 + byte_val d)
      :: words_of r
  | _ => []
  end.

(** The message schedule, newest word first: [n] more words are derived
    from the sixteen before them. *)
Fixpoint schedule (n : nat) (w : list Z) : list Z :=
  match n with
  | O => w
  | S n' =>
      let wt := add32 (add32 (sigma1 (nth 1 w 0)) (nth 6 w 0))
                      (add32 (sigma0 (nth 14 w 0)) (nth 15 w 0)) in
      schedule n' (wt :: w)
  end.

Definition regs : Type := (Z * Z * Z * Z * Z * Z * Z * Z)%type.

Definition round (r : regs) (kw : Z * Z) : regs :=
  let '(a, b, c, d, e, f, g, h) := r in
  let t1 := add32 (add32 (add32 h (Sigma1 e)) (add32 (Ch e f g) (fst kw))) (snd kw) in
  let t2 := add32 (Sigma0 a) (Maj a b c) in
  (add32 t1 t2, a, b, c, add32 d t1, e, f, g).

Definition regs_of (h : list Z) : regs :=
  (nth 0 h 0, nth 1 h 0, nth 2 h 0, nth 3 h 0,
   nth 4 h 0, nth 5 h 0, nth 6 h 0, nth 7 h 0).

(** The compression function: one 64-byte block into the chaining value. *)
Definition compress (h : list Z) (block : bytes) : list Z :=
  let w := rev (schedule 48 (rev (words_of block))) in
  let '(a, b, c, d, e, f, g, hh) := fold_left round (combine K w) (regs_of h) in
  map (fun p => add32 (fst p) (snd p)) (combine h [a; b; c; d; e; f; g; hh]).

(** The hash object: chaining value, the bytes of the block being filled,
    and the number of bytes seen. *)
Record state : Type := {
  chain : list Z;
  pending : bytes;
  seen : Z
}.

Definition init : state := {| chain := H0; pending := []; seen := 0 |}.

Definition push (s : state) (b : byte) : state :=
  let buf := (pending s ++ [b])%list in
  if (length buf =? 64)%nat
  then {| chain := compress (chain s) buf; pending := []; seen := seen s + 1 |}
  else {| chain := chain s; pending := buf; seen := seen s + 1 |}.

(** [update(data)]: bytes fill the block, full blocks are compressed. *)
Definition update (s : state) (data : bytes) : state := fold_left push data s.

Definition byte_of (z : Z) : byte :=
  match Byte.of_N (Z.to_N (Z.land z 255)) with
  | Some b => b
  | None => x00
  end.

(** The 64-bit big-endian bit count that ends the padding. *)
Definition length_field (nbytes : Z) : bytes :=
  let bits := nbytes * 8 in
  map (fun i => byte_of (Z.shiftr bits (8 * i))) [7; 6; 5; 4; 3; 2; 1; 0].

Definition padding (s : state) : bytes :=
  let n := length (pending s) in
  let zeros := if (n <? 56)%nat then (55 - n)%nat else (119 - n)%nat in
  (x80 :: repeat x00 zeros ++ length_field (seen s))%list.

Definition hex_digit (z : Z) : ascii :=
  nth (Z.to_nat z)
      (list_ascii_of_string "0123456789abcdef") "0"%char.

Fixpoint hex_of (digits : nat) (z : Z) (acc : string) : string :=
  match digits with
  | O => acc
  | S d => hex_of d (Z.shiftr z 4) (String (hex_digit (Z.land z 15)) acc)
  end.

(** [hexdigest()]: the padded last blocks go through the compression
    function of a copy of the object; eight words in lowercase hex. *)
Definition hexdigest (s : state) : string :=
  let final := fold_left push (padding s) s in
  fold_right (fun w acc => hex_of 8 w acc) ""%string (chain final).

Definition algo : HashAlgo := {|
  hash_state := state;
  hash_new := init;
  hash_update := update;
  hash_hexdigest := hexdigest
|}.

End Sha256.

(** A [hashlib] that knows SHA-256 under its name. *)
Definition hashlib_sha256 : Hashlib :=
  fun name => if name =? "sha256" then Some Sha256.algo else None.

(* ================================================================== *)
(** ** A stand-in for the codec libraries

    Codecs that store the data behind a two-byte header, and an archive
    format that writes its members one after the other.  They meet the
    laws of [CodecLaws] and let the program run on concrete worlds. *)

Module Store.

Definition level_byte (l : Z) : byte := Sha256.byte_of l.

Definition wrap (magic : byte) (level : Z) (d : bytes) : bytes :=
  magic :: level_byte level :: d.

Definition unwrap (magic : byte) (raw : bytes) : option bytes :=
  match raw with
  | m :: _ :: d => if Byte.eqb m magic then Some d else None
  | _ => None
  end.

(** A byte string inside a stream: every byte behind a [x01], closed by
    [x00]. *)
Fixpoint enc_bytes (bs : bytes) : bytes :=
  match bs with
  | [] => [x00]
  | b :: r => x01 :: b :: enc_bytes r
  end.

Fixpoint dec_bytes (s : bytes) : option (bytes * bytes) :=
  match s with
  | tag :: r =>
      if Byte.eqb tag x00 then Some ([], r)
      else match r with
           | b :: r' =>
               match dec_bytes r' with
               | Some (bs, rest) => Some (b :: bs, rest)
               | None => None
               end
           | [] => None
           end
  | [] => None
  end.

Definition enc_member (m : member) : bytes :=
  match m with
  | RegFile n d => x00 :: enc_bytes (list_byte_of_string n) ++ enc_bytes d
  | DirMember n => x01 :: enc_bytes (list_byte_of_string n)
  end.

Fixpoint enc_members (ms : list member) : bytes :=
  match ms with
  | [] => []
  | m :: r => enc_member m ++ enc_members r
  end.

Fixpoint dec_members (fuel : nat) (s : bytes) : option (list member) :=
  match s with
  | [] => Some []
  | tag :: r =>
      match fuel with
      | O => None
      | S fuel' =>
          match dec_bytes r with
          | Some (n, r1) =>
              if Byte.eqb tag x00 then
                match dec_bytes r1 with
                | Some (d, r2) =>
                    match dec_members fuel' r2 with
                    | Some ms => Some (RegFile (string_of_list_byte n) d :: ms)
                    | None => None
                    end
                | None => None
                end
              else
                match dec_members fuel' r1 with
                | Some ms => Some (DirMember (string_of_list_byte n) :: ms)
                | None => None
                end
          | None => None
          end
      end
  end.

Definition pack (magic : byte) (level : Z) (ms : list member) : bytes :=
  wrap magic level (enc_members ms).

Definition unpack (magic : byte) (raw : bytes) : option (list member) :=
  match unwrap magic raw with
  | Some s => dec_members (length s) s
  | None => None
  end.

Definition codecs : Codecs := {|
  gzip_compress := wrap x1f;
  gzip_decompress := unwrap x1f;
  lzma_compress := wrap xfd;
  lzma_decompress := unwrap xfd;
  bz2_compress := wrap x42;
  bz2_decompress := unwrap x42;
  tar_pack := pack x75 0;
  tar_unpack := unpack x75;
  zip_pack := fun l => pack x50 (match l with Some z => z | None => 0%Z end);
  zip_unpack := unpack x50;
  open_buffer_size := 2 * 4096;
  tar_unfinished := fun _ => [];
  zip_unfinished := fun _ _ => Some []
|}.

End Store.

(* ================================================================== *)
(** ** A sample world *)

Module Sample.
Import FS.

Definition abc : bytes := [x61; x62; x63].

(** [in.txt], an older archive [old.gz], and a directory [docs] with two
    files, one of them in a subdirectory, and an empty subdirectory. *)
Definition tree : node :=
  Dir [ ("in.txt", File abc);
        ("old.gz", File (Store.wrap x1f 6 [x7a]));
        ("docs", Dir [ ("a.txt", File [x61]);
                       ("empty", Dir []);
                       ("sub", Dir [ ("b.txt", File [x62; x62]) ]);
                       ("c.txt", File [x63]) ]) ].

Definition w0 : world := {| disk := tree; console := [] |}.

(** A directory [logs] with one file that is longer, by one byte, than
    the buffer [open] gives a file object, and an empty subdirectory. *)
Definition long : bytes := repeat x61 (S (open_buffer_size Store.codecs)).

Definition logs_tree : node :=
  Dir [ ("logs", Dir [ ("long.bin", File long); ("sub", Dir []) ]) ].

Definition w_logs : world := {| disk := logs_tree; console := [] |}.

Definition args0 : Args := {|
  arg_compress := false; arg_decompress := false;
  arg_input := "in.txt"; arg_output := "out.gz"; arg_format := "gz";
  arg_level := 6%Z; arg_verbose := false
|}.

End Sample.

(* ================================================================== *)
(** ** The vocabulary of the specification

    The specification names four domain errors.  The program raises each
    as a [CompressionError] with a message of its own. *)

Definition PathNotFound (input_path : string) : exn :=
  CompressionError ("Input path does not exist: " +++ input_path).

Definition OutputAlreadyExists (output_path : string) : exn :=
  CompressionError ("Output path already exists: " +++ output_path).

Definition UnsupportedFormat (what : string) : exn :=
  CompressionError ("Unsupported format: " +++ what).

Definition UnsupportedFormatForDirectories (format : string) : exn :=
  CompressionError ("Unsupported format for directories: " +++ format).

(** The three public operations, as calls. *)
Inductive call : Type :=
| CompressFile (input_path output_path format : string) (level : Z) (verbose : bool)
| CompressDirectory (input_path output_path format : string) (verbose : bool)
| Decompress (input_path output_path : string) (verbose : bool).

Definition call_input (c : call) : string :=
  match c with
  | CompressFile i _ _ _ _ => i
  | CompressDirectory i _ _ _ => i
  | Decompress i _ _ => i
  end.

Definition call_output (c : call) : string :=
  match c with
  | CompressFile _ o _ _ _ => o
  | CompressDirectory _ o _ _ => o
  | Decompress _ o _ => o
  end.

Definition run (C : Codecs) (c : call) : M unit :=
  match c with
  | CompressFile i o f l v => compress_file C i o f l v
  | CompressDirectory i o f v => compress_directory C i o f v
  | Decompress i o v => decompress C i o v
  end.

(** The six suffixes [decompress] knows. *)
Definition known_suffixes : list string :=
  [".gz"; ".xz"; ".bz2"; ".zip"; ".tar"; ".zst"].

Definition known_suffix (p : string) : bool :=
  existsb (Str.endswith p) known_suffixes.

(** The six format tags of [compress_file]. *)
Definition format_tags : list string := ["gz"; "xz"; "bz2"; "zip"; "tar"; "zst"].

(** A path that can be created: it resolves, and nothing is there yet. *)
Definition creatable (t : FS.node) (p : string) : Prop :=
  exists l, FS.locate t p = Some l /\ FS.node_at t l = None.

(** A path that denotes a directory. *)
Definition directory_at (t : FS.node) (p : string) (l : FS.loc) (n : FS.node) : Prop :=
  FS.locate t p = Some l /\ FS.node_at t l = Some n /\ FS.is_dir_node n = true.

(** Where the content of [input_path] is found once the artifact made
    with [format] has been decompressed into [output_path]: the archive
    formats extract into a directory, the others write a file. *)
Definition recovered_path (format input_path output_path : string) : string :=
  if (format =? "zip") || (format =? "tar")
  then OsPath.join output_path (OsPath.basename input_path)
  else output_path.

(** The world after a line of [logging.info]. *)
Definition logged (w : world) (msg : string) : world :=
  {| disk := disk w; console := console w ++ [LogInfo msg] |}.

(** The world with another disk. *)
Definition with_disk (w : world) (t : FS.node) : world :=
  {| disk := t; console := console w |}.

(** Exceptions of the libraries, as opposed to the program's own. *)
Definition library_exn (e : exn) : Prop :=
  match e with CompressionError _ => False | _ => True end.

(** A computation that raises, if anything, an exception in [P], and
    adds to the console, if anything, events in [E]. *)
Definition behaves {A} (P : exn -> Prop) (E : event -> Prop) (m : M A) : Prop :=
  forall w,
    match fst (m w) with Ok _ => True | Raise e => P e end
    /\ exists es, console (snd (m w)) = console w ++ es /\ Forall E es.

(** A library call: it raises exceptions of the libraries only and logs
    nothing. *)
Definition library_only {A} (m : M A) : Prop :=
  behaves library_exn (fun _ => False) m.

(** What a call is about: its format, or for [decompress] its input path. *)
Definition call_subject (c : call) : string :=
  match c with
  | CompressFile _ _ f _ _ => f
  | CompressDirectory _ _ f _ => f
  | Decompress i _ _ => i
  end.

(** The domain errors a call can end in. *)
Definition domain_errors (c : call) : list exn :=
  [ PathNotFound (call_input c); OutputAlreadyExists (call_output c);
    UnsupportedFormat (call_subject c);
    UnsupportedFormatForDirectories (call_subject c) ].

(** The chunks a file is read in: none is empty, none is longer than
    [chunk_size], all but the last are full. *)
Inductive chunked : list bytes -> Prop :=
| chunked_nil : chunked []
| chunked_last c : c <> [] -> length c <= chunk_size -> chunked [c]
| chunked_cons c cs : length c = chunk_size -> cs <> [] -> chunked cs -> chunked (c :: cs).

(** The artifact [compress_file] makes of [data] read from [input_path]. *)
Definition artifact (C : Codecs) (format : string) (level : Z) (input_path : string)
    (data : bytes) : bytes :=
  if format =? "gz" then gzip_compress C level data
  else if format =? "xz" then lzma_compress C level data
  else if format =? "bz2" then bz2_compress C level data
  else if format =? "zip" then
    zip_pack C (Some level) [RegFile (OsPath.basename input_path) data]
  else if format =? "tar" then tar_pack C [RegFile (OsPath.basename input_path) data]
  else data.

(** The shape of the loops of [compress_directory]: for every triple of
    the walk, for every file name in it, [step] on the joined path. *)
Definition walk_body {B} (step : B -> string -> M B) (acc : B)
    (triple : string * list string * list string) : M B :=
  let '(root, _, files) := triple in
  for_each files acc (fun acc file => step acc (OsPath.join root file)).

(** What such a loop computes from the files found below location [rel]. *)
Definition collect {B} (g : B -> FS.loc -> bytes -> B) (rel : FS.loc) (acc : B)
    (found : list (FS.loc * bytes)) : B :=
  fold_left (fun a e => g a (rel ++ fst e) (snd e)) found acc.

(** The paths of the files of a walk, in the order the loops meet them. *)
Definition walk_paths (t : FS.node) (top : string) : list string :=
  flat_map (fun '(root, _, files) => map (OsPath.join root) files) (FS.os_walk t top).

(** The output path lies outside the input directory. *)
Definition outside (t : FS.node) (output_path input_path : string) : Prop :=
  forall lo li r, FS.locate t output_path = Some lo -> FS.locate t input_path = Some li ->
                  lo <> li ++ r.

(** The members the archive formats make of a directory node. *)
Definition archived (n : FS.node) : list member :=
  map (fun e => RegFile (Str.join_slash (fst e)) (snd e)) (FS.files_under n).

(** The bytes of the files below a directory node, in walk order. *)
Definition walked_bytes (n : FS.node) : bytes := concat (map snd (FS.files_under n)).

(** The lines a call can log: its announcement and its completion. *)
Definition call_log (c : call) : list event :=
  match c with
  | CompressFile i o f _ _ =>
      [ LogInfo ("Compressing file: " +++ i +++ " to " +++ o +++ " with format " +++ f);
        LogInfo "Compression complete" ]
  | CompressDirectory i o f _ =>
      [ LogInfo ("Compressing directory: " +++ i +++ " to " +++ o
                 +++ " with format " +++ f);
        LogInfo "Compression complete" ]
  | Decompress i o _ =>
      [ LogInfo ("Decompressing file: " +++ i +++ " to " +++ o);
        LogInfo "Decompression complete" ]
  end.

(** The events by which an operation shows on the console. *)
Definition shows_compress (e : event) : bool :=
  match e with
  | LogInfo msg => Str.startswith msg "Compress"
  | _ => false
  end.

Definition shows_decompress (e : event) : bool :=
  match e with
  | LogInfo msg => Str.startswith msg "Decompress"
  | _ => false
  end.

(** The calls that compress. *)
Definition is_compress_call (c : call) : Prop :=
  match c with
  | Decompress _ _ _ => False
  | _ => True
  end.

(** The one call [main] makes when the compress flag is set. *)
Definition compress_call (args : Args) (w : world) : call :=
  if FS.Path_is_dir (disk w) (Path_str (arg_input args))
  then CompressDirectory (Path_str (arg_input args)) (Path_str (arg_output args))
                         (arg_format args) (arg_verbose args)
  else CompressFile (Path_str (arg_input args)) (Path_str (arg_output args))
                    (arg_format args) (arg_level args) (arg_verbose args).

(** A string of the digits [0-9a-f] only, as [hexdigest()] returns. *)
Definition lowercase_hex (s : string) : bool :=
  forallb (fun c => existsb (Ascii.eqb c) (list_ascii_of_string "0123456789abcdef"))
          (list_ascii_of_string s).

(** The published SHA-256 digest of the three bytes [abc]. *)
Definition sha256_abc : string :=
  "ba7816bf8f01cfea414140de5dae2223b00361a396177a9cb410ff61f20015ad".

(* ================================================================== *)
(** ** Outcomes of the operations *)

(** The line a call logs once both paths have passed their checks, and
    the line it logs at its end. *)
Definition announcement (c : call) : string :=
  match c with
  | CompressFile i o f _ _ =>
      "Compressing file: " +++ i +++ " to " +++ o +++ " with format " +++ f
  | CompressDirectory i o f _ =>
      "Compressing directory: " +++ i +++ " to " +++ o +++ " with format " +++ f
  | Decompress i o _ => "Decompressing file: " +++ i +++ " to " +++ o
  end.

Definition completion (c : call) : string :=
  match c with
  | Decompress _ _ _ => "Decompression complete"
  | _ => "Compression complete"
  end.

(** [s in l] for strings. *)
Definition mem (s : string) (l : list string) : bool := existsb (String.eqb s) l.

(** The format tags [compress_directory] takes. *)
Definition directory_tags : list string := ["tar"; "zip"; "zst"].

(** [compress_file] as a list of decisions: the checks in the order in
    which the source makes them, and then one write of the artifact. *)
Definition compress_file_outcome (C : Codecs) (input_path output_path format : string)
    (level : Z) (v : bool) (w : world) : result unit * world :=
  let announced :=
    logged w (announcement (CompressFile input_path output_path format level v)) in
  if negb (FS.Path_exists (disk w) input_path) then (Raise (PathNotFound input_path), w)
  else if FS.Path_exists (disk w) output_path
  then (Raise (OutputAlreadyExists output_path), w)
  else match FS.read_file (disk w) input_path with
       | Raise e => (Raise e, announced)
       | Ok data =>
           if mem format format_tags then
             match FS.write_file (disk w) output_path
                     (artifact C format level input_path data) with
             | Ok t' => (Ok tt, logged (with_disk announced t') "Compression complete")
             | Raise e => (Raise e, announced)
             end
           else (Raise (UnsupportedFormat format), announced)
       end.

(** The decoder [decompress] copies a path through, when it does not
    extract it: by the suffix, tried in the order of the source. *)
Definition stream_decoder (C : Codecs) (input_path : string)
  : option (bytes -> option bytes) :=
  if Str.endswith input_path ".gz" then Some (gzip_decompress C)
  else if Str.endswith input_path ".xz" then Some (lzma_decompress C)
  else if Str.endswith input_path ".bz2" then Some (bz2_decompress C)
  else if Str.endswith input_path ".zip" then None
  else if Str.endswith input_path ".tar" then None
  else if Str.endswith input_path ".zst" then Some (fun raw => Some raw)
  else None.

(** The calls that extract an archive. *)
Definition extracting (c : call) : bool :=
  match c with
  | Decompress i _ _ => Str.endswith i ".zip" || Str.endswith i ".tar"
  | _ => false
  end.

(** Disks that differ by writes to the one path [p]. *)
Inductive rewritten (p : string) : FS.node -> FS.node -> Prop :=
| rewritten_refl t : rewritten p t t
| rewritten_step t t1 t2 d :
    rewritten p t t1 -> FS.write_file t1 p d = Ok t2 -> rewritten p t t2.

(** A computation whose only effect on the disk is to write to [p]. *)
Definition writes_only {A} (p : string) (m : M A) : Prop :=
  forall w, rewritten p (disk w) (disk (snd (m w))).

(** What [argparse] yields for the options that are not given: the
    defaults of [--format] and [--level]. *)
Definition default_format : string := "gz".
Definition default_level : Z := 6.

Definition default_args (compress decompress : bool) (input output : string)
    (verbose : bool) : Args := {|
  arg_compress := compress; arg_decompress := decompress;
  arg_input := input; arg_output := output;
  arg_format := default_format; arg_level := default_level;
  arg_verbose := verbose
|}.

(** A computation that, when it succeeds, leaves a regular file at [p]. *)
Definition leaves_file {A} (p : string) (m : M A) : Prop :=
  forall w a w', m w = (Ok a, w') -> exists d, FS.read_file (disk w') p = Ok d.

(** A computation that leaves the console alone. *)
Definition quiet {A} (m : M A) : Prop :=
  forall w, console (snd (m w)) = console w.



(** A file of a tree, as the archive formats name it. *)
Definition file_member (e : FS.loc * bytes) : member :=
  RegFile (Str.join_slash (fst e)) (snd e).


(** A path [p] that the walk of [top] hands to the loop, and the file
    [e] it leads to: [top] lies at [l], the file at its place below, and
    the path begins with the slashes of [top]. *)
Definition walked (t : FS.node) (top : string) (l : FS.loc) (p : string)
    (e : FS.loc * bytes) : Prop :=
  FS.locate t p = Some (l ++ fst e) /\ fst e <> []
  /\ OsPath.double_slash p = OsPath.double_slash top.

(** The members an archive gets from the files [found] below the
    directory at [li] when the archive itself lies at [lo].  A file
    elsewhere becomes a member with its bytes.  What happens at the
    archive's own file is given by [own], from the members [ms] added so
    far: the file is left out ([Ok None]), stored with the bytes that
    are read of it ([Ok (Some d)]), or the call fails. *)
Fixpoint gathered (own : list member -> result (option bytes)) (li lo : FS.loc)
    (ms : list member) (found : list (FS.loc * bytes)) : result (list member) :=
  match found with
  | [] => Ok ms
  | e :: rest =>
      if Lib.same_parts (li ++ fst e) lo then
        match own ms with
        | Ok None => gathered own li lo ms rest
        | Ok (Some d) =>
            gathered own li lo (ms ++ [RegFile (Str.join_slash (fst e)) d]) rest
        | Raise x => Raise x
        end
      else gathered own li lo (ms ++ [file_member e]) rest
  end.

(** What [tar.add] does at the archive's own file: it leaves it out when
    the two absolute paths are the same string, which they are when both
    begin with the same slashes ([alike]); else it stores what the disk
    holds of the archive. *)
Definition tar_own (C : Codecs) (alike : bool) (ms : list member)
  : result (option bytes) :=
  if alike then Ok None else Ok (Some (tar_unfinished C ms)).

(** What [zipf.write] does at the archive's own file. *)
Definition zip_own (C : Codecs) (ms : list member) : result (option bytes) :=
  match zip_unfinished C None ms with
  | Some d => Ok (Some d)
  | None => Raise OSError
  end.

(** What [argparse] has checked when [main] runs: the format is one of
    its choices, the level one of 1 to 9. *)
Definition parsed (args : Args) : Prop :=
  In (arg_format args) format_tags /\ (1 <= arg_level args <= 9)%Z.

(* ================================================================== *)
(** ** The configuration of the log *)

Module Logging.

(** The numeric levels of [logging]. *)
Definition NOTSET : Z := 0.
Definition DEBUG : Z := 10.
Definition INFO : Z := 20.
Definition WARNING : Z := 30.
Definition ERROR : Z := 40.
Definition CRITICAL : Z := 50.

(** A [ColoredFormatter], as it is constructed: the format string, the
    date format, the reset flag and the colour of every level name. *)
Record formatter : Type := {
  fmt : string;
  datefmt : string;
  reset : bool;
  log_colors : list (string * string)
}.

(** A handler: its own level ([NOTSET] when none is set) and its
    formatter, if one is set. *)
Record handler : Type := {
  handler_level : Z;
  handler_formatter : option formatter
}.

(** The root logger: its level and the handlers added to it. *)
Record logger : Type := {
  level : Z;
  handlers : list handler
}.

(** The root logger of a fresh interpreter. *)
Definition fresh_root : logger := {| level := WARNING; handlers := [] |}.

(** [setup_logging]: the level follows the verbosity, and one more
    handler with a coloured formatter is added to the root logger. *)
Definition setup_logging (verbose : bool) (root : logger) : logger :=
  let level := if verbose then DEBUG else INFO in
  let formatter := {|
    fmt := "%(log_color)s%(asctime)s - %(levelname)s - %(message)s";
    datefmt := "%Y-%m-%d %H:%M:%S";
    reset := true;
    log_colors := [ ("DEBUG", "cyan"); ("INFO", "green"); ("WARNING", "yellow");
                    ("ERROR", "red"); ("CRITICAL", "red,bg_white") ]
  |} in
  let handler := {| handler_level := NOTSET; handler_formatter := Some formatter |} in
  {| level := level; handlers := handlers root ++ [handler] |}.

(** The handlers a call of [logging.info] or [logging.error] finds: on a
    root logger without any, [basicConfig] adds a plain one first. *)
Definition effective_handlers (root : logger) : list handler :=
  match handlers root with
  | [] => [ {| handler_level := NOTSET; handler_formatter := None |} ]
  | hs => hs
  end.

(** How often a record of level [lvl] is written: not at all below the
    level of the logger, and otherwise once by every handler whose own
    level admits it. *)
Definition emitted (root : logger) (lvl : Z) : nat :=
  if (level root <=? lvl)%Z
  then length (filter (fun h => (handler_level h <=? lvl)%Z) (effective_handlers root))
  else 0.

(** The level of the records the program logs: [logging.info] and
    [logging.error].  The help text and a traceback are no records. *)
Definition levelno (e : event) : option Z :=
  match e with
  | LogInfo _ => Some INFO
  | LogError _ => Some ERROR
  | HelpText => None
  | Traceback _ => None
  end.

(** What is shown of the events of a run under a configuration. *)
Definition shown (root : logger) (es : list event) : list event :=
  flat_map (fun e =>
              match levelno e with
              | Some lvl => repeat e (emitted root lvl)
              | None => [e]
              end) es.

End Logging.

(** The arguments with another verbosity. *)
Definition with_verbose (verbose : bool) (args : Args) : Args := {|
  arg_compress := arg_compress args; arg_decompress := arg_decompress args;
  arg_input := arg_input args; arg_output := arg_output args;
  arg_format := arg_format args; arg_level := arg_level args;
  arg_verbose := verbose
|}.

(* ================================================================== *)
(** * The definitions at work *)

Module Runs.
Import Sample.

Example endswith_is_case_sensitive :
  Str.endswith "data.gz" ".gz" = true /\ Str.endswith "data.GZ" ".gz" = false.
Proof. split; reflexivity. Qed.

Example segments_keep_empty_parts : Str.segments "a//b/" = ["a"; ""; "b"; ""].
Proof. reflexivity. Qed.

Example join_as_posixpath :
  OsPath.join "docs" "a.txt" = "docs/a.txt"
  /\ OsPath.join "docs/" "a.txt" = "docs/a.txt"
  /\ OsPath.join "docs" "/etc" = "/etc"
  /\ OsPath.join "" "a.txt" = "a.txt".
Proof. repeat split. Qed.

Example basename_as_posixpath :
  OsPath.basename "docs/sub/b.txt" = "b.txt" /\ OsPath.basename "docs/" = "".
Proof. split; reflexivity. Qed.

Example relpath_as_posixpath :
  OsPath.relpath "docs/sub/b.txt" "docs" = "sub/b.txt"
  /\ OsPath.relpath "./docs/../docs/a.txt" "docs/" = "a.txt"
  /\ OsPath.relpath "in.txt" "docs/sub" = "../../in.txt"
  /\ OsPath.relpath "docs" "docs" = ".".
Proof. repeat split. Qed.

Example abspath_as_posixpath :
  OsPath.abspath "docs/out.tar" = "/docs/out.tar"
  /\ OsPath.abspath "/docs/./sub/../out.tar" = "/docs/out.tar"
  /\ OsPath.abspath "//docs/out.tar" = "//docs/out.tar"
  /\ OsPath.abspath "///docs/out.tar" = "/docs/out.tar"
  /\ OsPath.abspath "//" = "//"
  /\ OsPath.abspath ".." = "/"
  /\ OsPath.abspath "" = "/".
Proof. repeat split. Qed.

Example pathlib_drops_the_trailing_slash :
  FS.Path_exists tree "in.txt/" = true /\ FS.read_file tree "in.txt/" = Raise OSError.
Proof. split; reflexivity. Qed.

Example dot_dot_goes_up :
  FS.read_file tree "docs/sub/../a.txt" = Ok [x61]
  /\ FS.Path_exists tree "in.txt/../docs" = false.
Proof. split; reflexivity. Qed.

Example walk_of_docs :
  FS.os_walk tree "docs"
  = [ ("docs", ["empty"; "sub"], ["a.txt"; "c.txt"]);
      ("docs/empty", [], []);
      ("docs/sub", [], ["b.txt"]) ].
Proof. reflexivity. Qed.

Example files_under_docs :
  FS.files_under tree
  = [ (["in.txt"], abc); (["old.gz"], Store.wrap x1f 6 [x7a]);
      (["docs"; "a.txt"], [x61]); (["docs"; "c.txt"], [x63]);
      (["docs"; "sub"; "b.txt"], [x62; x62]) ].
Proof. reflexivity. Qed.

Example sha256_constants :
  length Sha256.K = 64
  /\ nth 0 Sha256.K 0%Z = 0x428a2f98%Z /\ nth 63 Sha256.K 0%Z = 0xc67178f2%Z
  /\ nth 0 Sha256.H0 0%Z = 0x6a09e667%Z /\ nth 7 Sha256.H0 0%Z = 0x5be0cd19%Z.
Proof. repeat split. Qed.

Example sha256_of_nothing :
  one_shot Sha256.algo []
  = "e3b0c44298fc1c149afbf4c8996fb92427ae41e4649b934ca495991b7852b855".
Proof. vm_compute. reflexivity. Qed.

(** Two blocks: 56 bytes do not leave room for the length field. *)
Example sha256_of_two_blocks :
  one_shot Sha256.algo
    (list_byte_of_string "abcdbcdecdefdefgefghfghighijhijkijkljklmklmnlmnomnopnopq")
  = "248d6a61d20638b8e5c026930c3e6039a33ce45964ff2167f6ecedd419db06c1".
Proof. vm_compute. reflexivity. Qed.

Example compress_a_file :
  FS.read_file
    (disk (snd (compress_file Store.codecs "in.txt" "out.gz" "gz" 6 false w0))) "out.gz"
  = Ok (Store.wrap x1f 6 abc).
Proof. reflexivity. Qed.

Example extract_makes_the_directory :
  FS.read_file
    (disk (snd ((compress_file Store.codecs "in.txt" "out.zip" "zip" 6 false ;;
                 decompress Store.codecs "out.zip" "new/dir" false) w0)))
    "new/dir/in.txt"
  = Ok abc.
Proof. reflexivity. Qed.

(** A buffer of four bytes that holds two: data that fits is kept; data
    that does not fit sends the buffer to the disk, and goes there
    itself when it is longer than the buffer. *)
Example buffered_writes :
  let w := {| disk := FS.Dir [("out", FS.File [x61])]; console := [] |} in
  Lib.buffered_write 4 "out" [x62; x62] [x63; x63] w = (Ok [x62; x62; x63; x63], w)
  /\ Lib.buffered_write 4 "out" [x62; x62] [x63; x63; x63] w
     = (Ok [x63; x63; x63],
        {| disk := FS.Dir [("out", FS.File [x61; x62; x62])]; console := [] |})
  /\ Lib.buffered_write 4 "out" [x62; x62] [x63; x63; x63; x63; x63] w
     = (Ok [],
        {| disk := FS.Dir [("out", FS.File [x61; x62; x62; x63; x63; x63; x63; x63])];
           console := [] |}).
Proof. repeat split. Qed.

(** The placeholder format with the output inside the directory: the
    walk lists the output too.  Files that fit into the buffer have not
    reached the disk when the output is read; a longer file has. *)
Example small_files_stay_in_the_buffer :
  walk_paths
    (disk (snd (compress_directory Store.codecs "docs" "docs/out.zst" "zst" false w0)))
    "docs"
  = ["docs/a.txt"; "docs/c.txt"; "docs/out.zst"; "docs/sub/b.txt"]
  /\ FS.read_file
       (disk (snd (compress_directory Store.codecs "docs" "docs/out.zst" "zst" false w0)))
       "docs/out.zst"
     = Ok [x61; x63; x62; x62].
Proof. split; reflexivity. Qed.

Example a_long_file_is_read_back :
  walk_paths
    (disk (snd (compress_directory Store.codecs "logs" "logs/sub/out.zst" "zst" false
                  w_logs))) "logs"
  = ["logs/long.bin"; "logs/sub/out.zst"]
  /\ FS.read_file
       (disk (snd (compress_directory Store.codecs "logs" "logs/sub/out.zst" "zst" false
                     w_logs))) "logs/sub/out.zst"
     = Ok (long ++ long).
Proof. split; vm_compute; reflexivity. Qed.

(** A tar archive inside the directory it archives is left out when its
    path begins like the paths of the walk, and is stored, as far as it
    has reached the disk, when it begins with two slashes and they do
    not. *)
Example tar_compares_absolute_paths :
  tar_unpack Store.codecs
    match FS.read_file
            (disk (snd (compress_directory Store.codecs "docs" "docs/out.tar" "tar" false
                          w0))) "docs/out.tar" with
    | Ok raw => raw
    | Raise _ => []
    end
  = Some [RegFile "a.txt" [x61]; RegFile "c.txt" [x63]; RegFile "sub/b.txt" [x62; x62]]
  /\ tar_unpack Store.codecs
       match FS.read_file
               (disk (snd (compress_directory Store.codecs "docs" "//docs/out.tar" "tar"
                             false w0))) "docs/out.tar" with
       | Ok raw => raw
       | Raise _ => []
       end
     = Some [RegFile "a.txt" [x61]; RegFile "c.txt" [x63]; RegFile "out.tar" [];
             RegFile "sub/b.txt" [x62; x62]].
Proof. split; reflexivity. Qed.

Example main_compresses_a_directory :
  fst (main Store.codecs
         {| arg_compress := true; arg_decompress := true;
            arg_input := "./docs/"; arg_output := "docs.tar"; arg_format := "tar";
            arg_level := 6%Z; arg_verbose := true |} w0) = 0%Z.
Proof. reflexivity. Qed.

Example main_reports_a_domain_error :
  main Store.codecs
    {| arg_compress := false; arg_decompress := true;
       arg_input := "in.txt"; arg_output := "out"; arg_format := "gz";
       arg_level := 6%Z; arg_verbose := false |} w0
  = (1%Z, {| disk := tree;
             console := [ LogInfo "Decompressing file: in.txt to out";
                          LogError "Error: Unsupported format: in.txt" ] |}).
Proof. reflexivity. Qed.

End Runs.

(* ================================================================== *)
(** * Facts about strings and paths *)

Module StrFacts.
Import Str.

Lemma segments_nonempty (s : string) : segments s <> [].
Proof.
  destruct s as [|c r]; simpl; [discriminate|].
  destruct (Ascii.eqb c "/"); [discriminate|].
  destruct (segments r); discriminate.
Qed.

(** Splitting distributes over a slash. *)
Lemma segments_app_slash (a b : string) :
  segments (a +++ "/" +++ b) = segments a ++ segments b.
Proof.
  change (segments (a +++ String "/" b) = segments a ++ segments b).
  induction a as [|c a IH]; simpl; [reflexivity|].
  destruct (Ascii.eqb c "/"); [now rewrite IH|].
  rewrite IH.
  destruct (segments a) as [|x xs] eqn:E; [now apply segments_nonempty in E|].
  reflexivity.
Qed.

Lemma segments_no_slash (s : string) : has_slash s = false -> segments s = [s].
Proof.
  induction s as [|c r IH]; simpl; [reflexivity|].
  intros H. apply orb_false_iff in H as [Hc Hr].
  rewrite Hc, (IH Hr). reflexivity.
Qed.

Lemma append_empty_r (s : string) : s +++ "" = s.
Proof. induction s; simpl; congruence. Qed.

Lemma append_assoc (a b c : string) : (a +++ b) +++ c = a +++ b +++ c.
Proof. induction a; simpl; congruence. Qed.

Lemma segments_trailing_slash (a : string) :
  segments (a +++ "/") = segments a ++ [""].
Proof.
  rewrite <- (append_empty_r (a +++ "/")), append_assoc.
  apply segments_app_slash.
Qed.

Lemma list_ascii_app (a b : string) :
  list_ascii_of_string (a +++ b) = list_ascii_of_string a ++ list_ascii_of_string b.
Proof. induction a; simpl; congruence. Qed.

Lemma string_of_list_app (a b : list ascii) :
  string_of_list_ascii (a ++ b) = string_of_list_ascii a +++ string_of_list_ascii b.
Proof. induction a; simpl; congruence. Qed.

Lemma prefixb_spec (p l : list ascii) :
  prefixb p l = true <-> exists r, l = p ++ r.
Proof.
  revert l; induction p as [|a p IH]; intros l; simpl.
  - split; [intros _; now exists l | reflexivity].
  - destruct l as [|b l]; [split; [discriminate | intros [r Hr]; discriminate]|].
    rewrite andb_true_iff, IH. split.
    + intros [Hab [r ->]]. apply Ascii.eqb_eq in Hab as ->. now exists r.
    + intros [r Hr]. injection Hr as -> ->. split; [apply Ascii.eqb_refl | now exists r].
Qed.

(** [endswith] is the suffix relation. *)
Lemma endswith_spec (s suffix : string) :
  endswith s suffix = true <-> exists p, s = p +++ suffix.
Proof.
  unfold endswith. rewrite prefixb_spec. split.
  - intros [r Hr]. exists (string_of_list_ascii (rev r)).
    rewrite <- (string_of_list_ascii_of_string s), <- (rev_involutive (list_ascii_of_string s)), Hr.
    rewrite rev_app_distr, rev_involutive, string_of_list_app.
    now rewrite string_of_list_ascii_of_string.
  - intros [p ->]. exists (rev (list_ascii_of_string p)).
    now rewrite list_ascii_app, rev_app_distr.
Qed.

Lemma endswith_append (p suffix : string) : endswith (p +++ suffix) suffix = true.
Proof. apply endswith_spec. now exists p. Qed.

(** Two suffixes of one string: one is a suffix of the other. *)
Lemma endswith_comparable (s a b : string) :
  endswith s a = true -> endswith s b = true ->
  endswith a b = true \/ endswith b a = true.
Proof.
  unfold endswith.
  generalize (rev (list_ascii_of_string s)) (rev (list_ascii_of_string a))
             (rev (list_ascii_of_string b)).
  intros l; induction l as [|c l IH]; intros x y Hx Hy.
  - destruct x; [|discriminate]. destruct y; [|discriminate]. now left.
  - destruct x as [|cx x]; [now right|].
    destruct y as [|cy y]; [now left|].
    simpl in *. apply andb_true_iff in Hx as [Hcx Hx]. apply andb_true_iff in Hy as [Hcy Hy].
    apply Ascii.eqb_eq in Hcx, Hcy. subst cx cy. rewrite Ascii.eqb_refl. simpl.
    destruct (IH x y Hx Hy) as [H|H]; [left | right]; exact H.
Qed.

Lemma startswith_no_slash (s : string) :
  has_slash s = false -> startswith s "/" = false.
Proof.
  destruct s as [|c r]; simpl; [reflexivity|].
  intros H. apply orb_false_iff in H as [Hc _].
  unfold startswith. cbn [list_ascii_of_string prefixb].
  rewrite Ascii.eqb_sym, Hc. reflexivity.
Qed.

Lemma proper_name_spec (s : string) :
  proper_name s = true ->
  s <> "" /\ s <> "." /\ s <> ".." /\ has_slash s = false.
Proof.
  unfold proper_name. intros H.
  repeat (apply andb_true_iff in H as [H ?]).
  rewrite !negb_true_iff in *.
  repeat split; try (apply String.eqb_neq; assumption); assumption.
Qed.

(** Every segment of a path is free of slashes. *)
Lemma segments_slash_free (s : string) : Forall (fun x => has_slash x = false) (segments s).
Proof.
  induction s as [|c r IH]; simpl; [repeat constructor|].
  destruct (Ascii.eqb c "/") eqn:Hc; [constructor; [reflexivity | exact IH]|].
  destruct (segments r) as [|x xs]; [repeat constructor; simpl; now rewrite Hc|].
  inversion IH; subst. constructor; [simpl; now rewrite Hc | assumption].
Qed.

End StrFacts.

(* ================================================================== *)
(** * Facts about the file system *)

Module FSFacts.
Import Str FS StrFacts.

(** Induction on trees, with the hypothesis for every entry of a
    directory. *)
Lemma node_induction (P : node -> Prop) :
  (forall d, P (File d)) ->
  (forall es, Forall (fun e => P (snd e)) es -> P (Dir es)) ->
  forall n, P n.
Proof.
  intros HF HD. fix IH 1. intros [d|es]; [apply HF|].
  apply HD. induction es as [|[name child] r IHr]; constructor; [apply IH | exact IHr].
Qed.

Lemma lookup_set_same name x es : lookup_entry name (set_entry name x es) = Some x.
Proof.
  induction es as [|[n y] r IH]; simpl.
  - now rewrite String.eqb_refl.
  - destruct (n =? name) eqn:E; simpl; rewrite E; [reflexivity | exact IH].
Qed.

Lemma lookup_set_other name name' x es :
  name' <> name -> lookup_entry name' (set_entry name x es) = lookup_entry name' es.
Proof.
  intros Hne. induction es as [|[n y] r IH]; simpl.
  - destruct (name =? name') eqn:E; [apply String.eqb_eq in E; congruence | reflexivity].
  - destruct (n =? name) eqn:E; simpl.
    + apply String.eqb_eq in E; subst n.
      destruct (name =? name') eqn:E'; [apply String.eqb_eq in E'; congruence | reflexivity].
    + now rewrite IH.
Qed.

Lemma node_at_app t l l' :
  node_at t (l ++ l') = match node_at t l with Some n => node_at n l' | None => None end.
Proof.
  revert t; induction l as [|c l IH]; intros t; simpl; [reflexivity|].
  destruct t as [d|es]; [reflexivity|].
  destruct (lookup_entry c es); [apply IH | reflexivity].
Qed.

Lemma node_at_put_same t l x t' : put_at t l x = Some t' -> node_at t' l = Some x.
Proof.
  revert t t'; induction l as [|c rest IH]; intros t t' H; simpl in *.
  - congruence.
  - destruct t as [d|es]; [discriminate|].
    destruct rest as [|c2 rest2].
    + injection H as <-. simpl. now rewrite lookup_set_same.
    + destruct (lookup_entry c es) as [y|]; [|discriminate].
      destruct (put_at y (c2 :: rest2) x) as [y'|] eqn:E; [|discriminate].
      injection H as <-. cbn [node_at]. rewrite lookup_set_same. now apply (IH y).
Qed.

Lemma is_dir_at_nil_inv t : is_dir_at t [] = true -> exists es, t = Dir es.
Proof. unfold is_dir_at; simpl. destruct t; [discriminate | eauto]. Qed.

Lemma is_dir_at_cons_inv t c l :
  is_dir_at t (c :: l) = true ->
  exists es y, t = Dir es /\ lookup_entry c es = Some y /\ is_dir_at y l = true.
Proof.
  unfold is_dir_at; simpl. destruct t as [d|es]; [discriminate|].
  destruct (lookup_entry c es) as [y|] eqn:E; [|discriminate].
  intros H. exists es, y. auto.
Qed.

(** A new entry can be put into every directory. *)
Lemma put_at_child t h s x :
  is_dir_at t h = true -> exists t', put_at t (h ++ [s]) x = Some t'.
Proof.
  revert t; induction h as [|c h IH]; intros t H.
  - apply is_dir_at_nil_inv in H as [es ->]. simpl. eauto.
  - apply is_dir_at_cons_inv in H as (es & y & -> & Hl & Hd).
    destruct (IH y Hd) as [y' Hy'].
    cbn [app put_at]. rewrite Hl, Hy'.
    destruct (h ++ [s]) eqn:E; [now destruct h | eauto].
Qed.

(** Putting a node below [l'] needs a directory at [l']. *)
Lemma put_at_prefix_dir t l' c r x t' :
  put_at t (l' ++ c :: r) x = Some t' -> is_dir_at t l' = true.
Proof.
  revert t t'; induction l' as [|c' l' IH]; intros t t' H.
  - simpl in H. destruct t; [discriminate | reflexivity].
  - cbn [app put_at] in H. destruct t as [d|es]; [discriminate|].
    assert (E : exists c0 r0, l' ++ c :: r = c0 :: r0) by (destruct l'; simpl; eauto).
    destruct E as (c0 & r0 & E). rewrite E in H. cbv iota in H. rewrite <- E in H.
    unfold is_dir_at; cbn [node_at].
    destruct (lookup_entry c' es) as [y|]; [|discriminate].
    destruct (put_at y (l' ++ c :: r) x) as [y'|] eqn:Ey; [|discriminate].
    apply (IH y y' Ey).
Qed.

(** Frame: what lies neither at nor above a fresh location is kept. *)
Lemma node_at_put_frame t l x t' l' n :
  put_at t l x = Some t' -> node_at t l = None ->
  node_at t l' = Some n -> (forall r, l <> l' ++ r) ->
  node_at t' l' = Some n.
Proof.
  revert t t' l'; induction l as [|c rest IH]; intros t t' l' Hput Hfresh Hn Hnp.
  - discriminate.
  - destruct t as [d|es]; [discriminate|].
    destruct l' as [|c' rest']; [exfalso; now apply (Hnp (c :: rest))|].
    cbn [node_at] in Hn, Hfresh.
    cbn [put_at] in Hput.
    destruct rest as [|c2 rest2].
    + injection Hput as <-. cbn [node_at].
      destruct (String.eqb_spec c' c) as [->|Hne].
      * destruct (lookup_entry c es); discriminate.
      * now rewrite lookup_set_other.
    + destruct (lookup_entry c es) as [y|] eqn:Ey; [|discriminate].
      destruct (put_at y (c2 :: rest2) x) as [y'|] eqn:Ep; [|discriminate].
      injection Hput as <-. cbn [node_at].
      destruct (String.eqb_spec c' c) as [->|Hne].
      * rewrite lookup_set_same. rewrite Ey in Hn.
        apply (IH y y' rest' Ep Hfresh Hn).
        intros r Hr. apply (Hnp r). simpl. now rewrite Hr.
      * now rewrite lookup_set_other.
Qed.

(** A regular file survives the creation of another path. *)
Lemma node_at_put_file_kept t l x t' l' d :
  put_at t l x = Some t' -> node_at t l = None ->
  node_at t l' = Some (File d) -> node_at t' l' = Some (File d).
Proof.
  intros Hput Hfresh Hd. apply (node_at_put_frame t l x t' l' _ Hput Hfresh Hd).
  intros [|c r] ->.
  - rewrite app_nil_r in Hfresh. congruence.
  - apply put_at_prefix_dir in Hput. unfold is_dir_at in Hput. now rewrite Hd in Hput.
Qed.

(** Writing a regular file where no directory is leaves the directories
    as they are. *)
Lemma is_dir_at_put_file t l d t' :
  put_at t l (File d) = Some t' -> is_dir_at t l = false ->
  forall l', is_dir_at t' l' = is_dir_at t l'.
Proof.
  revert t t'; induction l as [|c rest IH]; intros t t' Hput Hnd l'.
  - injection Hput as <-. destruct t as [d0|es]; [|discriminate].
    destruct l'; reflexivity.
  - destruct t as [d0|es]; [discriminate|].
    cbn [put_at] in Hput. unfold is_dir_at in Hnd; cbn [node_at] in Hnd.
    destruct rest as [|c2 rest2].
    + injection Hput as <-. destruct l' as [|c' rest']; [reflexivity|].
      unfold is_dir_at; cbn [node_at].
      destruct (String.eqb_spec c' c) as [->|Hne]; [|now rewrite lookup_set_other].
      rewrite lookup_set_same.
      destruct (lookup_entry c es) as [[d1|es1]|]; [| discriminate |];
        destruct rest'; reflexivity.
    + destruct (lookup_entry c es) as [y|] eqn:Ey; [|discriminate].
      destruct (put_at y (c2 :: rest2) (File d)) as [y'|] eqn:Ep; [|discriminate].
      injection Hput as <-. destruct l' as [|c' rest']; [reflexivity|].
      unfold is_dir_at; cbn [node_at].
      destruct (String.eqb_spec c' c) as [->|Hne]; [|now rewrite lookup_set_other].
      rewrite lookup_set_same, Ey. apply (IH y y' Ep Hnd rest').
Qed.

(** Creating a path keeps every directory a directory. *)
Lemma is_dir_at_put_mono t l x t' l' :
  put_at t l x = Some t' -> node_at t l = None ->
  is_dir_at t l' = true -> is_dir_at t' l' = true.
Proof.
  revert t t' l'; induction l as [|c rest IH]; intros t t' l' Hput Hfresh Hd.
  - discriminate.
  - destruct t as [d0|es]; [discriminate|].
    cbn [put_at] in Hput. cbn [node_at] in Hfresh.
    destruct l' as [|c' rest'].
    + destruct rest as [|c2 rest2]; [now injection Hput as <-|].
      destruct (lookup_entry c es) as [y|]; [|discriminate].
      destruct (put_at y (c2 :: rest2) x); [|discriminate]. now injection Hput as <-.
    + apply is_dir_at_cons_inv in Hd as (es' & y' & [= <-] & Hl & Hd).
      unfold is_dir_at; cbn [node_at].
      destruct rest as [|c2 rest2].
      * injection Hput as <-.
        destruct (String.eqb_spec c' c) as [->|Hne].
        { rewrite Hl in Hfresh. discriminate. }
        rewrite lookup_set_other, Hl by assumption. exact Hd.
      * destruct (lookup_entry c es) as [y|] eqn:Ey; [|discriminate].
        destruct (put_at y (c2 :: rest2) x) as [y2|] eqn:Ep; [|discriminate].
        injection Hput as <-.
        destruct (String.eqb_spec c' c) as [->|Hne].
        { rewrite lookup_set_same. rewrite Ey in Hl. injection Hl as <-.
          apply (IH y y2 rest' Ep Hfresh Hd). }
        rewrite lookup_set_other, Hl by assumption. exact Hd.
Qed.

(** The parent of a directory is a directory. *)
Lemma is_dir_at_removelast t h :
  is_dir_at t h = true -> is_dir_at t (removelast h) = true.
Proof.
  induction h as [|c h _] using rev_ind; [auto|].
  rewrite removelast_last. unfold is_dir_at. rewrite node_at_app.
  destruct (node_at t h) as [[d|es]|]; simpl; try discriminate. reflexivity.
Qed.

(** *** Resolution *)

Lemma resolve_app t a : forall h b,
  resolve t h (a ++ b)
  = match resolve t h a with Some h' => resolve t h' b | None => None end.
Proof.
  induction a as [|s a IH]; intros h b; simpl; [reflexivity|].
  destruct (is_dir_at t h); [|reflexivity].
  destruct ((s =? "") || (s =? ".")); [apply IH|].
  destruct (s =? ".."); apply IH.
Qed.

(** Resolution looks at the directories only. *)
Lemma resolve_ext t t' :
  (forall l, is_dir_at t' l = is_dir_at t l) ->
  forall segs h, resolve t' h segs = resolve t h segs.
Proof.
  intros H segs; induction segs as [|s segs IH]; intros h; simpl; [reflexivity|].
  rewrite H. destruct (is_dir_at t h); [|reflexivity].
  destruct ((s =? "") || (s =? ".")); [apply IH|].
  destruct (s =? ".."); apply IH.
Qed.

Lemma resolve_mono t t' :
  (forall l, is_dir_at t l = true -> is_dir_at t' l = true) ->
  forall segs h l, resolve t h segs = Some l -> resolve t' h segs = Some l.
Proof.
  intros H segs; induction segs as [|s segs IH]; intros h l; simpl; [auto|].
  destruct (is_dir_at t h) eqn:E; [|discriminate]. rewrite (H _ E).
  destruct ((s =? "") || (s =? ".")); [apply IH|].
  destruct (s =? ".."); apply IH.
Qed.

(** [pathlib] drops segments that resolution skips anyway. *)
Lemma resolve_pure t segs : forall h l,
  resolve t h segs = Some l ->
  resolve t h (filter (fun s => negb ((s =? "") || (s =? "."))) segs) = Some l.
Proof.
  induction segs as [|s segs IH]; intros h l; simpl; [auto|].
  destruct (is_dir_at t h) eqn:E; [|discriminate].
  destruct ((s =? "") || (s =? ".")) eqn:Es; simpl; [apply IH|].
  rewrite E, Es. destruct (s =? ".."); apply IH.
Qed.

(** A path that resolves is normalised to its location. *)
Lemma resolve_norm t segs : forall h l,
  resolve t h segs = Some l -> OsPath.norm_from h segs = l.
Proof.
  induction segs as [|s segs IH]; intros h l; simpl; [congruence|].
  destruct (is_dir_at t h); [|discriminate].
  destruct ((s =? "") || (s =? ".")); [apply IH|].
  destruct (s =? ".."); apply IH.
Qed.

(** Resolution starts from a directory and, unless it ends on a name,
    ends on one. *)
Lemma resolve_last t xs s h l :
  resolve t h (xs ++ [s]) = Some l -> is_dir_at t l = false ->
  exists h', resolve t h xs = Some h' /\ is_dir_at t h' = true
             /\ l = h' ++ [s] /\ s <> "" /\ s <> "." /\ s <> "..".
Proof.
  rewrite resolve_app. destruct (resolve t h xs) as [h'|]; [|discriminate].
  simpl. destruct (is_dir_at t h') eqn:E; [|discriminate].
  destruct (String.eqb_spec s "") as [->|H1]; simpl.
  { intros [= <-] Hl. congruence. }
  destruct (String.eqb_spec s ".") as [->|H2]; simpl.
  { intros [= <-] Hl. congruence. }
  destruct (String.eqb_spec s "..") as [->|H3].
  { intros [= <-] Hl. apply is_dir_at_removelast in E. congruence. }
  intros [= <-] _. exists h'. repeat split; auto.
Qed.

Lemma resolve_step_name t h s :
  is_dir_at t h = true -> s <> "" -> s <> "." -> s <> ".." ->
  resolve t h [s] = Some (h ++ [s]).
Proof.
  intros Hd H1 H2 H3. simpl. rewrite Hd.
  apply String.eqb_neq in H1, H2, H3. now rewrite H1, H2, H3.
Qed.

Lemma resolve_head_dir t s segs h l :
  resolve t h (s :: segs) = Some l -> is_dir_at t h = true.
Proof. simpl. destruct (is_dir_at t h); [reflexivity | discriminate]. Qed.

(** *** [makedirs] *)

(** Along a path whose directories all exist but the last, [makedirs]
    creates the last one. *)
Lemma makedirs_last t xs s : forall h h',
  resolve t h xs = Some h' -> is_dir_at t h' = true ->
  s <> "" -> s <> "." -> s <> ".." -> node_at t (h' ++ [s]) = None ->
  makedirs t h (xs ++ [s]) = put_at t (h' ++ [s]) (Dir []).
Proof.
  induction xs as [|s0 xs IH]; intros h h' Hr Hd H1 H2 H3 Hfresh.
  - injection Hr as ->. simpl. rewrite Hd.
    apply String.eqb_neq in H1, H2, H3. rewrite H1, H2, H3. simpl. rewrite Hfresh.
    destruct (put_at t (h' ++ [s]) (Dir [])); reflexivity.
  - cbn [app makedirs]. simpl in Hr.
    destruct (is_dir_at t h) eqn:E; [|discriminate].
    destruct ((s0 =? "") || (s0 =? ".")); [now apply IH|].
    destruct (s0 =? ".."); [now apply IH|].
    assert (Hex : is_dir_at t (h ++ [s0]) = true).
    { destruct xs; [injection Hr as <-; exact Hd | now apply resolve_head_dir in Hr]. }
    unfold is_dir_at in Hex. destruct (node_at t (h ++ [s0])); [|discriminate].
    now apply IH.
Qed.

End FSFacts.

(* ================================================================== *)
(** * Facts about paths on a disk *)

Module PathFacts.
Import Str FS StrFacts FSFacts.

Lemma locate_Some t p l : locate t p = Some l -> p <> "" /\ resolve t [] (segments p) = Some l.
Proof.
  unfold locate. destruct (String.eqb_spec p ""); [discriminate | auto].
Qed.

Lemma locate_Path_node t p l : locate t p = Some l -> Path_node t p = node_at t l.
Proof.
  intros H. apply locate_Some in H as [_ H].
  unfold Path_node, pure_parts. now rewrite (resolve_pure _ _ _ _ H).
Qed.

Lemma read_file_Ok t p d :
  read_file t p = Ok d <-> exists l, locate t p = Some l /\ node_at t l = Some (File d).
Proof.
  unfold read_file. split.
  - destruct (locate t p) as [l|]; [|discriminate].
    destruct (node_at t l) as [[d'|es]|] eqn:E; try discriminate.
    intros [= ->]. eauto.
  - intros (l & -> & ->). reflexivity.
Qed.

(** A file that can be read exists. *)
Lemma readable_exists t p d : read_file t p = Ok d -> Path_exists t p = true.
Proof.
  intros H. apply read_file_Ok in H as (l & Hl & Hn).
  unfold Path_exists. now rewrite (locate_Path_node _ _ _ Hl), Hn.
Qed.

Lemma readable_not_dir t p d : read_file t p = Ok d -> Path_is_dir t p = false.
Proof.
  intros H. apply read_file_Ok in H as (l & Hl & Hn).
  unfold Path_is_dir. now rewrite (locate_Path_node _ _ _ Hl), Hn.
Qed.

(** A path that can be created does not exist. *)
Lemma creatable_not_exists t p : creatable t p -> Path_exists t p = false.
Proof.
  intros (l & Hl & Hn). unfold Path_exists.
  now rewrite (locate_Path_node _ _ _ Hl), Hn.
Qed.

Lemma directory_exists t p l n : directory_at t p l n -> Path_exists t p = true.
Proof.
  intros (Hl & Hn & _). unfold Path_exists.
  now rewrite (locate_Path_node _ _ _ Hl), Hn.
Qed.

Lemma node_at_None_not_dir t l : node_at t l = None -> is_dir_at t l = false.
Proof. unfold is_dir_at. now intros ->. Qed.

Lemma node_at_File_not_dir t l d : node_at t l = Some (File d) -> is_dir_at t l = false.
Proof. unfold is_dir_at. now intros ->. Qed.

Lemma segments_split_last p : segments p = removelast (segments p) ++ [OsPath.basename p].
Proof. apply app_removelast_last, segments_nonempty. Qed.

(** The last step to a location that is no directory is a proper name:
    the base name of the path. *)
Lemma locate_last t p l :
  locate t p = Some l -> is_dir_at t l = false ->
  exists h, resolve t [] (removelast (segments p)) = Some h
            /\ is_dir_at t h = true /\ l = h ++ [OsPath.basename p]
            /\ proper_name (OsPath.basename p) = true.
Proof.
  intros Hl Hnd. apply locate_Some in Hl as [_ Hl].
  rewrite segments_split_last in Hl.
  destruct (resolve_last _ _ _ _ _ Hl Hnd) as (h & Hr & Hd & -> & H1 & H2 & H3).
  exists h. repeat split; auto.
  unfold proper_name.
  apply String.eqb_neq in H1, H2, H3. rewrite H1, H2, H3. simpl.
  pose proof (segments_slash_free p) as HF. rewrite segments_split_last in HF.
  apply Forall_app in HF as [_ HF]. inversion HF; subst. now rewrite H4.
Qed.

Lemma put_at_existing t l x n : node_at t l = Some n -> exists t', put_at t l x = Some t'.
Proof.
  revert t; induction l as [|c rest IH]; intros t H; simpl in *; [eauto|].
  destruct t as [d|es]; [discriminate|].
  destruct (lookup_entry c es) as [y|] eqn:E; [|discriminate].
  destruct rest as [|c2 rest2]; [eauto|].
  destruct (IH y H) as [y' ->]. eauto.
Qed.

(** Writing succeeds on a fresh path and on a regular file. *)
Lemma write_file_fresh t p l d :
  locate t p = Some l -> node_at t l = None ->
  exists t', write_file t p d = Ok t' /\ put_at t l (File d) = Some t'.
Proof.
  intros Hl Hn.
  destruct (locate_last _ _ _ Hl (node_at_None_not_dir _ _ Hn)) as (h & _ & Hd & -> & _).
  destruct (put_at_child t h (OsPath.basename p) (File d) Hd) as [t' Hp].
  exists t'. unfold write_file. now rewrite Hl, Hn, Hp.
Qed.

Lemma write_file_over t p l d0 d :
  locate t p = Some l -> node_at t l = Some (File d0) ->
  exists t', write_file t p d = Ok t' /\ put_at t l (File d) = Some t'.
Proof.
  intros Hl Hn. destruct (put_at_existing t l (File d) _ Hn) as [t' Hp].
  exists t'. unfold write_file. now rewrite Hl, Hn, Hp.
Qed.

Lemma write_file_Ok t p d t' :
  write_file t p d = Ok t' ->
  exists l, locate t p = Some l /\ is_dir_at t l = false /\ put_at t l (File d) = Some t'.
Proof.
  unfold write_file. destruct (locate t p) as [l|] eqn:Hl; [|discriminate].
  unfold is_dir_at.
  destruct (node_at t l) as [[d0|es]|] eqn:Hn; try discriminate;
    (destruct (put_at t l (File d)) as [t2|] eqn:Hp; [|discriminate]);
    intros [= <-]; exists l; rewrite Hn; repeat split; auto.
Qed.

(** A write leaves every path where it was. *)
Lemma locate_after_write t p d t' q :
  write_file t p d = Ok t' -> locate t' q = locate t q.
Proof.
  intros H. apply write_file_Ok in H as (l & _ & Hnd & Hp).
  unfold locate. destruct (q =? ""); [reflexivity|].
  apply resolve_ext. intros l'. apply (is_dir_at_put_file _ _ _ _ Hp Hnd).
Qed.

(** What was written is read back. *)
Lemma read_after_write t p d t' : write_file t p d = Ok t' -> read_file t' p = Ok d.
Proof.
  intros H. pose proof (locate_after_write _ _ _ _ p H) as Hloc.
  apply write_file_Ok in H as (l & Hl & _ & Hp).
  apply read_file_Ok. exists l. split; [congruence|].
  now apply node_at_put_same in Hp.
Qed.

(** A file just written can be written again. *)
Lemma write_again t p d t' d2 :
  write_file t p d = Ok t' -> exists t2, write_file t' p d2 = Ok t2.
Proof.
  intros H. pose proof (read_after_write _ _ _ _ H) as Hr.
  apply read_file_Ok in Hr as (l & Hl & Hn).
  destruct (write_file_over _ _ _ _ d2 Hl Hn) as (t2 & Hw & _). eauto.
Qed.

(** Creating a path keeps the regular files that were there. *)
Lemma read_kept_by_create t p d t' q dq :
  creatable t p -> write_file t p d = Ok t' ->
  read_file t q = Ok dq -> read_file t' q = Ok dq.
Proof.
  intros (l & Hl & Hn) Hw Hq.
  pose proof (locate_after_write _ _ _ _ q Hw) as Hloc.
  apply write_file_Ok in Hw as (l2 & Hl2 & _ & Hp).
  assert (l2 = l) by congruence. subst l2.
  apply read_file_Ok in Hq as (lq & Hlq & Hnq).
  apply read_file_Ok. exists lq. split; [congruence|].
  apply (node_at_put_file_kept _ _ _ _ _ _ Hp Hn Hnq).
Qed.

(** A creatable path and a readable one lie at different places. *)
Lemma abspath_locate t p l : locate t p = Some l -> OsPath.abspath_parts p = l.
Proof. intros H. apply locate_Some in H as [_ H]. apply (resolve_norm _ _ _ _ H). Qed.

(** *** Absolute paths *)

(** Splitting undoes joining when the names are free of slashes. *)
Lemma segments_join_slash r :
  Forall (fun c => has_slash c = false) r -> r <> [] -> segments (join_slash r) = r.
Proof.
  induction r as [|c r IH]; intros HF Hne; [contradiction|].
  inversion HF as [|? ? Hc Hr]; subst.
  destruct r as [|c2 r]; [now apply segments_no_slash|].
  change (join_slash (c :: c2 :: r)) with (c +++ "/" +++ join_slash (c2 :: r)).
  rewrite segments_app_slash, (segments_no_slash _ Hc).
  rewrite IH; [reflexivity | exact Hr | discriminate].
Qed.

Lemma Forall_removelast {A} (Q : A -> Prop) l : Forall Q l -> Forall Q (removelast l).
Proof.
  induction 1 as [|x l Hx Hl IH]; [constructor|].
  simpl. destruct l; [constructor | now constructor].
Qed.

(** The components of a normalised path are names: not empty, and free
    of slashes. *)
Lemma norm_from_names segs : forall stack,
  Forall (fun c => c <> "" /\ has_slash c = false) stack ->
  Forall (fun c => has_slash c = false) segs ->
  Forall (fun c => c <> "" /\ has_slash c = false) (OsPath.norm_from stack segs).
Proof.
  induction segs as [|s segs IH]; intros stack Hst Hsegs; [exact Hst|].
  inversion Hsegs as [|? ? Hs Hrest]; subst. cbn [OsPath.norm_from].
  destruct (String.eqb_spec s "") as [->|Hne]; cbn [orb]; [now apply IH|].
  destruct (s =? "."); [now apply IH|].
  destruct (s =? "..").
  - apply IH; [now apply Forall_removelast | exact Hrest].
  - apply IH; [|exact Hrest]. apply Forall_app. split; [exact Hst|]. now constructor.
Qed.

Lemma abspath_parts_names p :
  Forall (fun c => c <> "" /\ has_slash c = false) (OsPath.abspath_parts p).
Proof. apply norm_from_names; [constructor | apply segments_slash_free]. Qed.

Lemma startswith_append c x : c <> "" -> startswith (c +++ x) "/" = startswith c "/".
Proof. destruct c as [|ch c]; [contradiction|]. intros _. reflexivity. Qed.

Lemma join_slash_no_leading_slash l :
  Forall (fun c => c <> "" /\ has_slash c = false) l ->
  startswith (join_slash l) "/" = false.
Proof.
  intros H. destruct l as [|c r]; [reflexivity|].
  inversion H as [|? ? [Hc Hs] _]; subst.
  destruct r as [|c2 r]; [now apply startswith_no_slash|].
  change (join_slash (c :: c2 :: r)) with (c +++ "/" +++ join_slash (c2 :: r)).
  rewrite (startswith_append _ _ Hc). now apply startswith_no_slash.
Qed.

Lemma join_slash_inj a b :
  Forall (fun c => c <> "" /\ has_slash c = false) a ->
  Forall (fun c => c <> "" /\ has_slash c = false) b ->
  join_slash a = join_slash b -> a = b.
Proof.
  assert (Hnil : forall y l, Forall (fun c => c <> "" /\ has_slash c = false) (y :: l) ->
                             join_slash (y :: l) <> "").
  { intros y l H E. inversion H as [|? ? [Hy _] _]; subst. apply Hy.
    destruct l; simpl in E; [exact E|]. destruct y; [reflexivity | discriminate]. }
  assert (Hs : forall l, Forall (fun c => c <> "" /\ has_slash c = false) l ->
                         Forall (fun c => has_slash c = false) l).
  { intros l H. eapply Forall_impl; [|exact H]. now intros c [_ H']. }
  intros Ha Hb E.
  destruct a as [|x a], b as [|y b]; [reflexivity | | |].
  - exfalso. now apply (Hnil y b Hb).
  - exfalso. now apply (Hnil x a Ha).
  - apply (f_equal segments) in E.
    rewrite !segments_join_slash in E; auto; discriminate.
Qed.

(** Two absolute paths are the same string when they have the same
    leading slashes and the same components. *)
Lemma abspath_eq p q :
  OsPath.abspath p = OsPath.abspath q
  <-> OsPath.double_slash p = OsPath.double_slash q
      /\ OsPath.abspath_parts p = OsPath.abspath_parts q.
Proof.
  unfold OsPath.abspath. split.
  - intros E.
    pose proof (join_slash_no_leading_slash _ (abspath_parts_names p)) as Hp.
    pose proof (join_slash_no_leading_slash _ (abspath_parts_names q)) as Hq.
    destruct (OsPath.double_slash p), (OsPath.double_slash q); simpl in E;
      injection E as E.
    + split; [reflexivity|].
      apply join_slash_inj; auto using abspath_parts_names.
    + rewrite <- E in Hq. discriminate Hq.
    + rewrite E in Hp. discriminate Hp.
    + split; [reflexivity|].
      apply join_slash_inj; auto using abspath_parts_names.
  - now intros [-> ->].
Qed.

Lemma abspath_eqb p q :
  (OsPath.abspath p =? OsPath.abspath q)
  = Bool.eqb (OsPath.double_slash p) (OsPath.double_slash q)
    && Lib.same_parts (OsPath.abspath_parts p) (OsPath.abspath_parts q).
Proof.
  destruct (String.eqb_spec (OsPath.abspath p) (OsPath.abspath q)) as [E|E].
  - apply abspath_eq in E as [-> ->]. rewrite Bool.eqb_reflx.
    unfold Lib.same_parts. now destruct (list_eq_dec string_dec _ _).
  - symmetry. apply andb_false_iff.
    destruct (Bool.eqb _ _) eqn:E1; [|now left]. right.
    unfold Lib.same_parts. destruct (list_eq_dec string_dec _ _) as [E2|]; [|reflexivity].
    exfalso. apply E, abspath_eq. split; [now apply Bool.eqb_prop | exact E2].
Qed.

(** The paths of a walk keep the leading slashes of the top. *)
Lemma double_slash_join top name :
  top <> "" -> proper_name name = true ->
  OsPath.double_slash (OsPath.join top name) = OsPath.double_slash top.
Proof.
  intros Hne Hp. apply proper_name_spec in Hp as (_ & _ & _ & Hs).
  pose proof (startswith_no_slash _ Hs) as Hn.
  unfold OsPath.join. rewrite Hn.
  destruct (String.eqb_spec top "") as [|_]; [contradiction|]. cbn [orb].
  unfold endswith, OsPath.double_slash, startswith in *.
  cbn [list_ascii_of_string] in Hn.
  destruct top as [|c1 [|c2 [|c3 r]]]; [contradiction | | |].
  - cbn [list_ascii_of_string prefixb rev app]. rewrite andb_true_r.
    destruct (Ascii.eqb "/" c1) eqn:E1;
      cbn [list_ascii_of_string prefixb rev app String.append andb negb];
      rewrite ?E1; [|reflexivity].
    destruct (list_ascii_of_string name) as [|b l']; [reflexivity|].
    cbn [prefixb] in Hn. rewrite andb_true_r in Hn. now rewrite Hn.
  - cbn [list_ascii_of_string prefixb rev app]. rewrite andb_true_r.
    destruct (Ascii.eqb "/" c2) eqn:E2;
      cbn [list_ascii_of_string prefixb rev app String.append andb negb];
      rewrite ?E2; [|now rewrite !andb_false_r].
    destruct (list_ascii_of_string name) as [|b l']; [reflexivity|].
    cbn [prefixb] in Hn. rewrite andb_true_r in Hn. now rewrite Hn.
  - match goal with |- context [if ?c then _ else _] => destruct c end;
      cbn [list_ascii_of_string prefixb rev app String.append]; reflexivity.
Qed.

End PathFacts.

(* ================================================================== *)
(** * Running the program *)

Module RunFacts.
Import Str FS StrFacts FSFacts PathFacts.

Lemma bind_Ok {A B} (m : M A) (k : A -> M B) w a w' :
  m w = (Ok a, w') -> bind m k w = k a w'.
Proof. unfold bind. now intros ->. Qed.

Lemma bind_Raise {A B} (m : M A) (k : A -> M B) w e w' :
  m w = (Raise e, w') -> bind m k w = (Raise e, w').
Proof. unfold bind. now intros ->. Qed.

Lemma bind_bind {A B D} (m : M A) (k : A -> M B) (k2 : B -> M D) w :
  bind (bind m k) k2 w = bind m (fun a => bind (k a) k2) w.
Proof. unfold bind. destruct (m w) as [[a|e] w']; reflexivity. Qed.

Lemma get_disk_run w : get_disk w = (Ok (disk w), w).
Proof. reflexivity. Qed.

Lemma validate_input_path_ok p w :
  Path_exists (disk w) p = true -> validate_input_path p w = (Ok tt, w).
Proof. unfold validate_input_path, bind, get_disk. now intros ->. Qed.

Lemma validate_input_path_missing p w :
  Path_exists (disk w) p = false -> validate_input_path p w = (Raise (PathNotFound p), w).
Proof. unfold validate_input_path, bind, get_disk. now intros ->. Qed.

Lemma validate_output_path_ok p w :
  Path_exists (disk w) p = false -> validate_output_path p w = (Ok tt, w).
Proof. unfold validate_output_path, bind, get_disk. now intros ->. Qed.

Lemma validate_output_path_taken p w :
  Path_exists (disk w) p = true ->
  validate_output_path p w = (Raise (OutputAlreadyExists p), w).
Proof. unfold validate_output_path, bind, get_disk. now intros ->. Qed.

(** *** What a computation raises and logs *)

Lemma behaves_bind {A B} P E (m : M A) (k : A -> M B) :
  behaves P E m -> (forall a, behaves P E (k a)) -> behaves P E (bind m k).
Proof.
  intros Hm Hk w. unfold bind. destruct (Hm w) as [Hr (es & Hc & HF)].
  destruct (m w) as [[a|e] w']; simpl in *.
  - destruct (Hk a w') as [Hr' (es' & Hc' & HF')]. split; [exact Hr'|].
    exists (es ++ es'). rewrite Hc', Hc, app_assoc.
    split; [reflexivity | now apply Forall_app].
  - split; [exact Hr | now exists es].
Qed.

Lemma behaves_weaken {A} (P P' : exn -> Prop) (E E' : event -> Prop) (m : M A) :
  (forall e, P e -> P' e) -> (forall e, E e -> E' e) ->
  behaves P E m -> behaves P' E' m.
Proof.
  intros HP HE Hm w. destruct (Hm w) as [Hr (es & Hc & HF)]. split.
  - destruct (fst (m w)); [exact I | now apply HP].
  - exists es. split; [exact Hc|]. revert HF. apply Forall_impl. exact HE.
Qed.

(** A computation that leaves the console alone. *)
Lemma behaves_silent {A} P E (m : M A) :
  (forall w, match fst (m w) with Ok _ => True | Raise e => P e end) ->
  (forall w, console (snd (m w)) = console w) ->
  behaves P E m.
Proof.
  intros H1 H2 w. split; [apply H1|].
  exists []. rewrite app_nil_r. split; [apply H2 | constructor].
Qed.

Lemma behaves_ret {A} P E (a : A) : behaves P E (ret a).
Proof. apply behaves_silent; intros w; [exact I | reflexivity]. Qed.

Lemma behaves_raise {A} (P : exn -> Prop) E e : P e -> behaves P E (raise (A := A) e).
Proof. intros H. apply behaves_silent; intros w; [exact H | reflexivity]. Qed.

Lemma behaves_get_disk P E : behaves P E get_disk.
Proof. apply behaves_silent; intros w; [exact I | reflexivity]. Qed.

Lemma behaves_logging_info P (E : event -> Prop) msg :
  E (LogInfo msg) -> behaves P E (logging_info msg).
Proof.
  intros H w. split; [exact I|]. exists [LogInfo msg]. split; [reflexivity | now constructor].
Qed.

Lemma library_only_bind {A B} (m : M A) (k : A -> M B) :
  library_only m -> (forall a, library_only (k a)) -> library_only (bind m k).
Proof. apply behaves_bind. Qed.

Lemma library_only_ret {A} (a : A) : library_only (ret a).
Proof. apply behaves_ret. Qed.

Lemma library_only_get_disk : library_only get_disk.
Proof. apply behaves_get_disk. Qed.

Lemma library_only_set_disk t : library_only (set_disk t).
Proof. apply behaves_silent; intros w; [exact I | reflexivity]. Qed.

Lemma library_only_lift {A} (r : result A) :
  match r with Ok _ => True | Raise e => library_exn e end ->
  library_only (lift_result r).
Proof. intros H. apply behaves_silent; intros w; [exact H | reflexivity]. Qed.

Lemma library_only_read_all p : library_only (Lib.read_all p).
Proof.
  unfold Lib.read_all.
  apply library_only_bind; [apply library_only_get_disk | intros t].
  apply library_only_lift. unfold read_file.
  destruct (locate t p); [|exact I].
  destruct (node_at t l) as [[?|?]|]; exact I.
Qed.

Lemma library_only_write_all p d : library_only (Lib.write_all p d).
Proof.
  unfold Lib.write_all.
  apply library_only_bind; [apply library_only_get_disk | intros t].
  apply library_only_bind; [|intros t'; apply library_only_set_disk].
  apply library_only_lift. unfold write_file.
  destruct (locate t p); [|exact I].
  destruct (node_at t l) as [[?|?]|]; try exact I;
    destruct (put_at t l (File d)); exact I.
Qed.

Lemma library_only_raise {A} e : library_exn e -> library_only (raise (A := A) e).
Proof. apply behaves_raise. Qed.

Lemma library_only_for_each {A B} (l : list A) (body : B -> A -> M B) :
  (forall acc x, library_only (body acc x)) ->
  forall acc, library_only (for_each l acc body).
Proof.
  intros Hb. induction l as [|x l IH]; intros acc; simpl.
  - apply library_only_ret.
  - apply library_only_bind; [apply Hb | intros a; apply IH].
Qed.

Lemma library_only_copy_decoded decode src dst : library_only (Lib.copy_decoded decode src dst).
Proof.
  unfold Lib.copy_decoded, Lib.create.
  apply library_only_bind; [apply library_only_read_all | intros raw].
  apply library_only_bind; [apply library_only_write_all | intros _].
  destruct (decode raw); [apply library_only_write_all | now apply library_only_raise].
Qed.

Lemma library_only_extract_member path m : library_only (Lib.extract_member path m).
Proof.
  unfold Lib.extract_member.
  apply library_only_bind; [apply library_only_get_disk | intros t].
  destruct m as [n d|n].
  - destruct (makedirs t [] _); [|now apply library_only_raise].
    apply library_only_bind; [apply library_only_set_disk | intros _].
    apply library_only_write_all.
  - destruct (makedirs t [] _); [apply library_only_set_disk | now apply library_only_raise].
Qed.

Lemma library_only_extractall unpack src path : library_only (Lib.extractall unpack src path).
Proof.
  unfold Lib.extractall.
  apply library_only_bind; [apply library_only_read_all | intros raw].
  destruct (unpack raw); [|now apply library_only_raise].
  apply library_only_for_each. intros _ m. apply library_only_extract_member.
Qed.

Lemma library_only_archive_open p : library_only (Lib.archive_open p).
Proof.
  unfold Lib.archive_open, Lib.create.
  apply library_only_bind; [apply library_only_write_all | intros _; apply library_only_ret].
Qed.

Lemma library_only_tar_add u a name arcname : library_only (Lib.tar_add u a name arcname).
Proof.
  unfold Lib.tar_add. destruct (_ =? _); [apply library_only_ret|].
  apply library_only_bind; [apply library_only_get_disk | intros t].
  destruct (locate t name); [|now apply library_only_raise].
  destruct (node_at t l); [|now apply library_only_raise].
  destruct (Lib.own_file a t l); apply library_only_ret.
Qed.

Lemma library_only_zip_write u a name arcname : library_only (Lib.zip_write u a name arcname).
Proof.
  unfold Lib.zip_write.
  apply library_only_bind; [apply library_only_get_disk | intros t].
  destruct (locate t name); [|now apply library_only_raise].
  destruct (node_at t l) as [[d|es]|];
    [|apply library_only_ret | now apply library_only_raise].
  destruct (Lib.own_file a t l); [|apply library_only_ret].
  destruct (u _); [apply library_only_ret | now apply library_only_raise].
Qed.

Lemma library_only_append_file p d : library_only (Lib.append_file p d).
Proof.
  unfold Lib.append_file.
  apply library_only_bind; [apply library_only_read_all | intros old].
  apply library_only_write_all.
Qed.

Lemma library_only_buffered_write size p buf d :
  library_only (Lib.buffered_write size p buf d).
Proof.
  unfold Lib.buffered_write. destruct (_ <=? _)%nat; [apply library_only_ret|].
  apply library_only_bind; [apply library_only_append_file | intros _].
  destruct (_ <? _)%nat; [|apply library_only_ret].
  apply library_only_bind; [apply library_only_append_file | intros _].
  apply library_only_ret.
Qed.

Lemma library_only_walk {B} (step : B -> string -> M B) l :
  (forall acc fp, library_only (step acc fp)) ->
  forall acc, library_only (for_each l acc (walk_body step)).
Proof.
  intros Hs. apply library_only_for_each. intros acc [[root dirs] files].
  apply library_only_for_each. intros acc' file. apply Hs.
Qed.

(** The four messages never coincide. *)
Lemma messages_distinct (a b c d : string) :
  PathNotFound a <> OutputAlreadyExists b
  /\ PathNotFound a <> UnsupportedFormat c
  /\ PathNotFound a <> UnsupportedFormatForDirectories d
  /\ OutputAlreadyExists b <> UnsupportedFormat c
  /\ OutputAlreadyExists b <> UnsupportedFormatForDirectories d
  /\ UnsupportedFormat c <> UnsupportedFormatForDirectories d.
Proof.
  unfold PathNotFound, OutputAlreadyExists, UnsupportedFormat,
    UnsupportedFormatForDirectories.
  repeat split; intros H; injection H as H; simpl in H; discriminate.
Qed.

(** The two path checks, taken together. *)
Lemma run_missing_input C c w :
  Path_exists (disk w) (call_input c) = false ->
  run C c w = (Raise (PathNotFound (call_input c)), w).
Proof.
  intros H. destruct c; simpl in *;
    unfold compress_file, compress_directory, decompress;
    apply bind_Raise; now apply validate_input_path_missing.
Qed.

Lemma run_taken_output C c w :
  Path_exists (disk w) (call_input c) = true ->
  Path_exists (disk w) (call_output c) = true ->
  run C c w = (Raise (OutputAlreadyExists (call_output c)), w).
Proof.
  intros Hi Ho. destruct c; simpl in *;
    unfold compress_file, compress_directory, decompress;
    rewrite (bind_Ok _ _ _ _ _ (validate_input_path_ok _ _ Hi));
    apply bind_Raise; now apply validate_output_path_taken.
Qed.

Lemma not_in_cons {A} (x a : A) l : ~ In x (a :: l) -> x <> a /\ ~ In x l.
Proof. simpl. intuition congruence. Qed.

Lemma compress_directory_unsupported C i o f v w :
  Path_exists (disk w) i = true -> Path_exists (disk w) o = false ->
  ~ In f ["tar"; "zip"; "zst"] ->
  compress_directory C i o f v w
  = (Raise (UnsupportedFormatForDirectories f),
     logged w ("Compressing directory: " +++ i +++ " to " +++ o
               +++ " with format " +++ f)).
Proof.
  intros Hi Ho Hf. unfold compress_directory.
  rewrite (bind_Ok _ _ _ _ _ (validate_input_path_ok _ _ Hi)).
  rewrite (bind_Ok _ _ _ _ _ (validate_output_path_ok _ _ Ho)).
  apply not_in_cons in Hf as [H1 Hf]. apply not_in_cons in Hf as [H2 Hf].
  apply not_in_cons in Hf as [H3 _].
  apply String.eqb_neq in H1, H2, H3. rewrite H1, H2, H3.
  reflexivity.
Qed.

Lemma known_suffix_false i :
  known_suffix i = false ->
  endswith i ".gz" = false /\ endswith i ".xz" = false /\ endswith i ".bz2" = false
  /\ endswith i ".zip" = false /\ endswith i ".tar" = false /\ endswith i ".zst" = false.
Proof.
  unfold known_suffix, known_suffixes. cbn [existsb].
  rewrite !orb_false_iff. tauto.
Qed.

Lemma decompress_unsupported C i o v w :
  Path_exists (disk w) i = true -> Path_exists (disk w) o = false ->
  known_suffix i = false ->
  decompress C i o v w
  = (Raise (UnsupportedFormat i),
     logged w ("Decompressing file: " +++ i +++ " to " +++ o)).
Proof.
  intros Hi Ho Hs. unfold decompress.
  rewrite (bind_Ok _ _ _ _ _ (validate_input_path_ok _ _ Hi)).
  rewrite (bind_Ok _ _ _ _ _ (validate_output_path_ok _ _ Ho)).
  apply known_suffix_false in Hs as (H1 & H2 & H3 & H4 & H5 & H6).
  rewrite H1, H2, H3, H4, H5, H6. reflexivity.
Qed.


(** *** What a call raises and logs *)

Lemma validate_input_path_behaves p E :
  behaves (fun e => e = PathNotFound p) E (validate_input_path p).
Proof.
  apply behaves_silent; intros w; unfold validate_input_path, bind, get_disk;
    destruct (Path_exists (disk w) p); simpl; auto.
Qed.

Lemma validate_output_path_behaves p E :
  behaves (fun e => e = OutputAlreadyExists p) E (validate_output_path p).
Proof.
  apply behaves_silent; intros w; unfold validate_output_path, bind, get_disk;
    destruct (Path_exists (disk w) p); simpl; auto.
Qed.

(** A call raises nothing of the program's own but its domain errors,
    whatever else it raises comes from a library, and it logs nothing
    but its two lines. *)
Lemma run_behaves C c :
  behaves (fun e => library_exn e \/ In e (domain_errors c))
          (fun ev => In ev (call_log c)) (run C c).
Proof.
  set (Q := fun e => library_exn e \/ In e (domain_errors c)).
  set (E := fun ev => In ev (call_log c)).
  assert (Hlib : forall A (m : M A), library_only m -> behaves Q E m).
  { intros A m. apply behaves_weaken; [intros e He; now left | intros e []]. }
  assert (Hin : behaves Q E (validate_input_path (call_input c))).
  { apply (behaves_weaken (fun e => e = PathNotFound (call_input c)) Q E E);
      [|auto | apply validate_input_path_behaves].
    intros e ->. right. simpl. auto. }
  assert (Hout : behaves Q E (validate_output_path (call_output c))).
  { apply (behaves_weaken (fun e => e = OutputAlreadyExists (call_output c)) Q E E);
      [|auto | apply validate_output_path_behaves].
    intros e ->. right. simpl. auto. }
  assert (Hfmt : forall A, behaves Q E (raise (A := A) (UnsupportedFormat (call_subject c)))).
  { intros A. apply behaves_raise. right. simpl. auto. }
  assert (Hdir : forall A,
            behaves Q E (raise (A := A) (UnsupportedFormatForDirectories (call_subject c)))).
  { intros A. apply behaves_raise. right. simpl. auto. }
  destruct c as [i o f l v | i o f v | i o v];
    cbn [run call_input call_output call_subject] in *.
  - unfold compress_file.
    apply behaves_bind; [exact Hin | intros _].
    apply behaves_bind; [exact Hout | intros _].
    apply behaves_bind; [apply behaves_logging_info; now left | intros _].
    apply behaves_bind; [apply Hlib, library_only_read_all | intros data].
    apply behaves_bind; [|intros _; apply behaves_logging_info; right; now left].
    destruct (f =? "gz"); [apply Hlib, library_only_write_all|].
    destruct (f =? "xz"); [apply Hlib, library_only_write_all|].
    destruct (f =? "bz2"); [apply Hlib, library_only_write_all|].
    destruct (f =? "zip").
    { apply Hlib. apply library_only_bind; [apply library_only_archive_open | intros a].
      apply library_only_bind; [apply library_only_zip_write | intros a'].
      apply library_only_write_all. }
    destruct (f =? "tar").
    { apply Hlib. apply library_only_bind; [apply library_only_archive_open | intros a].
      apply library_only_bind; [apply library_only_tar_add | intros a'].
      apply library_only_write_all. }
    destruct (f =? "zst"); [apply Hlib, library_only_write_all | apply Hfmt].
  - unfold compress_directory.
    apply behaves_bind; [exact Hin | intros _].
    apply behaves_bind; [exact Hout | intros _].
    apply behaves_bind; [apply behaves_logging_info; now left | intros _].
    apply behaves_bind; [|intros _; apply behaves_logging_info; right; now left].
    destruct (f =? "tar").
    { apply Hlib. apply library_only_bind; [apply library_only_archive_open | intros a].
      apply library_only_bind; [apply library_only_get_disk | intros t].
      apply library_only_bind; [|intros a'; apply library_only_write_all].
      apply (library_only_walk
               (fun a fp => Lib.tar_add (tar_unfinished C) a fp (OsPath.relpath fp i))).
      intros acc fp. apply library_only_tar_add. }
    destruct (f =? "zip").
    { apply Hlib. apply library_only_bind; [apply library_only_archive_open | intros a].
      apply library_only_bind; [apply library_only_get_disk | intros t].
      apply library_only_bind; [|intros a'; apply library_only_write_all].
      apply (library_only_walk
               (fun a fp => Lib.zip_write (zip_unfinished C None) a fp (OsPath.relpath fp i))).
      intros acc fp. apply library_only_zip_write. }
    destruct (f =? "zst"); [|apply Hdir].
    apply Hlib. apply library_only_bind; [apply library_only_write_all | intros _].
    apply library_only_bind; [apply library_only_get_disk | intros t].
    apply library_only_bind; [|intros a'; apply library_only_append_file].
    apply (library_only_walk
             (fun (acc : bytes) fp =>
                data <- Lib.read_all fp ;;
                Lib.buffered_write (open_buffer_size C) o acc data)).
    intros acc fp. apply library_only_bind; [apply library_only_read_all | intros d].
    apply library_only_buffered_write.
  - unfold decompress.
    apply behaves_bind; [exact Hin | intros _].
    apply behaves_bind; [exact Hout | intros _].
    apply behaves_bind; [apply behaves_logging_info; now left | intros _].
    apply behaves_bind; [|intros _; apply behaves_logging_info; right; now left].
    destruct (endswith i ".gz"); [apply Hlib, library_only_copy_decoded|].
    destruct (endswith i ".xz"); [apply Hlib, library_only_copy_decoded|].
    destruct (endswith i ".bz2"); [apply Hlib, library_only_copy_decoded|].
    destruct (endswith i ".zip"); [apply Hlib, library_only_extractall|].
    destruct (endswith i ".tar"); [apply Hlib, library_only_extractall|].
    destruct (endswith i ".zst"); [apply Hlib, library_only_copy_decoded | apply Hfmt].
Qed.

Lemma existsb_none {A} (f : A -> bool) l : Forall (fun x => f x = false) l -> existsb f l = false.
Proof. induction 1 as [|x l Hx _ IH]; simpl; [reflexivity | now rewrite Hx]. Qed.

(** What [finish] adds to the console shows no operation. *)
Lemma finish_console r :
  exists es, console (snd (finish r)) = console (snd r) ++ es
             /\ Forall (fun ev => shows_compress ev = false /\ shows_decompress ev = false) es.
Proof.
  destruct r as [[u|e] w].
  - exists []. simpl. rewrite app_nil_r. split; [reflexivity | constructor].
  - destruct e; eexists; (split; [reflexivity|]); repeat constructor.
Qed.

(** One call shows on the console as one operation. *)
Lemma call_shows_one_operation C c w :
  exists es, console (snd (finish (run C c w))) = console w ++ es
             /\ (is_compress_call c -> existsb shows_decompress es = false)
             /\ (~ is_compress_call c -> existsb shows_compress es = false).
Proof.
  destruct (run_behaves C c w) as [_ (es1 & Hc1 & HF1)].
  destruct (finish_console (run C c w)) as (es2 & Hc2 & HF2).
  exists (es1 ++ es2). rewrite Hc2, Hc1, app_assoc. split; [reflexivity|].
  split; intros Hk; apply existsb_none, Forall_app; split;
    try (revert HF2; apply Forall_impl; tauto);
    revert HF1; apply Forall_impl; intros ev Hev;
    destruct c; simpl in Hk, Hev; try tauto;
    destruct Hev as [<-|[<-|[]]]; reflexivity.
Qed.

End RunFacts.

(* ================================================================== *)
(** * The checksum loop *)

Module ChecksumFacts.
Import RunFacts.

Lemma chunk_size_pos : 0 < chunk_size.
Proof. unfold chunk_size. lia. Qed.

Lemma firstn_nil_inv {A} n (l : list A) : 0 < n -> firstn n l = [] -> l = [].
Proof. destruct n; [lia|]. destruct l; [reflexivity | discriminate]. Qed.

Lemma chunked_head c cs : chunked (c :: cs) -> c <> [].
Proof.
  inversion 1; subst; [assumption|].
  pose proof chunk_size_pos. intros ->. simpl in *. lia.
Qed.

(** With more rounds than bytes, the loop ends, and it has fed the file
    to the hash chunk by chunk. *)
Lemma read_chunks_enough (H : HashAlgo) (fuel : nat) : forall (f : bytes) (h : hash_state H),
  length f < fuel ->
  exists cs, concat cs = f /\ chunked cs
             /\ read_chunks H fuel f h = Some (fold_left (hash_update H) cs h).
Proof.
  induction fuel as [|fuel IH]; intros f h Hlen; [lia|].
  cbn [read_chunks].
  destruct (firstn chunk_size f) as [|b chunk] eqn:E.
  - apply (firstn_nil_inv _ _ chunk_size_pos) in E. subst f.
    exists []. repeat split. constructor.
  - assert (Hf : f <> []) by (intros ->; now rewrite firstn_nil in E).
    assert (Hshort : length (skipn chunk_size f) < fuel).
    { rewrite length_skipn. pose proof chunk_size_pos.
      destruct f; [congruence | simpl in *; lia]. }
    destruct (IH (skipn chunk_size f) (hash_update H h (b :: chunk)) Hshort)
      as (cs & Hcat & Hch & Hrun).
    exists ((b :: chunk) :: cs). split; [|split].
    + cbn [concat]. rewrite Hcat, <- E. apply firstn_skipn.
    + destruct cs as [|c2 cs2].
      * constructor; [discriminate|]. rewrite <- E, length_firstn. lia.
      * apply chunked_cons; [|discriminate | exact Hch].
        rewrite <- E, length_firstn.
        destruct (Nat.le_gt_cases chunk_size (length f)) as [Hle|Hgt]; [lia|].
        exfalso. rewrite skipn_all2 in Hcat by lia.
        apply chunked_head in Hch. cbn [concat] in Hcat.
        now apply app_eq_nil in Hcat as [-> _].
    + exact Hrun.
Qed.

(** A streaming hash fed chunk by chunk has seen the concatenation. *)
Lemma fold_update_concat (H : HashAlgo) (Hs : streaming H) (cs : list bytes) :
  forall h, fold_left (hash_update H) cs h = hash_update H h (concat cs).
Proof.
  destruct Hs as [Hnil Happ].
  induction cs as [|c cs IH]; intros h; simpl; [now rewrite Hnil|].
  now rewrite IH, Happ.
Qed.

Lemma sha256_streaming : streaming Sha256.algo.
Proof.
  split; [reflexivity|].
  intros s a b. simpl. unfold Sha256.update. now rewrite fold_left_app.
Qed.

Lemma hex_digit_lowercase z :
  existsb (Ascii.eqb (Sha256.hex_digit z)) (list_ascii_of_string "0123456789abcdef") = true.
Proof.
  apply existsb_exists. exists (Sha256.hex_digit z). split; [|apply Ascii.eqb_refl].
  unfold Sha256.hex_digit.
  destruct (nth_in_or_default (Z.to_nat z) (list_ascii_of_string "0123456789abcdef") "0"%char)
    as [Hin | ->]; [exact Hin | now left].
Qed.

Lemma hex_of_lowercase digits : forall z acc,
  lowercase_hex acc = true -> lowercase_hex (Sha256.hex_of digits z acc) = true.
Proof.
  induction digits as [|d IH]; intros z acc Hacc; [exact Hacc|].
  cbn [Sha256.hex_of]. apply IH.
  unfold lowercase_hex in *. cbn [list_ascii_of_string forallb].
  now rewrite hex_digit_lowercase.
Qed.

(** Whatever went into the object, the digest is in lowercase hex. *)
Lemma sha256_hexdigest_lowercase s : lowercase_hex (Sha256.hexdigest s) = true.
Proof.
  unfold Sha256.hexdigest.
  induction (Sha256.chain (fold_left Sha256.push (Sha256.padding s) s)) as [|x l IH];
    [reflexivity|].
  cbn [fold_right]. now apply hex_of_lowercase.
Qed.

Lemma calculate_checksum_chunks hashlib H w p alg f :
  hashlib alg = Some H -> FS.read_file (disk w) p = Ok f ->
  exists cs, concat cs = f /\ chunked cs
    /\ calculate_checksum hashlib p alg w
       = (Ok (hash_hexdigest H (fold_left (hash_update H) cs (hash_new H))), w).
Proof.
  intros Ha Hr.
  destruct (read_chunks_enough H (S (length f)) f (hash_new H)) as (cs & Hc & Hch & Hrun);
    [lia|].
  exists cs. repeat split; auto.
  unfold calculate_checksum. rewrite Ha.
  unfold Lib.read_all, bind, get_disk, lift_result. rewrite Hr, Hrun. reflexivity.
Qed.

End ChecksumFacts.

(* ================================================================== *)
(** * Single files: what [compress_file] writes and [decompress] reads *)

Module FileFacts.
Import Str FS StrFacts FSFacts PathFacts RunFacts.

Lemma read_all_run p w : Lib.read_all p w = (read_file (disk w) p, w).
Proof. reflexivity. Qed.

Lemma read_all_ok p w d : read_file (disk w) p = Ok d -> Lib.read_all p w = (Ok d, w).
Proof. intros H. now rewrite read_all_run, H. Qed.

Lemma write_all_run p d w t' :
  write_file (disk w) p d = Ok t' -> Lib.write_all p d w = (Ok tt, with_disk w t').
Proof. intros H. unfold Lib.write_all, bind, get_disk, lift_result. now rewrite H. Qed.

Lemma logging_info_run msg w : logging_info msg w = (Ok tt, logged w msg).
Proof. reflexivity. Qed.

(** Writing to a fresh path succeeds and can be read back. *)
Lemma write_all_fresh p d w :
  creatable (disk w) p ->
  exists t', write_file (disk w) p d = Ok t'
             /\ Lib.write_all p d w = (Ok tt, with_disk w t').
Proof.
  intros (l & Hl & Hn). destruct (write_file_fresh _ _ _ d Hl Hn) as (t' & Hw & _).
  exists t'. split; [exact Hw | now apply write_all_run].
Qed.

(** An archive object opened on a fresh path: the file is created, and
    the regular files of the disk are still there. *)
Lemma archive_open_fresh o w :
  creatable (disk w) o ->
  exists t1 lo,
    locate (disk w) o = Some lo /\ node_at (disk w) lo = None
    /\ write_file (disk w) o [] = Ok t1
    /\ Lib.archive_open o w
       = (Ok {| Lib.arc_name := OsPath.abspath o; Lib.arc_file := o;
                Lib.arc_members := [] |}, with_disk w t1).
Proof.
  intros Hc. destruct (write_all_fresh o [] w Hc) as (t1 & Hw & Hrun).
  destruct Hc as (lo & Hlo & Hn). exists t1, lo. repeat split; auto.
  unfold Lib.archive_open, Lib.create. now rewrite (bind_Ok _ _ _ _ _ Hrun).
Qed.

Lemma same_parts_false a b : a <> b -> Lib.same_parts a b = false.
Proof. unfold Lib.same_parts. now destruct (list_eq_dec string_dec a b). Qed.

Lemma same_parts_refl a : Lib.same_parts a a = true.
Proof. unfold Lib.same_parts. now destruct (list_eq_dec string_dec a a). Qed.

(** An archive object that was opened on the path [o]. *)
Lemma opened_add_members a o ms :
  Lib.arc_name a = OsPath.abspath o /\ Lib.arc_file a = o ->
  Lib.arc_name (Lib.add_members a ms) = OsPath.abspath o
  /\ Lib.arc_file (Lib.add_members a ms) = o.
Proof. now intros [H1 H2]. Qed.

(** The name of a file that lies elsewhere than the archive is not the
    name of the archive, and the file is not the archive's own. *)
Lemma elsewhere t a o name l lo :
  Lib.arc_name a = OsPath.abspath o /\ Lib.arc_file a = o ->
  locate t name = Some l -> locate t o = Some lo -> l <> lo ->
  (OsPath.abspath name =? Lib.arc_name a) = false /\ Lib.own_file a t l = false.
Proof.
  intros [Hname Hfile] Hl Hlo Hne. split.
  - rewrite Hname, abspath_eqb, (abspath_locate _ _ _ Hl), (abspath_locate _ _ _ Hlo).
    rewrite (same_parts_false _ _ Hne). apply andb_false_r.
  - unfold Lib.own_file. rewrite Hfile, Hlo. now apply same_parts_false.
Qed.

(** Adding a regular file that lies elsewhere than the archive. *)
Lemma tar_add_file u a o name arcname w l lo d :
  Lib.arc_name a = OsPath.abspath o /\ Lib.arc_file a = o ->
  locate (disk w) name = Some l -> node_at (disk w) l = Some (File d) ->
  locate (disk w) o = Some lo -> l <> lo ->
  Lib.tar_add u a name arcname w = (Ok (Lib.add_members a [RegFile arcname d]), w).
Proof.
  intros Ha Hl Hn Hlo Hne. unfold Lib.tar_add.
  destruct (elsewhere _ _ _ _ _ _ Ha Hl Hlo Hne) as [-> Hown].
  unfold bind, get_disk. now rewrite Hl, Hn, Hown.
Qed.

Lemma zip_write_file u a o name arcname w l lo d :
  Lib.arc_name a = OsPath.abspath o /\ Lib.arc_file a = o ->
  locate (disk w) name = Some l -> node_at (disk w) l = Some (File d) ->
  locate (disk w) o = Some lo -> l <> lo ->
  Lib.zip_write u a name arcname w = (Ok (Lib.add_members a [RegFile arcname d]), w).
Proof.
  intros Ha Hl Hn Hlo Hne. unfold Lib.zip_write, bind, get_disk.
  destruct (elsewhere _ _ _ _ _ _ Ha Hl Hlo Hne) as [_ Hown].
  now rewrite Hl, Hn, Hown.
Qed.

(** [compress_file] on a readable file and a fresh output path: it
    succeeds, and the output holds the artifact of the format. *)
Lemma compress_file_artifact C i o f l v w data :
  In f format_tags -> read_file (disk w) i = Ok data -> creatable (disk w) o ->
  exists w1, compress_file C i o f l v w = (Ok tt, w1)
             /\ read_file (disk w1) o = Ok (artifact C f l i data).
Proof.
  intros Hf Hr Hc. unfold compress_file.
  rewrite (bind_Ok _ _ _ _ _ (validate_input_path_ok _ _ (readable_exists _ _ _ Hr))).
  rewrite (bind_Ok _ _ _ _ _ (validate_output_path_ok _ _ (creatable_not_exists _ _ Hc))).
  rewrite (bind_Ok _ _ _ _ _ (logging_info_run _ w)).
  set (w0 := logged w _).
  change (disk w) with (disk w0) in Hr, Hc.
  rewrite (bind_Ok _ _ _ _ _ (read_all_ok _ _ _ Hr)).
  clearbody w0.
  assert (Hstream : forall payload,
    exists w1,
      bind (Lib.write_all o payload) (fun _ => logging_info "Compression complete") w0
      = (Ok tt, w1) /\ read_file (disk w1) o = Ok payload).
  { intros payload. destruct (write_all_fresh o payload w0 Hc) as (t' & Hw & Hrun).
    eexists. rewrite (bind_Ok _ _ _ _ _ Hrun). split; [reflexivity|].
    simpl. now apply read_after_write in Hw. }
  assert (Harchive : forall (pack : list member -> bytes) (add : Lib.archive -> string -> string -> M Lib.archive),
    (forall a w' l lo d,
        Lib.arc_name a = OsPath.abspath o /\ Lib.arc_file a = o ->
        locate (disk w') i = Some l -> node_at (disk w') l = Some (File d) ->
        locate (disk w') o = Some lo -> l <> lo ->
        add a i (OsPath.basename i) w'
        = (Ok (Lib.add_members a [RegFile (OsPath.basename i) d]), w')) ->
    exists w1,
      bind (bind (Lib.archive_open o) (fun a =>
              bind (add a i (OsPath.basename i)) (fun a =>
                Lib.write_all o (pack (Lib.arc_members a)))))
           (fun _ => logging_info "Compression complete") w0
      = (Ok tt, w1)
      /\ read_file (disk w1) o = Ok (pack [RegFile (OsPath.basename i) data])).
  { intros pack add Hadd.
    destruct (archive_open_fresh o w0 Hc) as (t1 & lo & Hlo & Hno & Hw1 & Hopen).
    pose proof (read_kept_by_create _ _ _ _ _ _ Hc Hw1 Hr) as Hr1.
    apply read_file_Ok in Hr1 as (li & Hli & Hni).
    assert (Hne : li <> lo).
    { intros ->. apply read_file_Ok in Hr as (li' & Hli' & Hni').
      rewrite (locate_after_write _ _ _ _ i Hw1) in Hli.
      assert (li' = lo) by congruence. subst. congruence. }
    destruct (write_again _ _ _ _ (pack [RegFile (OsPath.basename i) data]) Hw1)
      as (t2 & Hw2).
    eexists. unfold bind at 1. unfold bind at 1. rewrite Hopen.
    unfold bind at 1.
    assert (Hlo1 : locate t1 o = Some lo)
      by now rewrite (locate_after_write _ _ _ _ o Hw1).
    rewrite (Hadd {| Lib.arc_name := OsPath.abspath o; Lib.arc_file := o;
                     Lib.arc_members := [] |}
                  (with_disk w0 t1) li lo data (conj eq_refl eq_refl) Hli Hni Hlo1 Hne).
    cbn [Lib.add_members Lib.arc_members app].
    rewrite (write_all_run _ _ (with_disk w0 t1) t2 Hw2).
    split; [reflexivity|]. simpl. now apply read_after_write in Hw2. }
  unfold artifact.
  destruct (String.eqb_spec f "gz") as [->|H1]; [apply Hstream|].
  destruct (String.eqb_spec f "xz") as [->|H2]; [apply Hstream|].
  destruct (String.eqb_spec f "bz2") as [->|H3]; [apply Hstream|].
  destruct (String.eqb_spec f "zip") as [->|H4].
  { apply (Harchive (zip_pack C (Some l)) (Lib.zip_write (zip_unfinished C (Some l)))).
    intros a w' l' lo d Ha Hl Hn Hlo Hne. now apply (zip_write_file _ a o _ _ w' l' lo d). }
  destruct (String.eqb_spec f "tar") as [->|H5].
  { apply (Harchive (tar_pack C) (Lib.tar_add (tar_unfinished C))).
    intros a w' l' lo d Ha Hl Hn Hlo Hne. now apply (tar_add_file _ a o _ _ w' l' lo d). }
  destruct (String.eqb_spec f "zst") as [->|H6]; [apply Hstream|].
  exfalso. unfold format_tags in Hf. simpl in Hf. intuition congruence.
Qed.

(** A path that can be created does not end in a slash. *)
Lemma creatable_no_trailing_slash t p : creatable t p -> endswith p "/" = false.
Proof.
  intros (l & Hl & Hn). destruct (endswith p "/") eqn:E; [|reflexivity].
  apply endswith_spec in E as [q ->].
  apply locate_Some in Hl as [_ Hl]. rewrite segments_trailing_slash in Hl.
  destruct (resolve_last _ _ _ _ _ Hl (node_at_None_not_dir _ _ Hn))
    as (h & _ & _ & _ & Hs & _).
  congruence.
Qed.

Lemma creatable_nonempty t p : creatable t p -> p <> "".
Proof. intros (l & Hl & _). now apply locate_Some in Hl. Qed.

Lemma append_nonempty a b : a <> "" -> a +++ b <> "".
Proof. destruct a; [congruence | discriminate]. Qed.

(** Joining a proper name to a path that can be created. *)
Lemma join_creatable t o name :
  creatable t o -> proper_name name = true ->
  OsPath.join o name = o +++ "/" +++ name
  /\ segments (OsPath.join o name) = segments o ++ [name].
Proof.
  intros Hc Hp. apply proper_name_spec in Hp as (_ & _ & _ & Hs).
  assert (E : OsPath.join o name = o +++ "/" +++ name).
  { unfold OsPath.join.
    rewrite (startswith_no_slash _ Hs), (creatable_no_trailing_slash _ _ Hc).
    destruct (String.eqb_spec o ""); [now apply creatable_nonempty in Hc | reflexivity]. }
  split; [exact E|].
  now rewrite E, segments_app_slash, (segments_no_slash _ Hs).
Qed.

(** Extracting a regular file into a directory that does not exist yet:
    the directory is made and the file is written below it. *)
Lemma extract_member_file o name data w :
  creatable (disk w) o -> proper_name name = true ->
  exists w', Lib.extract_member o (RegFile name data) w = (Ok tt, w')
             /\ read_file (disk w') (OsPath.join o name) = Ok data.
Proof.
  intros Hc Hp.
  destruct (join_creatable _ _ _ Hc Hp) as [Ejoin Esegs].
  pose proof (creatable_nonempty _ _ Hc) as Hne.
  destruct Hc as (lo & Hlo & Hno).
  pose proof (proper_name_spec _ Hp) as (N1 & N2 & N3 & _).
  (* the directory *)
  pose proof Hlo as Hres. apply locate_Some in Hres as [_ Hres].
  pose proof Hres as Hres'. rewrite segments_split_last in Hres'.
  destruct (resolve_last _ _ _ _ _ Hres' (node_at_None_not_dir _ _ Hno))
    as (h & Hh & Hhd & -> & B1 & B2 & B3).
  pose proof (makedirs_last _ _ _ _ _ Hh Hhd B1 B2 B3 Hno) as Hmk.
  rewrite <- segments_split_last in Hmk.
  destruct (put_at_child (disk w) h (OsPath.basename o) (Dir []) Hhd) as [t1 Hput].
  rewrite Hput in Hmk.
  (* the file *)
  assert (Hlo1 : resolve t1 [] (segments o) = Some (h ++ [OsPath.basename o])).
  { apply (resolve_mono (disk w)); [|exact Hres].
    intros l'. apply (is_dir_at_put_mono _ _ _ _ _ Hput Hno). }
  assert (Hd1 : is_dir_at t1 (h ++ [OsPath.basename o]) = true).
  { unfold is_dir_at. now rewrite (node_at_put_same _ _ _ _ Hput). }
  assert (Hl1 : locate t1 (OsPath.join o name)
                = Some ((h ++ [OsPath.basename o]) ++ [name])).
  { unfold locate. rewrite Esegs.
    destruct (String.eqb_spec (OsPath.join o name) "") as [E|_].
    { rewrite Ejoin in E. now apply append_nonempty in E. }
    rewrite resolve_app, Hlo1. now apply resolve_step_name. }
  assert (Hn1 : node_at t1 ((h ++ [OsPath.basename o]) ++ [name]) = None).
  { rewrite node_at_app, (node_at_put_same _ _ _ _ Hput). reflexivity. }
  destruct (write_file_fresh _ _ _ data Hl1 Hn1) as (t2 & Hw & _).
  exists (with_disk (with_disk w t1) t2). split.
  - unfold Lib.extract_member. cbn [member_name].
    unfold bind at 1. unfold get_disk at 1.
    rewrite Esegs, removelast_last, Hmk.
    unfold bind at 1. unfold set_disk at 1.
    apply (write_all_run _ _ (with_disk w t1) t2 Hw).
  - simpl. now apply read_after_write in Hw.
Qed.

Lemma copy_decoded_run decode src dst w raw data :
  read_file (disk w) src = Ok raw -> creatable (disk w) dst ->
  decode raw = Some data ->
  exists w', Lib.copy_decoded decode src dst w = (Ok tt, w')
             /\ read_file (disk w') dst = Ok data.
Proof.
  intros Hr Hc Hd. unfold Lib.copy_decoded, Lib.create.
  rewrite (bind_Ok _ _ _ _ _ (read_all_ok _ _ _ Hr)).
  destruct (write_all_fresh dst [] w Hc) as (t1 & Hw1 & Hrun1).
  rewrite (bind_Ok _ _ _ _ _ Hrun1), Hd.
  destruct (write_again _ _ _ _ data Hw1) as (t2 & Hw2).
  exists (with_disk (with_disk w t1) t2). split.
  - apply (write_all_run _ _ (with_disk w t1) t2 Hw2).
  - simpl. now apply read_after_write in Hw2.
Qed.

Lemma extractall_single unpack src dst w raw name data :
  read_file (disk w) src = Ok raw -> creatable (disk w) dst ->
  unpack raw = Some [RegFile name data] -> proper_name name = true ->
  exists w', Lib.extractall unpack src dst w = (Ok tt, w')
             /\ read_file (disk w') (OsPath.join dst name) = Ok data.
Proof.
  intros Hr Hc Hu Hp. unfold Lib.extractall.
  rewrite (bind_Ok _ _ _ _ _ (read_all_ok _ _ _ Hr)), Hu.
  destruct (extract_member_file dst name data w Hc Hp) as (w' & Hrun & Hread).
  exists w'. split; [|exact Hread].
  cbn [for_each]. now rewrite (bind_Ok _ _ _ _ _ Hrun).
Qed.

(** A path with one of the six suffixes has none of the others. *)
Lemma suffix_exclusive a s1 s2 :
  endswith a s1 = true -> endswith s1 s2 = false -> endswith s2 s1 = false ->
  endswith a s2 = false.
Proof.
  intros H1 H12 H21. destruct (endswith a s2) eqn:E; [|reflexivity].
  destruct (endswith_comparable _ _ _ H1 E); congruence.
Qed.

(** [decompress] on an artifact of [compress_file] that carries the
    suffix of its format. *)
Lemma decompress_artifact C (L : CodecLaws C) a o f l v w i data :
  In f format_tags -> (1 <= l <= 9)%Z -> endswith a ("." +++ f) = true ->
  read_file (disk w) a = Ok (artifact C f l i data) ->
  proper_name (OsPath.basename i) = true -> creatable (disk w) o ->
  exists w2, decompress C a o v w = (Ok tt, w2)
             /\ read_file (disk w2) (recovered_path f i o) = Ok data.
Proof.
  intros Hf Hl Hs Hr Hp Hc. unfold decompress.
  rewrite (bind_Ok _ _ _ _ _ (validate_input_path_ok _ _ (readable_exists _ _ _ Hr))).
  rewrite (bind_Ok _ _ _ _ _ (validate_output_path_ok _ _ (creatable_not_exists _ _ Hc))).
  rewrite (bind_Ok _ _ _ _ _ (logging_info_run _ w)).
  set (w0 := logged w _). change (disk w) with (disk w0) in Hr, Hc. clearbody w0.
  assert (Hfin : forall (m : M unit) p,
    (exists w', m w0 = (Ok tt, w') /\ read_file (disk w') p = Ok data) ->
    exists w2, bind m (fun _ => logging_info "Decompression complete") w0 = (Ok tt, w2)
               /\ read_file (disk w2) p = Ok data).
  { intros m p (w' & Hm & Hread). eexists. rewrite (bind_Ok _ _ _ _ _ Hm).
    split; [reflexivity | exact Hread]. }
  unfold format_tags in Hf. simpl in Hf.
  destruct Hf as [<-|[<-|[<-|[<-|[<-|[<-|[]]]]]]];
    unfold artifact, recovered_path in *;
    cbn [String.eqb Ascii.eqb Bool.eqb orb append] in *;
    repeat match goal with
    | |- context [endswith a ?s] =>
        first [ rewrite Hs
              | rewrite (suffix_exclusive a _ s Hs eq_refl eq_refl) ]
    end;
    apply Hfin.
  - apply (copy_decoded_run _ _ _ _ _ _ Hr Hc). now apply gzip_roundtrip.
  - apply (copy_decoded_run _ _ _ _ _ _ Hr Hc). now apply lzma_roundtrip.
  - apply (copy_decoded_run _ _ _ _ _ _ Hr Hc). now apply bz2_roundtrip.
  - apply (extractall_single _ _ _ _ _ _ _ Hr Hc); [now apply zip_roundtrip | exact Hp].
  - apply (extractall_single _ _ _ _ _ _ _ Hr Hc); [now apply tar_roundtrip | exact Hp].
  - now apply (copy_decoded_run _ _ _ _ _ _ Hr Hc).
Qed.

Lemma readable_basename_proper t p d :
  read_file t p = Ok d -> proper_name (OsPath.basename p) = true.
Proof.
  intros H. apply read_file_Ok in H as (l & Hl & Hn).
  now destruct (locate_last _ _ _ Hl (node_at_File_not_dir _ _ _ Hn)) as (h & _ & _ & _ & Hp).
Qed.

End FileFacts.

(* ================================================================== *)
(** * More about trees: writes that meet, writes that stay apart *)

Module TreeFacts.
Import Str FS StrFacts FSFacts PathFacts RunFacts FileFacts.

(** A write changes nothing at a location that is neither above nor
    below it. *)
Lemma node_at_put_apart t l x t' l' :
  put_at t l x = Some t' ->
  (forall r, l <> l' ++ r) -> (forall r, l' <> l ++ r) ->
  node_at t' l' = node_at t l'.
Proof.
  revert t t' l'; induction l as [|c rest IH]; intros t t' l' Hput H1 H2.
  - exfalso. now apply (H2 l').
  - destruct t as [d|es]; [discriminate|].
    destruct l' as [|c' rest']; [exfalso; now apply (H1 (c :: rest))|].
    cbn [put_at] in Hput. cbn [node_at].
    destruct (String.eqb_spec c' c) as [->|Hne].
    + destruct rest as [|c2 rest2].
      * exfalso. now apply (H2 rest').
      * destruct (lookup_entry c es) as [y|] eqn:Ey; [|discriminate].
        destruct (put_at y (c2 :: rest2) x) as [y'|] eqn:Ep; [|discriminate].
        injection Hput as <-. rewrite lookup_set_same.
        apply (IH y y' rest' Ep).
        -- intros r E. apply (H1 r). simpl. now rewrite E.
        -- intros r E. apply (H2 r). simpl. now rewrite E.
    + destruct rest as [|c2 rest2].
      * injection Hput as <-. now rewrite lookup_set_other.
      * destruct (lookup_entry c es) as [y|] eqn:Ey; [|discriminate].
        destruct (put_at y (c2 :: rest2) x) as [y'|] eqn:Ep; [|discriminate].
        injection Hput as <-. now rewrite lookup_set_other.
Qed.


(** Above the place of a write lie directories. *)
Lemma node_at_above t l c r x :
  node_at t (l ++ c :: r) = Some x -> is_dir_at t l = true.
Proof.
  rewrite node_at_app. unfold is_dir_at.
  destruct (node_at t l) as [[d|es]|]; [discriminate | reflexivity | discriminate].
Qed.

Lemma set_entry_twice c x y es : set_entry c x (set_entry c y es) = set_entry c x es.
Proof.
  induction es as [|[n z] r IH]; simpl.
  - now rewrite String.eqb_refl.
  - destruct (n =? c) eqn:E; simpl; rewrite E; [reflexivity | now rewrite IH].
Qed.

(** The second of two writes to a place is all that counts. *)
Lemma put_at_twice t l x y t1 : put_at t l y = Some t1 -> put_at t1 l x = put_at t l x.
Proof.
  revert t t1; induction l as [|c rest IH]; intros t t1 H; [reflexivity|].
  destruct t as [d|es]; [discriminate|]. cbn [put_at] in *.
  destruct rest as [|c2 rest2].
  - injection H as <-. now rewrite set_entry_twice.
  - destruct (lookup_entry c es) as [z|] eqn:Ez; [|discriminate].
    destruct (put_at z (c2 :: rest2) y) as [z1|] eqn:Ep; [|discriminate].
    injection H as <-. rewrite lookup_set_same, (IH z z1 Ep).
    destruct (put_at z (c2 :: rest2) x); [now rewrite set_entry_twice | reflexivity].
Qed.

(** Whether a write is possible does not depend on what is written. *)
Lemma put_at_possible t l x y t1 : put_at t l x = Some t1 -> exists t2, put_at t l y = Some t2.
Proof.
  revert t t1; induction l as [|c rest IH]; intros t t1 H; [simpl; eauto|].
  destruct t as [d|es]; [discriminate|]. cbn [put_at] in *.
  destruct rest as [|c2 rest2]; [eauto|].
  destruct (lookup_entry c es) as [z|]; [|discriminate].
  destruct (put_at z (c2 :: rest2) x) as [z1|] eqn:Ep; [|discriminate].
  destruct (IH z z1 Ep) as [z2 ->]. eauto.
Qed.

Lemma write_file_possible t p d1 d2 t1 :
  write_file t p d1 = Ok t1 -> exists t2, write_file t p d2 = Ok t2.
Proof.
  unfold write_file. destruct (locate t p) as [l|]; [|discriminate].
  destruct (node_at t l) as [[d0|es]|]; try discriminate;
    (destruct (put_at t l (File d1)) as [t'|] eqn:Ep; [|discriminate]);
    destruct (put_at_possible _ _ _ (File d2) _ Ep) as [t2 ->]; eauto.
Qed.

(** The only error of a write is [OSError]. *)
Lemma write_file_error t p d e : write_file t p d = Raise e -> e = OSError.
Proof.
  unfold write_file. destruct (locate t p) as [l|]; [|congruence].
  destruct (node_at t l) as [[d0|es]|]; try congruence;
    destruct (put_at t l (File d)); congruence.
Qed.

Lemma read_file_error t p e : read_file t p = Raise e -> e = OSError.
Proof.
  unfold read_file. destruct (locate t p) as [l|]; [|congruence].
  destruct (node_at t l) as [[d0|es]|]; congruence.
Qed.

Lemma write_file_twice t p d1 d2 t1 :
  write_file t p d1 = Ok t1 -> write_file t1 p d2 = write_file t p d2.
Proof.
  intros H. pose proof (locate_after_write _ _ _ _ p H) as Hloc.
  pose proof (read_after_write _ _ _ _ H) as Hr.
  apply read_file_Ok in Hr as (l1 & Hl1 & Hn1).
  apply write_file_Ok in H as (l & Hl & Hnd & Hp).
  assert (l1 = l) by congruence. subst l1.
  unfold write_file. rewrite Hl1, Hl, Hn1, (put_at_twice _ _ _ _ _ Hp).
  unfold is_dir_at in Hnd. destruct (node_at t l) as [[d0|es]|]; [reflexivity | discriminate | reflexivity].
Qed.

(** A write that succeeds where nothing exists was to a path that can be
    created. *)
Lemma written_creatable t p d t' :
  Path_exists t p = false -> write_file t p d = Ok t' -> creatable t p.
Proof.
  intros He Hw. apply write_file_Ok in Hw as (l & Hl & _ & _).
  exists l. split; [exact Hl|].
  unfold Path_exists in He. rewrite (locate_Path_node _ _ _ Hl) in He.
  destruct (node_at t l); [discriminate | reflexivity].
Qed.

Lemma creatable_writable t p d : creatable t p -> exists t', write_file t p d = Ok t'.
Proof. intros (l & Hl & Hn). destruct (write_file_fresh _ _ _ d Hl Hn) as (t' & H & _). eauto. Qed.

Lemma write_all_cases p d w :
  Lib.write_all p d w
  = match write_file (disk w) p d with
    | Ok t' => (Ok tt, with_disk w t')
    | Raise e => (Raise e, w)
    end.
Proof.
  unfold Lib.write_all, bind, get_disk, lift_result.
  destruct (write_file (disk w) p d); reflexivity.
Qed.

Lemma bind_Ok_inv {A B} (m : M A) (k : A -> M B) w b w' :
  bind m k w = (Ok b, w') -> exists a w1, m w = (Ok a, w1) /\ k a w1 = (Ok b, w').
Proof.
  unfold bind. destruct (m w) as [[a|e] w1]; [eauto | discriminate].
Qed.

End TreeFacts.

(* ================================================================== *)
(** * Directories: the walk and what it collects *)

Module WalkFacts.
Import Str FS StrFacts FSFacts PathFacts RunFacts FileFacts.

Lemma wf_node_Dir es :
  wf_node (Dir es) ->
  NoDup (map fst es)
  /\ forall name child, In (name, child) es -> proper_name name = true /\ wf_node child.
Proof.
  inversion 1 as [|? Hnd Hp Hc]; subst. split; [exact Hnd|].
  intros name child Hin. rewrite Forall_forall in Hp, Hc.
  split; [apply (Hp _ Hin) | apply (Hc _ Hin)].
Qed.

Lemma lookup_entry_In es name x :
  NoDup (map fst es) -> In (name, x) es -> lookup_entry name es = Some x.
Proof.
  induction es as [|[n y] r IH]; intros Hnd Hin; [destruct Hin|].
  simpl in Hnd. inversion Hnd as [|? ? Hnotin Hnd']; subst.
  simpl. destruct Hin as [[= -> ->]|Hin]; [now rewrite String.eqb_refl|].
  destruct (String.eqb_spec n name) as [->|_]; [|now apply IH].
  exfalso. apply Hnotin. apply (in_map fst) in Hin. exact Hin.
Qed.

Lemma lookup_entry_Some es name x : lookup_entry name es = Some x -> In (name, x) es.
Proof.
  induction es as [|[n y] r IH]; simpl; [discriminate|].
  destruct (String.eqb_spec n name) as [->|_]; [intros [= ->]; now left | auto].
Qed.

(** Every node of a well-formed tree is well formed. *)
Lemma wf_node_at t l n : wf_node t -> node_at t l = Some n -> wf_node n.
Proof.
  revert t; induction l as [|c l IH]; intros t Hwf H; simpl in H; [congruence|].
  destruct t as [d|es]; [discriminate|].
  destruct (lookup_entry c es) as [y|] eqn:E; [|discriminate].
  apply lookup_entry_Some in E. apply wf_node_Dir in Hwf as [_ Hall].
  apply (IH y); [apply (Hall c y E) | exact H].
Qed.

Lemma own_files_In es r d : In (r, d) (own_files es) -> exists name, r = [name] /\ In (name, File d) es.
Proof.
  induction es as [|[name [d1|es1]] rest IH]; simpl; [intros [] | |].
  - intros [[= <- <-]|Hin]; [eauto|]. destruct (IH Hin) as (n & -> & Hn). eauto.
  - intros Hin. destruct (IH Hin) as (n & -> & Hn). eauto.
Qed.

(** The files [files_under] lists are where it says they are. *)
Lemma files_under_sound n : wf_node n ->
  forall r d, In (r, d) (files_under n) -> node_at n r = Some (File d).
Proof.
  induction n as [d0|es IH] using node_induction; intros Hwf r d Hin;
    [now simpl in Hin|].
  apply wf_node_Dir in Hwf as [Hnd Hall].
  cbn [files_under] in Hin. apply in_app_or in Hin as [Hin|Hin].
  - apply own_files_In in Hin as (name & -> & Hin).
    cbn [node_at]. now rewrite (lookup_entry_In _ _ _ Hnd Hin).
  - apply in_flat_map in Hin as ([name child] & Hin & Hr).
    apply in_map_iff in Hr as ([r' d'] & [= <- <-] & Hr).
    cbn [node_at]. rewrite (lookup_entry_In _ _ _ Hnd Hin).
    rewrite Forall_forall in IH. apply (IH _ Hin); [apply (Hall _ _ Hin) | exact Hr].
Qed.

(** Nothing is listed at or below an empty directory. *)
Lemma files_under_skip_empty n : wf_node n ->
  forall e r d, node_at n e = Some (Dir []) -> ~ In (e ++ r, d) (files_under n).
Proof.
  intros Hwf e r d He Hin. apply (files_under_sound n Hwf) in Hin.
  rewrite node_at_app, He in Hin. destruct r; discriminate.
Qed.

(** A name joined to a directory path leads to the entry. *)
Lemma locate_join t top l name :
  locate t top = Some l -> is_dir_at t l = true -> proper_name name = true ->
  locate t (OsPath.join top name) = Some (l ++ [name]).
Proof.
  intros Hl Hd Hp. apply proper_name_spec in Hp as (N1 & N2 & N3 & Hs).
  apply locate_Some in Hl as [Hne Hl].
  unfold OsPath.join. rewrite (startswith_no_slash _ Hs).
  destruct (String.eqb_spec top "") as [|_]; [contradiction|]. cbn [orb].
  unfold locate.
  destruct (endswith top "/") eqn:E.
  - apply endswith_spec in E as [q ->].
    destruct (String.eqb_spec ((q +++ "/") +++ name) "") as [E|_].
    { now apply append_nonempty in E. }
    rewrite append_assoc, segments_app_slash, (segments_no_slash _ Hs).
    rewrite segments_trailing_slash, resolve_app in Hl.
    rewrite resolve_app.
    destruct (resolve t [] (segments q)) as [h|]; [|discriminate].
    simpl in Hl. destruct (is_dir_at t h); [|discriminate].
    injection Hl as ->. now apply resolve_step_name.
  - destruct (String.eqb_spec (top +++ "/" +++ name) "") as [E'|_].
    { now apply append_nonempty in E'. }
    rewrite segments_app_slash, (segments_no_slash _ Hs), resolve_app, Hl.
    now apply resolve_step_name.
Qed.

Lemma strip_common_prefix a r : OsPath.strip_common a (a ++ r) = ([], r).
Proof.
  induction a as [|x a IH]; simpl; [now destruct r|].
  now rewrite String.eqb_refl.
Qed.

(** The archive name of a file below the input directory. *)
Lemma relpath_below t input l fp rel :
  locate t input = Some l -> locate t fp = Some (l ++ rel) -> rel <> [] ->
  OsPath.relpath fp input = join_slash rel.
Proof.
  intros Hi Hf Hne. unfold OsPath.relpath.
  rewrite (abspath_locate _ _ _ Hi), (abspath_locate _ _ _ Hf), strip_common_prefix.
  simpl. destruct rel; [contradiction | reflexivity].
Qed.

Lemma for_each_app {A B} (l1 l2 : list A) (body : B -> A -> M B) :
  forall acc w,
    for_each (l1 ++ l2) acc body w
    = bind (for_each l1 acc body) (fun a => for_each l2 a body) w.
Proof.
  induction l1 as [|x l1 IH]; intros acc w; [reflexivity|].
  cbn [app for_each]. unfold bind.
  destruct (body acc x w) as [[a|e] w']; [|reflexivity].
  rewrite IH. reflexivity.
Qed.

(** A loop whose body only computes leaves the world alone. *)
Lemma for_each_pure {A B} (l : list A) (body : B -> A -> M B) (f : B -> A -> B) w :
  (forall acc x, In x l -> body acc x w = (Ok (f acc x), w)) ->
  forall acc, for_each l acc body w = (Ok (fold_left f l acc), w).
Proof.
  induction l as [|x l IH]; intros Hb acc; [reflexivity|].
  cbn [for_each fold_left]. rewrite (bind_Ok _ _ _ _ _ (Hb acc x (or_introl eq_refl))).
  apply IH. intros a y Hy. apply Hb. now right.
Qed.

Section Walk.

Context {B : Type}.
Variable w : world.
Variable base : loc.
Variable step : B -> string -> M B.
Variable g : B -> loc -> bytes -> B.
Variable Inv : B -> Prop.

Hypothesis g_keeps : forall acc rel d, Inv acc -> Inv (g acc rel d).

(** What the body of the loop does with a regular file below [base]. *)
Hypothesis step_file : forall acc fp rel d,
  Inv acc ->
  locate (disk w) fp = Some (base ++ rel) ->
  node_at (disk w) (base ++ rel) = Some (File d) -> rel <> [] ->
  step acc fp w = (Ok (g acc rel d), w).

Lemma collect_keeps rel l : forall acc, Inv acc -> Inv (collect g rel acc l).
Proof.
  unfold collect. induction l as [|e l IH]; intros acc H; [exact H|].
  simpl. apply IH. now apply g_keeps.
Qed.

Lemma collect_app rel acc l1 l2 :
  collect g rel acc (l1 ++ l2) = collect g rel (collect g rel acc l1) l2.
Proof. apply fold_left_app. Qed.

Lemma collect_map rel name acc l :
  collect g rel acc (map (fun e => (name :: fst e, snd e)) l)
  = collect g (rel ++ [name]) acc l.
Proof.
  unfold collect. revert acc; induction l as [|e l IH]; intros acc; [reflexivity|].
  simpl. rewrite IH. now rewrite <- app_assoc.
Qed.

(** The walk of a directory hands every regular file below it to the
    body, in the order of [files_under]. *)
Lemma walk_collects n : forall top rel acc,
  Inv acc ->
  wf_node n ->
  locate (disk w) top = Some (base ++ rel) ->
  node_at (disk w) (base ++ rel) = Some n ->
  for_each (walk_node top n) acc (walk_body step) w
  = (Ok (collect g rel acc (files_under n)), w).
Proof.
  induction n as [d0|es IH] using node_induction; intros top rel acc Hinv Hwf Hl Hn;
    [reflexivity|].
  apply wf_node_Dir in Hwf as [Hnd Hall].
  assert (Hd : is_dir_at (disk w) (base ++ rel) = true)
    by (unfold is_dir_at; now rewrite Hn).
  assert (Hentry : forall name x, In (name, x) es ->
            locate (disk w) (OsPath.join top name) = Some (base ++ rel ++ [name])
            /\ node_at (disk w) (base ++ rel ++ [name]) = Some x).
  { intros name x Hin. rewrite app_assoc. split.
    - apply locate_join; auto. apply (Hall name x Hin).
    - rewrite node_at_app, Hn. cbn [node_at]. now rewrite (lookup_entry_In es name x Hnd Hin). }
  cbn [walk_node files_under for_each].
  (* the files of the directory itself *)
  assert (Hown : forall es0, incl es0 es -> forall acc, Inv acc ->
    for_each (file_names es0) acc (fun acc file => step acc (OsPath.join top file)) w
    = (Ok (collect g rel acc (own_files es0)), w)).
  { induction es0 as [|[name [d|es1]] rest IHr]; intros Hincl acc0 Hi0; [reflexivity| |].
    - unfold file_names. cbn [filter snd is_dir_node negb map fst for_each own_files].
      destruct (Hentry name (File d)) as [Hl1 Hn1]; [apply Hincl; now left|].
      rewrite (bind_Ok _ _ _ _ _ (step_file acc0 _ (rel ++ [name]) d Hi0 Hl1 Hn1
                                    (fun E => app_cons_not_nil _ _ _ (eq_sym E)))).
      fold (file_names rest).
      rewrite IHr; [reflexivity | intros e He; apply Hincl; now right | now apply g_keeps].
    - unfold file_names. cbn [filter snd is_dir_node negb map fst own_files].
      fold (file_names rest). apply IHr; [intros e He; apply Hincl; now right | exact Hi0]. }
  unfold walk_body at 1.
  rewrite (bind_Ok _ _ _ _ _ (Hown es (incl_refl es) acc Hinv)).
  rewrite collect_app.
  pose proof (collect_keeps rel (own_files es) acc Hinv) as Hinv1.
  revert Hinv1. generalize (collect g rel acc (own_files es)) as acc1.
  (* the subdirectories *)
  assert (Hsubs : forall es0, incl es0 es -> Forall (fun e => forall top rel acc,
              Inv acc ->
              wf_node (snd e) ->
              locate (disk w) top = Some (base ++ rel) ->
              node_at (disk w) (base ++ rel) = Some (snd e) ->
              for_each (walk_node top (snd e)) acc (walk_body step) w
              = (Ok (collect g rel acc (files_under (snd e))), w)) es0 ->
            forall acc1, Inv acc1 ->
    for_each (flat_map (fun '(name, child) =>
                match child with
                | Dir _ => walk_node (OsPath.join top name) child
                | File _ => []
                end) es0) acc1 (walk_body step) w
    = (Ok (collect g rel acc1
             (flat_map (fun '(name, child) =>
                map (fun e => (name :: fst e, snd e)) (files_under child)) es0)), w)).
  { induction es0 as [|[name child] rest IHr]; intros Hincl HF acc1 Hi1; [reflexivity|].
    inversion HF as [|? ? Hchild Hrest]; subst.
    destruct (Hentry name child) as [Hl1 Hn1]; [apply Hincl; now left|].
    cbn [flat_map]. rewrite for_each_app, collect_app, collect_map.
    assert (Hsub : for_each
              match child with
              | Dir _ => walk_node (OsPath.join top name) child
              | File _ => []
              end acc1 (walk_body step) w
            = (Ok (collect g (rel ++ [name]) acc1 (files_under child)), w)).
    { destruct child as [d|es1]; [reflexivity|].
      apply Hchild; cbn [snd]; rewrite <- ?app_assoc; auto.
      apply (Hall name (Dir es1)). apply Hincl; now left. }
    rewrite (bind_Ok _ _ _ _ _ Hsub).
    apply IHr; [intros e He; apply Hincl; now right | exact Hrest |].
    now apply collect_keeps. }
  intros acc1 Hinv1. apply Hsubs; [apply incl_refl | exact IH | exact Hinv1].
Qed.

End Walk.

(** *** The walk as a list of paths *)

Lemma for_each_map {A A' B} (f : A -> A') (l : list A) (body : B -> A' -> M B) :
  forall acc w,
    for_each l acc (fun acc x => body acc (f x)) w = for_each (map f l) acc body w.
Proof.
  induction l as [|x l IH]; intros acc w; [reflexivity|].
  cbn [map for_each]. unfold bind.
  destruct (body acc (f x) w) as [[a|e] w']; [apply IH | reflexivity].
Qed.

(** The nested loops over a walk are one loop over its paths. *)
Lemma walk_flat {B} (step : B -> string -> M B) l : forall acc w,
  for_each l acc (walk_body step) w
  = for_each (flat_map (fun '(root, _, files) => map (OsPath.join root) files) l)
             acc step w.
Proof.
  induction l as [|[[root dirs] files] l IH]; intros acc w; [reflexivity|].
  cbn [for_each flat_map]. rewrite for_each_app.
  unfold walk_body at 1. unfold bind.
  rewrite (for_each_map (OsPath.join root) files step).
  destruct (for_each (map (OsPath.join root) files) acc step w) as [[a|e] w'];
    [apply IH | reflexivity].
Qed.

Lemma Forall2_map_right {A B B'} (R : A -> B' -> Prop) (f : B -> B') xs ys :
  Forall2 (fun x y => R x (f y)) xs ys -> Forall2 R xs (map f ys).
Proof. induction 1; simpl; constructor; auto. Qed.

Lemma Forall2_weaken {A B} (R R' : A -> B -> Prop) xs ys :
  (forall x y, R x y -> R' x y) -> Forall2 R xs ys -> Forall2 R' xs ys.
Proof. intros H. induction 1; constructor; auto. Qed.

(** The paths of the walk of a directory lead to the regular files below
    it, one by one and in the order of [files_under]. *)
Lemma walk_aligned t n : forall top l,
  wf_node n -> locate t top = Some l -> node_at t l = Some n ->
  Forall2 (walked t top l)
          (flat_map (fun '(root, _, files) => map (OsPath.join root) files)
                    (walk_node top n))
          (files_under n).
Proof.
  induction n as [d0|es IH] using node_induction; intros top l Hwf Hl Hn;
    [constructor|].
  apply wf_node_Dir in Hwf as [Hnd Hall].
  assert (Htop : top <> "") by (now apply locate_Some in Hl as [Hne _]).
  assert (Hd : is_dir_at t l = true) by (unfold is_dir_at; now rewrite Hn).
  assert (Hentry : forall name x, In (name, x) es ->
            locate t (OsPath.join top name) = Some (l ++ [name])
            /\ node_at t (l ++ [name]) = Some x
            /\ OsPath.double_slash (OsPath.join top name) = OsPath.double_slash top).
  { intros name x Hin. destruct (Hall name x Hin) as [Hp _]. split; [|split].
    - now apply locate_join.
    - rewrite node_at_app, Hn. cbn [node_at]. now rewrite (lookup_entry_In es name x Hnd Hin).
    - now apply double_slash_join. }
  cbn [walk_node files_under flat_map]. apply Forall2_app.
  - (* the files of the directory itself *)
    assert (Hown : forall es0, incl es0 es ->
              Forall2 (walked t top l) (map (OsPath.join top) (file_names es0))
                      (own_files es0)).
    { induction es0 as [|[name [d|es1]] rest IHr]; intros Hincl; [constructor| |].
      - unfold file_names. cbn [filter snd is_dir_node negb map fst own_files].
        destruct (Hentry name (File d)) as (Hl1 & _ & Hs1); [apply Hincl; now left|].
        constructor; [|apply IHr; intros e He; apply Hincl; now right].
        split; [exact Hl1|]. split; [discriminate | exact Hs1].
      - unfold file_names. cbn [filter snd is_dir_node negb map fst own_files].
        apply IHr. intros e He. apply Hincl. now right. }
    apply Hown, incl_refl.
  - (* the subdirectories *)
    assert (Hsubs : forall es0, incl es0 es ->
              Forall (fun e => forall top l, wf_node (snd e) -> locate t top = Some l ->
                        node_at t l = Some (snd e) ->
                        Forall2 (walked t top l)
                          (flat_map (fun '(root, _, files) => map (OsPath.join root) files)
                                    (walk_node top (snd e)))
                          (files_under (snd e))) es0 ->
              Forall2 (walked t top l)
                (flat_map (fun '(root, _, files) => map (OsPath.join root) files)
                   (flat_map (fun '(name, child) =>
                      match child with
                      | Dir _ => walk_node (OsPath.join top name) child
                      | File _ => []
                      end) es0))
                (flat_map (fun '(name, child) =>
                   map (fun e => (name :: fst e, snd e)) (files_under child)) es0)).
    { induction es0 as [|[name child] rest IHr]; intros Hincl HF; [constructor|].
      inversion HF as [|? ? Hchild Hrest]; subst.
      destruct (Hentry name child) as (Hl1 & Hn1 & Hs1); [apply Hincl; now left|].
      cbn [flat_map]. rewrite flat_map_app. apply Forall2_app;
        [|apply IHr; [intros e He; apply Hincl; now right | exact Hrest]].
      destruct child as [d|es1]; [constructor|].
      apply Forall2_map_right.
      apply (Forall2_weaken (walked t (OsPath.join top name) (l ++ [name]))).
      - intros p [r d] (H1 & H2 & H3). cbn [fst snd] in *. split; [|split].
        + now rewrite <- app_assoc in H1.
        + discriminate.
        + congruence.
      - apply Hchild; cbn [snd]; auto.
        apply (Hall name (Dir es1)). apply Hincl. now left. }
    apply Hsubs; [apply incl_refl | exact IH].
Qed.

(** The same for [os.walk] on a path. *)
Lemma os_walk_aligned t top l n :
  wf_node t -> locate t top = Some l -> node_at t l = Some n ->
  Forall2 (walked t top l) (walk_paths t top) (files_under n)
  /\ Forall (fun e => node_at t (l ++ fst e) = Some (File (snd e))) (files_under n).
Proof.
  intros Hwf Hl Hn.
  assert (Hwfn : wf_node n) by now apply (wf_node_at t l).
  split.
  - unfold walk_paths, os_walk. rewrite Hl, Hn. now apply walk_aligned.
  - apply Forall_forall. intros [r d] Hin. cbn [fst snd].
    rewrite node_at_app, Hn. now apply files_under_sound.
Qed.

End WalkFacts.

(* ================================================================== *)
(** * Directories: what [compress_directory] writes *)

Module DirFacts.
Import Str FS StrFacts FSFacts PathFacts RunFacts FileFacts TreeFacts WalkFacts.

Lemma own_files_complete es name d : In (name, File d) es -> In ([name], d) (own_files es).
Proof.
  induction es as [|[n [d1|es1]] rest IH]; simpl; [auto | |].
  - intros [[= -> ->]|H]; [now left | right; auto].
  - intros [[=]|H]; auto.
Qed.

(** Every regular file below a directory is listed. *)
Lemma files_under_complete n :
  forall r d, is_dir_node n = true -> node_at n r = Some (File d) ->
              In (r, d) (files_under n).
Proof.
  induction n as [d0|es IH] using node_induction; intros r d Hdir Hn; [discriminate|].
  destruct r as [|c r]; [discriminate|].
  cbn [node_at] in Hn. destruct (lookup_entry c es) as [x|] eqn:E; [|discriminate].
  apply lookup_entry_Some in E. cbn [files_under]. apply in_or_app.
  destruct r as [|c2 r].
  - left. simpl in Hn. injection Hn as ->. now apply own_files_complete.
  - right. apply in_flat_map. exists (c, x). split; [exact E|].
    apply in_map_iff. exists (c2 :: r, d). split; [reflexivity|].
    rewrite Forall_forall in IH. apply (IH _ E); [|exact Hn].
    destruct x; [discriminate | reflexivity].
Qed.

Lemma collect_bytes found : forall acc,
  collect (fun (a : bytes) (_ : loc) d => a ++ d) [] acc found
  = acc ++ concat (map snd found).
Proof.
  unfold collect. induction found as [|e l IH]; intros acc; simpl.
  - now rewrite app_nil_r.
  - now rewrite IH, app_assoc.
Qed.

Lemma collect_members found : forall a,
  Lib.arc_members
    (collect (fun a rel d => Lib.add_members a [RegFile (join_slash rel) d]) [] a found)
  = Lib.arc_members a ++ map (fun e => RegFile (join_slash (fst e)) (snd e)) found.
Proof.
  unfold collect. induction found as [|e l IH]; intros a; simpl.
  - now rewrite app_nil_r.
  - rewrite IH. simpl. now rewrite <- app_assoc.
Qed.

Lemma startswith_spec s p : startswith s p = true <-> exists q, s = p +++ q.
Proof.
  unfold startswith. rewrite prefixb_spec. split.
  - intros [r Hr]. exists (string_of_list_ascii r).
    rewrite <- (string_of_list_ascii_of_string s), Hr, string_of_list_app.
    now rewrite string_of_list_ascii_of_string.
  - intros [q ->]. exists (list_ascii_of_string q). apply list_ascii_app.
Qed.

(** The locations of a well-formed tree are made of proper names. *)
Lemma node_at_names t : forall l x,
  wf_node t -> node_at t l = Some x -> Forall (fun c => has_slash c = false) l.
Proof.
  intros l; revert t; induction l as [|c l IH]; intros t x Hwf H; [constructor|].
  cbn [node_at] in H. destruct t as [d|es]; [discriminate|].
  destruct (lookup_entry c es) as [y|] eqn:E; [|discriminate].
  apply lookup_entry_Some in E. apply wf_node_Dir in Hwf as [_ Hall].
  destruct (Hall c y E) as [Hp Hy]. constructor; [|apply (IH y x Hy H)].
  now apply proper_name_spec in Hp.
Qed.

(** Every member of the archive is a regular file of the tree, named by
    its relative path. *)
Lemma archived_files n : wf_node n ->
  Forall (fun m => exists r d, m = RegFile (join_slash r) d
                               /\ r <> [] /\ node_at n r = Some (File d))
         (archived n).
Proof.
  intros Hwf. apply Forall_forall. intros m Hin.
  apply in_map_iff in Hin as ([r d] & <- & Hin). exists r, d. cbn [fst snd].
  pose proof (files_under_sound n Hwf r d Hin) as Hn. repeat split; auto.
  intros ->. simpl in Hn. injection Hn as ->. destruct Hin.
Qed.

(** No member is named by an empty directory or lies below one. *)
Lemma archived_skips_empty n e m : wf_node n ->
  node_at n e = Some (Dir []) -> In m (archived n) ->
  member_name m <> join_slash e
  /\ startswith (member_name m) (join_slash e +++ "/") = false.
Proof.
  intros Hwf He Hin.
  destruct e as [|c e].
  { simpl in He. injection He as ->. destruct Hin. }
  pose proof (node_at_names n _ _ Hwf He) as Hes.
  pose proof (archived_files n Hwf) as HF. rewrite Forall_forall in HF.
  destruct (HF m Hin) as (r & d & -> & Hne & Hn). cbn [member_name].
  pose proof (node_at_names n _ _ Hwf Hn) as Hrs.
  split.
  - intros E. apply (f_equal segments) in E.
    rewrite !segments_join_slash in E by (auto; discriminate).
    subst r. congruence.
  - destruct (startswith (join_slash r) (join_slash (c :: e) +++ "/")) eqn:E;
      [|reflexivity].
    apply startswith_spec in E as [q E]. rewrite append_assoc in E.
    apply (f_equal segments) in E.
    rewrite segments_app_slash, !segments_join_slash in E by (auto; discriminate).
    rewrite E, node_at_app, He in Hn.
    destruct (segments q) eqn:Eq; [now apply segments_nonempty in Eq | discriminate].
Qed.

(** The files of the walk, read in order, are the files [files_under]
    lists. *)
Lemma walk_paths_read t input_path li n :
  wf_node t -> directory_at t input_path li n ->
  map (read_file t) (walk_paths t input_path)
  = map (fun e => Ok (snd e)) (files_under n).
Proof.
  intros Hwf (Hli & Hn & Hdir).
  set (w := {| disk := t; console := [] |}).
  set (step := fun (acc : list (result bytes)) (fp : string) =>
                 (fun w' : world => (Ok (acc ++ [read_file (disk w') fp]), w')) : M _).
  assert (Hinner : forall root files acc,
    for_each files acc (fun acc file => step acc (OsPath.join root file)) w
    = (Ok (acc ++ map (read_file t) (map (OsPath.join root) files)), w)).
  { intros root files; induction files as [|f files IH]; intros acc.
    - simpl. unfold ret. now rewrite app_nil_r.
    - cbn [for_each map]. unfold bind, step at 1. rewrite IH.
      now rewrite <- app_assoc. }
  assert (Houter : forall l acc,
    for_each l acc (walk_body step) w
    = (Ok (acc ++ map (read_file t)
                      (flat_map (fun '(root, _, files) => map (OsPath.join root) files) l)), w)).
  { induction l as [|[[root dirs] files] l IH]; intros acc.
    - simpl. unfold ret. now rewrite app_nil_r.
    - cbn [for_each flat_map]. unfold walk_body at 1.
      rewrite (bind_Ok _ _ _ _ _ (Hinner root files acc)), IH.
      now rewrite map_app, app_assoc. }
  assert (Hcollect : forall found acc,
    collect (fun (a : list (result bytes)) (_ : loc) d => a ++ [Ok d]) [] acc found
    = acc ++ map (fun e => Ok (snd e)) found).
  { unfold collect. induction found as [|e found IH]; intros acc; simpl.
    - now rewrite app_nil_r.
    - now rewrite IH, <- app_assoc. }
  pose proof (walk_collects w li step (fun a _ d => a ++ [Ok d]) (fun _ => True)
                (fun _ _ _ _ => I)) as Hw.
  specialize (Hw (fun acc fp rel d _ Hl Hf _ =>
    f_equal (fun r => (Ok (acc ++ [r]), w))
            (proj2 (read_file_Ok t fp d) (ex_intro _ _ (conj Hl Hf))))).
  specialize (Hw n input_path [] [] I (wf_node_at _ _ _ Hwf Hn)).
  rewrite app_nil_r in Hw. specialize (Hw Hli Hn).
  rewrite Houter, Hcollect in Hw. simpl in Hw.
  unfold walk_paths, os_walk. rewrite Hli, Hn. congruence.
Qed.

(** *** What an archive gathers *)

(** No file at the place of the archive: every file becomes a member. *)
Lemma gathered_elsewhere own li lo found : forall ms,
  Forall (fun e => li ++ fst e <> lo) found ->
  gathered own li lo ms found = Ok (ms ++ map file_member found).
Proof.
  unfold loc in *. induction found as [|e found IH]; intros ms HF; cbn [gathered map]; unfold loc.
  - now rewrite app_nil_r.
  - inversion HF as [|? ? He Hrest]; subst.
    rewrite (same_parts_false _ _ He), IH by exact Hrest.
    now rewrite <- app_assoc.
Qed.

(** The archive is left out: every other file becomes a member. *)
Lemma gathered_left_out li lo found : forall ms,
  gathered (fun _ => Ok None) li lo ms found
  = Ok (ms ++ map file_member
                  (filter (fun e => negb (Lib.same_parts (li ++ fst e) lo)) found)).
Proof.
  unfold loc in *. induction found as [|e found IH]; intros ms; cbn [gathered filter map]; unfold loc.
  - now rewrite app_nil_r.
  - destruct (Lib.same_parts (li ++ fst e) lo); cbn [negb]; rewrite IH; [reflexivity|].
    cbn [map]. now rewrite <- app_assoc.
Qed.

(** Whatever happens at the archive's own file, every member is made of
    a file that was found, and holds its bytes when the file lies
    elsewhere. *)
Lemma gathered_members own li lo found : forall ms ms',
  gathered own li lo ms found = Ok ms' ->
  exists added,
    ms' = ms ++ added
    /\ Forall (fun m => exists r d d', In (r, d) found /\ m = RegFile (join_slash r) d'
                                       /\ (li ++ r <> lo -> d' = d)) added.
Proof.
  unfold loc in *. induction found as [|[r d] found IH]; intros ms ms' H; cbn [gathered] in H; unfold loc in H.
  - injection H as <-. exists []. split; [now rewrite app_nil_r | constructor].
  - assert (Hmore : forall m added,
      Forall (fun m => exists r d d', In (r, d) found /\ m = RegFile (join_slash r) d'
                                      /\ (li ++ r <> lo -> d' = d)) added ->
      (exists d', m = RegFile (join_slash r) d' /\ (li ++ r <> lo -> d' = d)) ->
      Forall (fun m => exists r0 d0 d', In (r0, d0) ((r, d) :: found)
                                        /\ m = RegFile (join_slash r0) d'
                                        /\ (li ++ r0 <> lo -> d' = d0)) (m :: added)).
    { intros m added HF (d' & -> & Hd). constructor.
      - exists r, d, d'. split; [now left | auto].
      - eapply Forall_impl; [|exact HF]. intros m (r0 & d0 & d1 & Hin & E & Hd').
        exists r0, d0, d1. split; [now right | auto]. }
    assert (Hskip : forall added,
      Forall (fun m => exists r d d', In (r, d) found /\ m = RegFile (join_slash r) d'
                                      /\ (li ++ r <> lo -> d' = d)) added ->
      Forall (fun m => exists r0 d0 d', In (r0, d0) ((r, d) :: found)
                                        /\ m = RegFile (join_slash r0) d'
                                        /\ (li ++ r0 <> lo -> d' = d0)) added).
    { intros added HF. eapply Forall_impl; [|exact HF].
      intros m (r0 & d0 & d1 & Hin & E & Hd'). exists r0, d0, d1. split; [now right | auto]. }
    cbn [fst snd] in H.
    destruct (Lib.same_parts (li ++ r) lo) eqn:Es.
    + destruct (own ms) as [[d'|]|x]; [| |discriminate].
      * destruct (IH _ _ H) as (added & -> & HF).
        exists (RegFile (join_slash r) d' :: added). split; [now rewrite <- app_assoc|].
        apply Hmore; [exact HF|]. exists d'. split; [reflexivity|].
        intros Hne. now rewrite (same_parts_false _ _ Hne) in Es.
      * destruct (IH _ _ H) as (added & -> & HF). exists added. auto.
    + destruct (IH _ _ H) as (added & -> & HF).
      exists (file_member (r, d) :: added). split; [now rewrite <- app_assoc|].
      apply Hmore; [exact HF|]. exists d. now split.
Qed.

(** An archive that does not fail at its own file gathers its members. *)
Lemma gathered_total own li lo found :
  (forall ms x, own ms <> Raise x) ->
  forall ms, exists ms', gathered own li lo ms found = Ok ms'.
Proof.
  unfold loc in *.
  intros Hown. induction found as [|e found IH]; intros ms; cbn [gathered]; unfold loc; [eauto|].
  destruct (Lib.same_parts (li ++ fst e) lo); [|apply IH].
  destruct (own ms) as [[d'|]|x] eqn:E; [apply IH | apply IH | now apply Hown in E].
Qed.

(** *** The loops of the archive formats *)

Section ArchiveLoop.

Variable w1 : world.
Variables (i o : string) (li lo : loc).
Variable own : list member -> result (option bytes).
Variable step : Lib.archive -> string -> M Lib.archive.

Hypothesis step_spec : forall a p e,
  Lib.arc_name a = OsPath.abspath o /\ Lib.arc_file a = o ->
  walked (disk w1) i li p e ->
  node_at (disk w1) (li ++ fst e) = Some (File (snd e)) ->
  step a p w1
  = if Lib.same_parts (li ++ fst e) lo then
      match own (Lib.arc_members a) with
      | Ok None => (Ok a, w1)
      | Ok (Some d) => (Ok (Lib.add_members a [RegFile (join_slash (fst e)) d]), w1)
      | Raise x => (Raise x, w1)
      end
    else (Ok (Lib.add_members a [file_member e]), w1).

(** The loop leaves the disk alone and gathers the members. *)
Lemma archive_loop paths found :
  Forall2 (walked (disk w1) i li) paths found ->
  Forall (fun e => node_at (disk w1) (li ++ fst e) = Some (File (snd e))) found ->
  forall a, Lib.arc_name a = OsPath.abspath o /\ Lib.arc_file a = o ->
  for_each paths a step w1
  = match gathered own li lo (Lib.arc_members a) found with
    | Ok ms => (Ok {| Lib.arc_name := OsPath.abspath o; Lib.arc_file := o;
                      Lib.arc_members := ms |}, w1)
    | Raise x => (Raise x, w1)
    end.
Proof.
  induction 1 as [|p e paths found Hpe Hrest IH]; intros HF a Ha.
  - simpl. unfold ret. destruct a as [nm fl ms]. destruct Ha as [Hn Hf].
    cbn in Hn, Hf. now subst.
  - inversion HF as [|? ? He HF']; subst.
    cbn [for_each gathered]. unfold bind. rewrite (step_spec a p e Ha Hpe He).
    unfold loc in *.
    destruct (Lib.same_parts (li ++ fst e) lo).
    + destruct (own (Lib.arc_members a)) as [[d'|]|x]; [| |reflexivity].
      * rewrite (IH HF' _ (opened_add_members a o _ Ha)). reflexivity.
      * apply (IH HF' a Ha).
    + rewrite (IH HF' _ (opened_add_members a o _ Ha)). reflexivity.
Qed.

End ArchiveLoop.

(** [tar.add] on a path of the walk. *)
Lemma tar_add_walked C w1 i o li lo a p e :
  locate (disk w1) i = Some li -> locate (disk w1) o = Some lo ->
  Lib.arc_name a = OsPath.abspath o /\ Lib.arc_file a = o ->
  walked (disk w1) i li p e ->
  node_at (disk w1) (li ++ fst e) = Some (File (snd e)) ->
  Lib.tar_add (tar_unfinished C) a p (OsPath.relpath p i) w1
  = if Lib.same_parts (li ++ fst e) lo then
      match tar_own C (Bool.eqb (OsPath.double_slash i) (OsPath.double_slash o))
                    (Lib.arc_members a) with
      | Ok None => (Ok a, w1)
      | Ok (Some d) => (Ok (Lib.add_members a [RegFile (join_slash (fst e)) d]), w1)
      | Raise x => (Raise x, w1)
      end
    else (Ok (Lib.add_members a [file_member e]), w1).
Proof.
  intros Hli Hlo [Hname Hfile] (Hp & Hne & Hs) Hn.
  rewrite (relpath_below (disk w1) i li p (fst e) Hli Hp Hne).
  unfold Lib.tar_add, tar_own.
  rewrite Hname, abspath_eqb, Hs, (abspath_locate _ _ _ Hp), (abspath_locate _ _ _ Hlo).
  assert (Hown : Lib.own_file a (disk w1) (li ++ fst e) = Lib.same_parts (li ++ fst e) lo)
    by (unfold Lib.own_file; now rewrite Hfile, Hlo).
  destruct (Lib.same_parts (li ++ fst e) lo) eqn:Es.
  - rewrite andb_true_r.
    destruct (Bool.eqb (OsPath.double_slash i) (OsPath.double_slash o)); [reflexivity|].
    unfold bind, get_disk. now rewrite Hp, Hn, Hown.
  - rewrite andb_false_r. unfold bind, get_disk. now rewrite Hp, Hn, Hown.
Qed.

(** [zipf.write] on a path of the walk. *)
Lemma zip_write_walked C w1 i o li lo a p e :
  locate (disk w1) i = Some li -> locate (disk w1) o = Some lo ->
  Lib.arc_name a = OsPath.abspath o /\ Lib.arc_file a = o ->
  walked (disk w1) i li p e ->
  node_at (disk w1) (li ++ fst e) = Some (File (snd e)) ->
  Lib.zip_write (zip_unfinished C None) a p (OsPath.relpath p i) w1
  = if Lib.same_parts (li ++ fst e) lo then
      match zip_own C (Lib.arc_members a) with
      | Ok None => (Ok a, w1)
      | Ok (Some d) => (Ok (Lib.add_members a [RegFile (join_slash (fst e)) d]), w1)
      | Raise x => (Raise x, w1)
      end
    else (Ok (Lib.add_members a [file_member e]), w1).
Proof.
  intros Hli Hlo [Hname Hfile] (Hp & Hne & Hs) Hn.
  rewrite (relpath_below (disk w1) i li p (fst e) Hli Hp Hne).
  unfold Lib.zip_write, zip_own, bind, get_disk. rewrite Hp, Hn.
  unfold Lib.own_file. rewrite Hfile, Hlo.
  destruct (Lib.same_parts (li ++ fst e) lo); [|reflexivity].
  now destruct (zip_unfinished C None (Lib.arc_members a)).
Qed.

(** *** The writes of the placeholder format *)

(** The disk during the loop: the output holds what has been written
    out so far, and nothing else has changed. *)
Lemma append_file_run w o flushed t1 data :
  write_file (disk w) o flushed = Ok t1 ->
  exists t2,
    write_file (disk w) o (flushed ++ data) = Ok t2
    /\ Lib.append_file o data (with_disk w t1) = (Ok tt, with_disk w t2).
Proof.
  intros Hw. destruct (write_file_possible _ _ _ (flushed ++ data) _ Hw) as (t2 & Hw2).
  exists t2. split; [exact Hw2|]. unfold Lib.append_file.
  rewrite (bind_Ok _ _ _ _ _ (read_all_ok o (with_disk w t1) flushed
                                (read_after_write _ _ _ _ Hw))).
  apply (write_all_run o _ (with_disk w t1) t2). cbn [disk with_disk].
  now rewrite (write_file_twice _ _ _ _ _ Hw).
Qed.

(** A buffered write loses nothing: what is on the disk, followed by the
    buffer, grows by the data. *)
Lemma buffered_write_run size w o flushed t1 buf data :
  write_file (disk w) o flushed = Ok t1 ->
  exists flushed' t2 buf',
    write_file (disk w) o flushed' = Ok t2
    /\ Lib.buffered_write size o buf data (with_disk w t1) = (Ok buf', with_disk w t2)
    /\ flushed' ++ buf' = flushed ++ buf ++ data.
Proof.
  intros Hw. unfold Lib.buffered_write.
  destruct (length data <=? size - length buf)%nat.
  - exists flushed, t1, (buf ++ data). auto.
  - destruct (append_file_run w o flushed t1 buf Hw) as (t2 & Hw2 & Hrun2).
    rewrite (bind_Ok _ _ _ _ _ Hrun2).
    destruct (size <? length data)%nat.
    + destruct (append_file_run w o (flushed ++ buf) t2 data Hw2) as (t3 & Hw3 & Hrun3).
      rewrite (bind_Ok _ _ _ _ _ Hrun3).
      exists ((flushed ++ buf) ++ data), t3, []. split; [exact Hw3|].
      split; [reflexivity|]. now rewrite app_nil_r, <- app_assoc.
    + exists (flushed ++ buf), t2, data. split; [exact Hw2|].
      split; [reflexivity|]. now rewrite <- app_assoc.
Qed.

(** The loop of the placeholder format over files that were on the disk
    before the output was created: every file is read as it was, and
    what has been written out, followed by the buffer, grows by its
    bytes. *)
Lemma zst_loop C w0 i o li paths found :
  creatable (disk w0) o ->
  Forall2 (walked (disk w0) i li) paths found ->
  Forall (fun e => node_at (disk w0) (li ++ fst e) = Some (File (snd e))) found ->
  forall flushed t1 buf,
    write_file (disk w0) o flushed = Ok t1 ->
    exists flushed' t2 buf',
      write_file (disk w0) o flushed' = Ok t2
      /\ for_each paths buf
           (fun f_out fp =>
              data <- Lib.read_all fp ;;
              Lib.buffered_write (open_buffer_size C) o f_out data) (with_disk w0 t1)
         = (Ok buf', with_disk w0 t2)
      /\ flushed' ++ buf' = flushed ++ buf ++ concat (map snd found).
Proof.
  intros Hc. induction 1 as [|p e paths found Hpe Hrest IH]; intros HF flushed t1 buf Hw.
  - exists flushed, t1, buf. split; [exact Hw|]. split; [reflexivity|].
    simpl. now rewrite app_nil_r.
  - inversion HF as [|? ? He HF']; subst. destruct Hpe as (Hp & _ & _).
    assert (Hr : read_file t1 p = Ok (snd e)).
    { apply (read_kept_by_create _ _ _ _ _ _ Hc Hw). apply read_file_Ok. eauto. }
    cbn [for_each]. rewrite bind_bind.
    rewrite (bind_Ok _ _ _ _ _ (read_all_ok p (with_disk w0 t1) (snd e) Hr)).
    destruct (buffered_write_run (open_buffer_size C) w0 o flushed t1 buf (snd e) Hw)
      as (flushed1 & t2 & buf1 & Hw2 & Hrun & E).
    rewrite (bind_Ok _ _ _ _ _ Hrun).
    destruct (IH HF' flushed1 t2 buf1 Hw2) as (flushed2 & t3 & buf2 & Hw3 & Hloop & E2).
    exists flushed2, t3, buf2. split; [exact Hw3|]. split; [exact Hloop|].
    rewrite E2, app_assoc, E. cbn [map concat]. now rewrite <- !app_assoc.
Qed.

(** *** The run of an archive format *)

Section ArchiveRun.

Variable w0 : world.
Variables (i o : string) (li lo : loc) (t1 n1 : node).
Variable pack : list member -> bytes.
Variable add : Lib.archive -> string -> string -> M Lib.archive.
Variable own : list member -> result (option bytes).

Hypothesis output_place : locate (disk w0) o = Some lo.
Hypothesis output_created : write_file (disk w0) o [] = Ok t1.
Hypothesis input_place : locate t1 i = Some li.
Hypothesis input_node : node_at t1 li = Some n1.
Hypothesis input_wf : wf_node n1.

Hypothesis add_spec : forall a p e,
  Lib.arc_name a = OsPath.abspath o /\ Lib.arc_file a = o ->
  walked t1 i li p e ->
  node_at t1 (li ++ fst e) = Some (File (snd e)) ->
  add a p (OsPath.relpath p i) (with_disk w0 t1)
  = if Lib.same_parts (li ++ fst e) lo then
      match own (Lib.arc_members a) with
      | Ok None => (Ok a, with_disk w0 t1)
      | Ok (Some d) =>
          (Ok (Lib.add_members a [RegFile (join_slash (fst e)) d]), with_disk w0 t1)
      | Raise x => (Raise x, with_disk w0 t1)
      end
    else (Ok (Lib.add_members a [file_member e]), with_disk w0 t1).

(** The archive is opened, the loop gathers the members of the files
    the walk finds, and the archive is written when it is closed; a
    failure in the loop leaves the empty file. *)
Lemma archive_run :
  match gathered own li lo [] (files_under n1) with
  | Ok ms =>
      exists t2,
        write_file (disk w0) o (pack ms) = Ok t2
        /\ bind (bind (Lib.archive_open o) (fun a =>
                   bind get_disk (fun t =>
                     bind (for_each (os_walk t i) a
                             (walk_body (fun a fp => add a fp (OsPath.relpath fp i))))
                          (fun a => Lib.write_all o (pack (Lib.arc_members a))))))
                (fun _ => logging_info "Compression complete") w0
           = (Ok tt, logged (with_disk w0 t2) "Compression complete")
  | Raise x =>
      bind (bind (Lib.archive_open o) (fun a =>
              bind get_disk (fun t =>
                bind (for_each (os_walk t i) a
                        (walk_body (fun a fp => add a fp (OsPath.relpath fp i))))
                     (fun a => Lib.write_all o (pack (Lib.arc_members a))))))
           (fun _ => logging_info "Compression complete") w0
      = (Raise x, with_disk w0 t1)
  end.
Proof.
  set (a0 := {| Lib.arc_name := OsPath.abspath o; Lib.arc_file := o;
                Lib.arc_members := [] |}).
  assert (Hopen : Lib.archive_open o w0 = (Ok a0, with_disk w0 t1)).
  { unfold Lib.archive_open, Lib.create.
    now rewrite (bind_Ok _ _ _ _ _ (write_all_run o [] w0 t1 output_created)). }
  assert (Hloop :
    for_each (os_walk t1 i) a0
      (walk_body (fun a fp => add a fp (OsPath.relpath fp i))) (with_disk w0 t1)
    = match gathered own li lo [] (files_under n1) with
      | Ok ms => (Ok {| Lib.arc_name := OsPath.abspath o; Lib.arc_file := o;
                        Lib.arc_members := ms |}, with_disk w0 t1)
      | Raise x => (Raise x, with_disk w0 t1)
      end).
  { unfold os_walk. rewrite input_place, input_node, walk_flat.
    apply (archive_loop (with_disk w0 t1) i o li lo own
             (fun a fp => add a fp (OsPath.relpath fp i)) add_spec
             _ (files_under n1)).
    - now apply walk_aligned.
    - apply Forall_forall. intros [r d] Hin. cbn [fst snd disk with_disk].
      rewrite node_at_app, input_node. now apply files_under_sound.
    - now split. }
  rewrite !bind_bind, (bind_Ok _ _ _ _ _ Hopen).
  rewrite bind_bind, (bind_Ok _ _ _ _ _ (get_disk_run (with_disk w0 t1))).
  cbn [disk with_disk]. rewrite bind_bind.
  destruct (gathered own li lo [] (files_under n1)) as [ms|x].
  - destruct (write_file_possible _ _ _ (pack ms) _ output_created) as (t2 & Hw2).
    exists t2. split; [exact Hw2|].
    rewrite (bind_Ok _ _ _ _ _ Hloop). cbn [Lib.arc_members].
    assert (Hw2' : write_file (disk (with_disk w0 t1)) o (pack ms) = Ok t2)
      by (cbn [disk with_disk]; now rewrite (write_file_twice _ _ _ _ _ output_created)).
    now rewrite (bind_Ok _ _ _ _ _ (write_all_run _ _ (with_disk w0 t1) t2 Hw2')).
  - unfold bind at 1. now rewrite Hloop.
Qed.

End ArchiveRun.

Section Directory.

Variable C : Codecs.
Variables (input_path output_path : string) (v : bool) (w : world).
Variables (li : loc) (n : node).

Hypothesis disk_wf : wf_node (disk w).
Hypothesis input_dir : directory_at (disk w) input_path li n.
Hypothesis output_new : creatable (disk w) output_path.
Hypothesis output_outside : outside (disk w) output_path input_path.

(** The world in which the loop runs: logged, and with the output file
    created. *)
Lemma loop_world (msg : string) :
  exists t1 lo,
    locate (disk w) output_path = Some lo
    /\ write_file (disk w) output_path [] = Ok t1
    /\ Lib.write_all output_path [] (logged w msg) = (Ok tt, with_disk (logged w msg) t1)
    /\ os_walk t1 input_path = walk_node input_path n
    /\ locate t1 input_path = Some li
    /\ node_at t1 li = Some n
    /\ (forall r, lo <> li ++ r).
Proof.
  destruct input_dir as (Hli & Hn & Hdir).
  destruct (archive_open_fresh output_path (logged w msg) output_new)
    as (t1 & lo & Hlo & Hno & Hw & Hopen).
  simpl in Hlo, Hno, Hw.
  assert (Hout : forall r, lo <> li ++ r) by (intros r; now apply output_outside).
  assert (Hli1 : locate t1 input_path = Some li)
    by now rewrite (locate_after_write _ _ _ _ input_path Hw).
  assert (Hn1 : node_at t1 li = Some n).
  { pose proof Hw as Hw'. apply write_file_Ok in Hw' as (lo' & Hlo' & _ & Hput).
    assert (lo' = lo) by congruence. subst lo'.
    apply (node_at_put_frame _ _ _ _ _ _ Hput Hno Hn Hout). }
  exists t1, lo. repeat split; auto.
  - now apply write_all_run.
  - unfold os_walk. now rewrite Hli1, Hn1.
Qed.

Lemma compress_directory_enter (format : string) :
  compress_directory C input_path output_path format v w
  = bind (if format =? "tar" then
     tar <- Lib.archive_open output_path ;;
     t <- get_disk ;;
     tar <- for_each (FS.os_walk t input_path) tar (fun tar '(root, _, files) =>
              for_each files tar (fun tar file =>
                let file_path := OsPath.join root file in
                let arcname := OsPath.relpath file_path input_path in
                Lib.tar_add (tar_unfinished C) tar file_path arcname)) ;;
     Lib.write_all output_path (tar_pack C (Lib.arc_members tar))
   else if format =? "zip" then
     zipf <- Lib.archive_open output_path ;;
     t <- get_disk ;;
     zipf <- for_each (FS.os_walk t input_path) zipf (fun zipf '(root, _, files) =>
               for_each files zipf (fun zipf file =>
                 let file_path := OsPath.join root file in
                 let arcname := OsPath.relpath file_path input_path in
                 Lib.zip_write (zip_unfinished C None) zipf file_path arcname)) ;;
     Lib.write_all output_path (zip_pack C None (Lib.arc_members zipf))
   else if format =? "zst" then
     Lib.create output_path ;;
     t <- get_disk ;;
     f_out <- for_each (FS.os_walk t input_path) [] (fun f_out '(root, _, files) =>
                for_each files f_out (fun f_out file =>
                  let file_path := OsPath.join root file in
                  data <- Lib.read_all file_path ;;
                  Lib.buffered_write (open_buffer_size C) output_path f_out data)) ;;
     Lib.append_file output_path f_out
   else
     raise (CompressionError ("Unsupported format for directories: " +++ format)))
     (fun _ => logging_info "Compression complete")
     (logged w ("Compressing directory: " +++ input_path +++ " to " +++ output_path
                +++ " with format " +++ format)).
Proof.
  unfold compress_directory.
  destruct input_dir as (Hli & Hn & Hdir).
  rewrite (bind_Ok _ _ _ _ _ (validate_input_path_ok _ _
             (directory_exists _ _ _ _ (conj Hli (conj Hn Hdir))))).
  rewrite (bind_Ok _ _ _ _ _ (validate_output_path_ok _ _
             (creatable_not_exists _ _ output_new))).
  reflexivity.
Qed.

(** The placeholder format: the bytes of the files, one after the other. *)
Lemma compress_directory_zst :
  exists w', compress_directory C input_path output_path "zst" v w = (Ok tt, w')
             /\ read_file (disk w') output_path = Ok (walked_bytes n).
Proof.
  rewrite compress_directory_enter. cbn [String.eqb Ascii.eqb Bool.eqb].
  destruct (loop_world ("Compressing directory: " +++ input_path +++ " to "
                        +++ output_path +++ " with format " +++ "zst"))
    as (t1 & lo & Hlo & Hw & Hcreate & Hwalk & Hli1 & Hn1 & Hout).
  set (w0 := logged w _) in *.
  assert (Hwfn : wf_node n)
    by (apply (wf_node_at (disk w) li); [exact disk_wf | apply input_dir]).
  destruct (zst_loop C w0 input_path output_path li
              (flat_map (fun '(root, _, files) => map (OsPath.join root) files)
                        (walk_node input_path n))
              (files_under n) output_new) with (flushed := @nil byte) (t1 := t1)
              (buf := @nil byte)
    as (flushed & t2 & buf & Hw2 & Hloop & E).
  { apply walk_aligned; [exact Hwfn | apply input_dir | apply input_dir]. }
  { apply Forall_forall. intros [r d] Hin. cbn [fst snd].
    change (disk w0) with (disk w). rewrite node_at_app.
    destruct input_dir as (_ & -> & _). now apply files_under_sound. }
  { exact Hw. }
  assert (Hloop' :
    for_each (walk_node input_path n) []
      (walk_body (fun (f_out : bytes) fp =>
         data <- Lib.read_all fp ;;
         Lib.buffered_write (open_buffer_size C) output_path f_out data))
      (with_disk w0 t1)
    = (Ok buf, with_disk w0 t2)) by (rewrite walk_flat; exact Hloop).
  destruct (append_file_run w0 output_path flushed t2 buf Hw2) as (t3 & Hw3 & Hclose).
  exists (logged (with_disk w0 t3) "Compression complete"). split.
  - unfold Lib.create. rewrite bind_bind, (bind_Ok _ _ _ _ _ Hcreate).
    rewrite bind_bind, (bind_Ok _ _ _ _ _ (get_disk_run (with_disk w0 t1))).
    change (disk (with_disk w0 t1)) with t1. rewrite Hwalk, bind_bind.
    change (for_each (walk_node input_path n) []
              (fun f_out '(root, _, files) =>
                 for_each files f_out (fun f_out file =>
                   let file_path := OsPath.join root file in
                   data <- Lib.read_all file_path ;;
                   Lib.buffered_write (open_buffer_size C) output_path f_out data)))
      with (for_each (walk_node input_path n) []
              (walk_body (fun (f_out : bytes) fp =>
                 data <- Lib.read_all fp ;;
                 Lib.buffered_write (open_buffer_size C) output_path f_out data))).
    rewrite (bind_Ok _ _ _ _ _ Hloop').
    now rewrite (bind_Ok _ _ _ _ _ Hclose).
  - cbn [disk logged with_disk]. apply read_after_write in Hw3.
    rewrite Hw3, E. reflexivity.
Qed.

(** The archive formats: one member for every regular file, named by its
    path relative to the input directory. *)
Lemma compress_directory_archive
    (pack : list member -> bytes)
    (add : Lib.archive -> string -> string -> M Lib.archive)
    (own : list member -> result (option bytes)) :
  (forall w1 lo a p e,
      locate (disk w1) input_path = Some li -> locate (disk w1) output_path = Some lo ->
      Lib.arc_name a = OsPath.abspath output_path /\ Lib.arc_file a = output_path ->
      walked (disk w1) input_path li p e ->
      node_at (disk w1) (li ++ fst e) = Some (File (snd e)) ->
      add a p (OsPath.relpath p input_path) w1
      = if Lib.same_parts (li ++ fst e) lo then
          match own (Lib.arc_members a) with
          | Ok None => (Ok a, w1)
          | Ok (Some d) =>
              (Ok (Lib.add_members a [RegFile (join_slash (fst e)) d]), w1)
          | Raise x => (Raise x, w1)
          end
        else (Ok (Lib.add_members a [file_member e]), w1)) ->
  forall msg,
  exists w',
    bind (bind (Lib.archive_open output_path) (fun a =>
            bind get_disk (fun t =>
              bind (for_each (os_walk t input_path) a
                      (walk_body (fun a fp => add a fp (OsPath.relpath fp input_path))))
                   (fun a => Lib.write_all output_path (pack (Lib.arc_members a))))))
         (fun _ => logging_info "Compression complete") (logged w msg)
    = (Ok tt, w')
    /\ read_file (disk w') output_path = Ok (pack (archived n)).
Proof.
  intros Hadd msg.
  destruct (loop_world msg) as (t1 & lo & Hlo & Hw & _ & Hwalk & Hli1 & Hn1 & Hout).
  assert (Hwfn : wf_node n)
    by (apply (wf_node_at (disk w) li); [exact disk_wf | apply input_dir]).
  assert (Hlo1 : locate t1 output_path = Some lo)
    by now rewrite (locate_after_write _ _ _ _ output_path Hw).
  pose proof (archive_run (logged w msg) input_path output_path li lo t1 n pack add own
                Hw Hli1 Hn1 Hwfn) as Hrun.
  rewrite gathered_elsewhere in Hrun.
  - destruct Hrun as (t2 & Hw2 & Hrun).
    { intros a p e Ha Hp He. now apply Hadd. }
    eexists. split; [exact Hrun|]. cbn [disk logged with_disk app].
    now apply read_after_write in Hw2.
  - apply Forall_forall. intros e _. intros E. now apply (Hout (fst e)).
Qed.

Lemma compress_directory_tar :
  exists w', compress_directory C input_path output_path "tar" v w = (Ok tt, w')
             /\ read_file (disk w') output_path = Ok (tar_pack C (archived n)).
Proof.
  rewrite compress_directory_enter. cbn [String.eqb Ascii.eqb Bool.eqb].
  apply (compress_directory_archive (tar_pack C) (Lib.tar_add (tar_unfinished C))
           (tar_own C (Bool.eqb (OsPath.double_slash input_path)
                                (OsPath.double_slash output_path)))).
  intros w1 lo a p e. apply tar_add_walked.
Qed.


End Directory.

End DirFacts.

(* ================================================================== *)
(** * The stand-in codecs meet the laws *)

Module StoreFacts.
Import Store.

Lemma dec_enc_bytes bs : forall rest, dec_bytes (enc_bytes bs ++ rest) = Some (bs, rest).
Proof.
  induction bs as [|b bs IH]; intros rest; [reflexivity|].
  cbn [enc_bytes app dec_bytes].
  replace (Byte.eqb x01 x00) with false by reflexivity.
  now rewrite IH.
Qed.

Lemma dec_enc_members ms : forall fuel,
  length ms <= fuel -> dec_members fuel (enc_members ms) = Some ms.
Proof.
  induction ms as [|m ms IH]; intros fuel Hlen; [now destruct fuel|].
  destruct fuel as [|fuel]; [simpl in Hlen; lia|].
  simpl in Hlen. apply le_S_n in Hlen.
  destruct m as [n d|n]; cbn [enc_members enc_member app dec_members].
  - rewrite <- !app_assoc, dec_enc_bytes.
    replace (Byte.eqb x00 x00) with true by reflexivity.
    rewrite dec_enc_bytes, (IH fuel Hlen). now rewrite string_of_list_byte_of_string.
  - rewrite dec_enc_bytes.
    replace (Byte.eqb x01 x00) with false by reflexivity.
    rewrite (IH fuel Hlen). now rewrite string_of_list_byte_of_string.
Qed.

Lemma enc_members_length ms : length ms <= length (enc_members ms).
Proof.
  induction ms as [|m ms IH]; [apply Nat.le_refl|].
  cbn [enc_members]. rewrite length_app.
  destruct m; simpl; lia.
Qed.

Lemma unpack_pack magic level ms :
  Byte.eqb magic magic = true -> unpack magic (pack magic level ms) = Some ms.
Proof.
  intros Hm. unfold unpack, pack, wrap, unwrap. rewrite Hm.
  apply dec_enc_members, enc_members_length.
Qed.

Lemma laws : CodecLaws codecs.
Proof.
  constructor; intros; simpl; try reflexivity; now apply unpack_pack.
Qed.

End StoreFacts.

(* ================================================================== *)
(** * The sample world *)

Module SampleFacts.
Import FS Sample.

Lemma tree_wf : wf_node tree.
Proof.
  unfold tree.
  repeat first
    [ apply wf_File
    | apply wf_Dir
    | apply Forall_cons
    | apply Forall_nil
    | apply NoDup_nil
    | apply NoDup_cons; [simpl; intuition discriminate |]
    | reflexivity
    | progress cbn [snd fst map] ].
Qed.

Lemma logs_tree_wf : wf_node logs_tree.
Proof.
  unfold logs_tree.
  repeat first
    [ apply wf_File
    | apply wf_Dir
    | apply Forall_cons
    | apply Forall_nil
    | apply NoDup_nil
    | apply NoDup_cons; [simpl; intuition discriminate |]
    | reflexivity
    | progress cbn [snd fst map] ].
Qed.

Lemma logs_directory :
  directory_at logs_tree "logs" ["logs"] (Dir [ ("long.bin", File long); ("sub", Dir []) ]).
Proof. repeat split. Qed.

Lemma docs_directory :
  directory_at tree "docs" ["docs"]
    (Dir [ ("a.txt", File [x61]); ("empty", Dir []);
           ("sub", Dir [ ("b.txt", File [x62; x62]) ]); ("c.txt", File [x63]) ]).
Proof. repeat split. Qed.

End SampleFacts.

(* ================================================================== *)
(** * The properties of the specification *)

Import Str FS StrFacts FSFacts PathFacts RunFacts ChecksumFacts FileFacts WalkFacts DirFacts.

(** ** Round trip of a single file *)

(** C1, as stated, fails: [decompress] picks its decoder from the suffix
    of the artifact's path, and [compress_file] writes to whatever path
    it is given.  A gzip artifact written to [out.zst] is copied, not
    decoded: both operations succeed and the bytes that come back are
    not the original ones.  (Written to a path without a known suffix,
    it is not decompressed at all.) *)
Lemma round_trip_needs_the_suffix :
  ~ (forall (C : Codecs) (L : CodecLaws C) (w : world)
            (input_path artifact_path output_path format : string)
            (level : Z) (v : bool) (data : bytes),
        In format format_tags -> (1 <= level <= 9)%Z ->
        read_file (disk w) input_path = Ok data ->
        fst (compress_file C input_path artifact_path format level v w) = Ok tt ->
        fst (decompress C artifact_path output_path v
               (snd (compress_file C input_path artifact_path format level v w))) = Ok tt ->
        read_file
          (disk (snd (decompress C artifact_path output_path v
                        (snd (compress_file C input_path artifact_path format level v w)))))
          (recovered_path format input_path output_path)
        = Ok data).
Proof.
  intros H.
  specialize (H Store.codecs StoreFacts.laws Sample.w0 "in.txt" "out.zst" "restored" "gz"
                6%Z false Sample.abc).
  assert (E : read_file
    (disk (snd (decompress Store.codecs "out.zst" "restored" false
                  (snd (compress_file Store.codecs "in.txt" "out.zst" "gz" 6 false
                          Sample.w0)))))
    (recovered_path "gz" "in.txt" "restored")
    = Ok (Store.wrap x1f 6 Sample.abc)) by (vm_compute; reflexivity).
  rewrite H in E; [discriminate | simpl; auto | lia | reflexivity | reflexivity | reflexivity].
Qed.

(** C1, amended: for every readable input file, every format tag among
    the six and every level from 1 to 9, if the artifact is written to a
    fresh path that ends in a dot and the format tag, then [compress_file]
    succeeds, [decompress] of the artifact into a fresh output path
    succeeds, and the original bytes are found again: in the output file
    for gz, xz, bz2 and zst, in the entry named by the input's base name
    below the output directory for zip and tar.  For zst the artifact is
    the data itself. *)
Theorem compress_then_decompress (C : Codecs) (L : CodecLaws C) (w : world)
    (input_path artifact_path output_path format : string)
    (level : Z) (v : bool) (data : bytes) :
  In format format_tags -> (1 <= level <= 9)%Z ->
  endswith artifact_path ("." +++ format) = true ->
  read_file (disk w) input_path = Ok data ->
  creatable (disk w) artifact_path ->
  creatable (disk (snd (compress_file C input_path artifact_path format level v w)))
            output_path ->
  exists w1 w2,
    compress_file C input_path artifact_path format level v w = (Ok tt, w1)
    /\ (format = "zst" -> read_file (disk w1) artifact_path = Ok data)
    /\ decompress C artifact_path output_path v w1 = (Ok tt, w2)
    /\ read_file (disk w2) (recovered_path format input_path output_path) = Ok data.
Proof.
  intros Hf Hl Hs Hr Ha Ho.
  destruct (compress_file_artifact C input_path artifact_path format level v w data
              Hf Hr Ha) as (w1 & Hc & Hart).
  rewrite Hc in Ho. cbn [snd] in Ho.
  destruct (decompress_artifact C L artifact_path output_path format level v w1
              input_path data Hf Hl Hs Hart (readable_basename_proper _ _ _ Hr) Ho)
    as (w2 & Hd & Hback).
  exists w1, w2. repeat split; auto.
  intros ->. exact Hart.
Qed.

Lemma compress_then_decompress_witness :
  exists w1 w2,
    compress_file Store.codecs "in.txt" "out.tar" "tar" 6 false Sample.w0 = (Ok tt, w1)
    /\ ("tar" = "zst" -> read_file (disk w1) "out.tar" = Ok Sample.abc)
    /\ decompress Store.codecs "out.tar" "restored" false w1 = (Ok tt, w2)
    /\ read_file (disk w2) (recovered_path "tar" "in.txt" "restored") = Ok Sample.abc.
Proof.
  apply (compress_then_decompress Store.codecs StoreFacts.laws Sample.w0
           "in.txt" "out.tar" "restored" "tar" 6%Z false Sample.abc).
  - simpl; auto 10.
  - lia.
  - reflexivity.
  - reflexivity.
  - exists ["out.tar"]. split; reflexivity.
  - exists ["restored"]. split; reflexivity.
Defined.

(** ** The path checks *)

(** C2, as stated, fails where both checks would fail: the input is
    checked first, so a missing input hides an output that exists. *)
Lemma missing_input_hides_existing_output :
  ~ (forall (C : Codecs) (c : call) (w : world),
        Path_exists (disk w) (call_output c) = true ->
        fst (run C c w) = Raise (OutputAlreadyExists (call_output c))).
Proof.
  intros H.
  specialize (H Store.codecs (CompressFile "missing.txt" "old.gz" "gz" 6 false) Sample.w0
                eq_refl).
  vm_compute in H. discriminate.
Qed.

(** C2, amended: for each of the three operations, a missing input path
    makes it fail with PathNotFound, and an existing output path makes it
    fail with OutputAlreadyExists when the input path exists; in both
    cases the world (disk and console) is exactly as before. *)
Theorem path_checks_come_first (C : Codecs) (c : call) (w : world) :
  (Path_exists (disk w) (call_input c) = false ->
     run C c w = (Raise (PathNotFound (call_input c)), w))
  /\ (Path_exists (disk w) (call_input c) = true ->
      Path_exists (disk w) (call_output c) = true ->
      run C c w = (Raise (OutputAlreadyExists (call_output c)), w)).
Proof.
  split; [apply run_missing_input | apply run_taken_output].
Qed.

Lemma path_checks_come_first_witness :
  run Store.codecs (Decompress "missing.gz" "out" false) Sample.w0
  = (Raise (PathNotFound "missing.gz"), Sample.w0)
  /\ run Store.codecs (CompressFile "in.txt" "old.gz" "gz" 6 false) Sample.w0
     = (Raise (OutputAlreadyExists "old.gz"), Sample.w0).
Proof.
  split.
  - apply (proj1 (path_checks_come_first Store.codecs
                    (Decompress "missing.gz" "out" false) Sample.w0)).
    reflexivity.
  - apply (proj2 (path_checks_come_first Store.codecs
                    (CompressFile "in.txt" "old.gz" "gz" 6 false) Sample.w0));
      reflexivity.
Defined.

(** ** Formats that directories do not take *)




(** ** Dispatch of [decompress] *)




(** ** The placeholder format on directories *)

(** C5, as stated for every input directory, fails when the output path
    lies inside the directory.  The output file is opened before the
    walk, so the walk lists it among the files of the directory, and the
    loop reads it like the others: it reads back what the buffer of
    [f_out] has let through to the disk, and writes those bytes once
    more.  A write longer than the buffer goes to the disk at once.  So
    with one file in the directory that is longer than the buffer, and
    the output in a subdirectory, which the walk reaches after the files
    of the directory itself, the output holds the bytes of that file
    twice; the concatenation of the files of the directory holds them
    once. *)
Lemma zst_directory_reads_its_output_back :
  ~ (forall (C : Codecs) (input_path output_path : string) (v : bool) (w : world)
            (li : loc) (n : node),
        wf_node (disk w) ->
        directory_at (disk w) input_path li n ->
        creatable (disk w) output_path ->
        exists w',
          compress_directory C input_path output_path "zst" v w = (Ok tt, w')
          /\ read_file (disk w') output_path = Ok (concat (map snd (files_under n)))).
Proof.
  intros H.
  destruct (H Store.codecs "logs" "logs/sub/out.zst" false Sample.w_logs ["logs"] _
              SampleFacts.logs_tree_wf SampleFacts.logs_directory)
    as (w' & Hrun & Hread).
  - exists ["logs"; "sub"; "out.zst"]. split; reflexivity.
  - assert (E : w' = snd (compress_directory Store.codecs "logs" "logs/sub/out.zst" "zst"
                            false Sample.w_logs)) by now rewrite Hrun.
    rewrite E in Hread.
    apply (f_equal (fun r => match r with
                             | Ok d => Nat.eqb (length d) (length Sample.long)
                             | Raise _ => false
                             end)) in Hread.
    vm_compute in Hread. discriminate.
Qed.

(** C5, amended: for an input directory of a well-formed disk and a
    fresh output path outside it, [compress_directory] with format zst
    succeeds and the output file holds the bytes of the regular files
    below the directory, one after the other and nothing else, in the
    order in which the walk meets them. *)
Theorem zst_directory_is_concatenation (C : Codecs)
    (input_path output_path : string) (v : bool) (w : world) (li : loc) (n : node) :
  wf_node (disk w) ->
  directory_at (disk w) input_path li n ->
  creatable (disk w) output_path ->
  outside (disk w) output_path input_path ->
  exists w',
    compress_directory C input_path output_path "zst" v w = (Ok tt, w')
    /\ read_file (disk w') output_path = Ok (concat (map snd (files_under n)))
    /\ map (read_file (disk w)) (walk_paths (disk w) input_path)
       = map (fun e => Ok (snd e)) (files_under n)
    /\ (forall r d, In (r, d) (files_under n) <-> node_at n r = Some (File d)).
Proof.
  intros Hwf Hdir Hnew Hout.
  destruct (compress_directory_zst C input_path output_path v w li n Hwf Hdir Hnew Hout)
    as (w' & Hrun & Hread).
  exists w'. repeat split; auto.
  - now apply (walk_paths_read _ _ li).
  - apply files_under_sound. apply (wf_node_at (disk w) li); [exact Hwf | apply Hdir].
  - apply files_under_complete. apply Hdir.
Qed.

Lemma zst_directory_is_concatenation_witness :
  exists w',
    compress_directory Store.codecs "docs" "out.zst" "zst" false Sample.w0 = (Ok tt, w')
    /\ read_file (disk w') "out.zst" = Ok [x61; x63; x62; x62].
Proof.
  destruct (zst_directory_is_concatenation Store.codecs "docs" "out.zst" false Sample.w0
              ["docs"] _ SampleFacts.tree_wf SampleFacts.docs_directory)
    as (w' & Hrun & Hread & _).
  - exists ["out.zst"]. split; reflexivity.
  - intros lo li r Hlo Hli. vm_compute in Hlo, Hli.
    injection Hlo as <-. injection Hli as <-. discriminate.
  - exists w'. split; [exact Hrun | exact Hread].
Defined.

(** ** The checksum *)

(** C6: [calculate_checksum] feeds the file to the hash object in chunks
    of 4096 bytes (the last one possibly shorter, none empty) and returns
    the hex digest; for a hash that obeys the law of [hashlib] this is
    the one-shot digest of the whole content.  SHA-256 obeys the law,
    its digest is written in lowercase hex, and for the three bytes [abc]
    the result is the published digest. *)
Theorem checksum_is_the_one_shot_digest :
  (forall (hashlib : Hashlib) (H : HashAlgo) (w : world) (file_path algorithm : string)
          (content : bytes),
      hashlib algorithm = Some H ->
      read_file (disk w) file_path = Ok content ->
      exists chunks,
        concat chunks = content /\ chunked chunks
        /\ calculate_checksum hashlib file_path algorithm w
           = (Ok (hash_hexdigest H (fold_left (hash_update H) chunks (hash_new H))), w)
        /\ (streaming H ->
            calculate_checksum hashlib file_path algorithm w
            = (Ok (one_shot H content), w)))
  /\ streaming Sha256.algo
  /\ (forall s, lowercase_hex (Sha256.hexdigest s) = true)
  /\ chunk_size = 4096
  /\ (forall (hashlib : Hashlib) (w : world) (file_path : string),
        hashlib "sha256" = Some Sha256.algo ->
        read_file (disk w) file_path = Ok [x61; x62; x63] ->
        calculate_checksum hashlib file_path "sha256" w = (Ok sha256_abc, w)).
Proof.
  assert (Hgen : forall (hashlib : Hashlib) (H : HashAlgo) (w : world)
            (file_path algorithm : string) (content : bytes),
      hashlib algorithm = Some H ->
      read_file (disk w) file_path = Ok content ->
      exists chunks,
        concat chunks = content /\ chunked chunks
        /\ calculate_checksum hashlib file_path algorithm w
           = (Ok (hash_hexdigest H (fold_left (hash_update H) chunks (hash_new H))), w)
        /\ (streaming H ->
            calculate_checksum hashlib file_path algorithm w
            = (Ok (one_shot H content), w))).
  { intros hashlib H w file_path algorithm content Ha Hr.
    destruct (calculate_checksum_chunks hashlib H w file_path algorithm content Ha Hr)
      as (cs & Hcat & Hch & Hrun).
    exists cs. repeat split; auto.
    intros Hs. rewrite Hrun, (fold_update_concat H Hs), Hcat. reflexivity. }
  split; [exact Hgen|]. split; [apply sha256_streaming|].
  split; [apply sha256_hexdigest_lowercase|]. split; [reflexivity|].
  intros hashlib w file_path Ha Hr.
  destruct (Hgen hashlib Sha256.algo w file_path "sha256" _ Ha Hr) as (cs & _ & _ & _ & Hone).
  rewrite (Hone sha256_streaming). reflexivity.
Qed.

Lemma checksum_is_the_one_shot_digest_witness :
  calculate_checksum hashlib_sha256 "in.txt" "sha256" Sample.w0 = (Ok sha256_abc, Sample.w0).
Proof.
  apply (proj2 (proj2 (proj2 (proj2 checksum_is_the_one_shot_digest)))); reflexivity.
Defined.

(** ** The tar format of [compress_file] *)

(** C7: with format tar the level has no effect: two runs that differ
    only in the level end in the same result and the same world; and on a
    readable input file and a fresh output path the run succeeds and the
    archive holds exactly one member, the input's bytes as they are,
    named by the input's base name. *)
Theorem tar_ignores_the_level (C : Codecs) (L : CodecLaws C)
    (input_path output_path : string) (v : bool) (w : world) :
  (forall level1 level2 : Z,
      compress_file C input_path output_path "tar" level1 v w
      = compress_file C input_path output_path "tar" level2 v w)
  /\ (forall (level : Z) (data : bytes),
        read_file (disk w) input_path = Ok data ->
        creatable (disk w) output_path ->
        exists w' raw,
          compress_file C input_path output_path "tar" level v w = (Ok tt, w')
          /\ read_file (disk w') output_path = Ok raw
          /\ tar_unpack C raw = Some [RegFile (OsPath.basename input_path) data]).
Proof.
  split; [reflexivity|].
  intros level data Hr Hc.
  destruct (compress_file_artifact C input_path output_path "tar" level v w data)
    as (w' & Hrun & Hart); [simpl; auto 10 | exact Hr | exact Hc |].
  exists w', (artifact C "tar" level input_path data).
  repeat split; auto. apply (tar_roundtrip C L).
Qed.

Lemma tar_ignores_the_level_witness :
  compress_file Store.codecs "in.txt" "out.tar" "tar" 1 false Sample.w0
  = compress_file Store.codecs "in.txt" "out.tar" "tar" 9 false Sample.w0
  /\ exists w' raw,
       compress_file Store.codecs "in.txt" "out.tar" "tar" 1 false Sample.w0 = (Ok tt, w')
       /\ read_file (disk w') "out.tar" = Ok raw
       /\ tar_unpack Store.codecs raw = Some [RegFile "in.txt" Sample.abc].
Proof.
  destruct (tar_ignores_the_level Store.codecs StoreFacts.laws "in.txt" "out.tar" false
              Sample.w0) as [Hsame Hone].
  split; [apply Hsame|].
  apply (Hone 1%Z Sample.abc); [reflexivity|].
  exists ["out.tar"]. split; reflexivity.
Defined.

(** ** The command line *)

(** C8: one invocation of [main] makes at most one call.  With the
    compress flag it is one compress call (of a directory or of a file)
    and the decompress flag is not looked at; with the decompress flag
    alone it is one decompress call; with neither flag nothing is done
    but printing the help text, the disk is untouched and the exit status
    is 0.  On the console, no invocation shows both a compression and a
    decompression. *)
Theorem main_runs_one_operation (C : Codecs) (args : Args) (w : world) :
  (arg_compress args = true ->
     is_compress_call (compress_call args w)
     /\ main C args w = finish (run C (compress_call args w) w))
  /\ (arg_compress args = false -> arg_decompress args = true ->
      main C args w
      = finish (run C (Decompress (arg_input args) (arg_output args) (arg_verbose args)) w))
  /\ (arg_compress args = false -> arg_decompress args = false ->
      main C args w = (0%Z, {| disk := disk w; console := console w ++ [HelpText] |}))
  /\ exists es, console (snd (main C args w)) = console w ++ es
                /\ existsb shows_compress es && existsb shows_decompress es = false.
Proof.
  assert (E : main C args w = finish (dispatch C args w)) by reflexivity.
  assert (H1 : arg_compress args = true ->
     is_compress_call (compress_call args w)
     /\ main C args w = finish (run C (compress_call args w) w)).
  { intros Hc. rewrite E. unfold dispatch, compress_call. rewrite Hc.
    unfold bind, get_disk.
    now destruct (Path_is_dir (disk w) (Path_str (arg_input args))). }
  assert (H2 : arg_compress args = false -> arg_decompress args = true ->
      main C args w
      = finish (run C (Decompress (arg_input args) (arg_output args) (arg_verbose args)) w)).
  { intros Hc Hd. rewrite E. unfold dispatch. now rewrite Hc, Hd. }
  assert (H3 : arg_compress args = false -> arg_decompress args = false ->
      main C args w = (0%Z, {| disk := disk w; console := console w ++ [HelpText] |})).
  { intros Hc Hd. rewrite E. unfold dispatch. now rewrite Hc, Hd. }
  split; [exact H1|]. split; [exact H2|]. split; [exact H3|].
  destruct (arg_compress args) eqn:Hc.
  - destruct (H1 eq_refl) as [Hk ->].
    destruct (call_shows_one_operation C (compress_call args w) w) as (es & Hes & Hd & _).
    exists es. split; [exact Hes|]. rewrite (Hd Hk). apply andb_false_r.
  - destruct (arg_decompress args) eqn:Hd.
    + rewrite (H2 eq_refl eq_refl).
      destruct (call_shows_one_operation C
                  (Decompress (arg_input args) (arg_output args) (arg_verbose args)) w)
        as (es & Hes & _ & Hn).
      exists es. split; [exact Hes|]. rewrite Hn; [reflexivity | intros []].
    + rewrite (H3 eq_refl eq_refl). exists [HelpText]. split; reflexivity.
Qed.

Lemma main_runs_one_operation_witness :
  main Store.codecs Sample.args0 Sample.w0
  = (0%Z, {| disk := disk Sample.w0; console := console Sample.w0 ++ [HelpText] |}).
Proof.
  apply (proj1 (proj2 (proj2 (main_runs_one_operation Store.codecs Sample.args0 Sample.w0))));
    reflexivity.
Defined.

(** ** One exception class *)

(** C10: each of the four domain errors is raised as a [CompressionError]
    that carries nothing but its message: a missing input path, an output
    path that exists, a format [compress_file] or [decompress] does not
    know, and a format [compress_directory] does not take.  No other
    [CompressionError] is ever raised by the three operations, and the
    messages of the four cases never coincide, so the text, and only the
    text, tells them apart. *)
Theorem domain_errors_are_one_class (C : Codecs) :
  (forall c w msg, fst (run C c w) = Raise (CompressionError msg) ->
      In (CompressionError msg) (domain_errors c))
  /\ (forall c w, Path_exists (disk w) (call_input c) = false ->
      fst (run C c w)
      = Raise (CompressionError ("Input path does not exist: " +++ call_input c)))
  /\ (forall c w, Path_exists (disk w) (call_input c) = true ->
        Path_exists (disk w) (call_output c) = true ->
        fst (run C c w)
        = Raise (CompressionError ("Output path already exists: " +++ call_output c)))
  /\ (forall i o f l v w data, read_file (disk w) i = Ok data ->
        Path_exists (disk w) o = false -> ~ In f format_tags ->
        fst (compress_file C i o f l v w)
        = Raise (CompressionError ("Unsupported format: " +++ f)))
  /\ (forall i o v w, Path_exists (disk w) i = true ->
        Path_exists (disk w) o = false -> known_suffix i = false ->
        fst (decompress C i o v w)
        = Raise (CompressionError ("Unsupported format: " +++ i)))
  /\ (forall i o f v w, Path_exists (disk w) i = true ->
        Path_exists (disk w) o = false -> ~ In f ["tar"; "zip"; "zst"] ->
        fst (compress_directory C i o f v w)
        = Raise (CompressionError ("Unsupported format for directories: " +++ f)))
  /\ (forall a b c d,
        PathNotFound a <> OutputAlreadyExists b
        /\ PathNotFound a <> UnsupportedFormat c
        /\ PathNotFound a <> UnsupportedFormatForDirectories d
        /\ OutputAlreadyExists b <> UnsupportedFormat c
        /\ OutputAlreadyExists b <> UnsupportedFormatForDirectories d
        /\ UnsupportedFormat c <> UnsupportedFormatForDirectories d).
Proof.
  split; [|split; [|split; [|split; [|split; [|split]]]]].
  - intros c w msg H. destruct (run_behaves C c w) as [Hr _]. rewrite H in Hr.
    destruct Hr as [[]|Hr]. exact Hr.
  - intros c w H. now rewrite (run_missing_input C c w H).
  - intros c w Hi Ho. now rewrite (run_taken_output C c w Hi Ho).
  - intros i o f l v w data Hr Ho Hf. unfold compress_file.
    rewrite (bind_Ok _ _ _ _ _ (validate_input_path_ok _ _ (readable_exists _ _ _ Hr))).
    rewrite (bind_Ok _ _ _ _ _ (validate_output_path_ok _ _ Ho)).
    rewrite (bind_Ok _ _ _ _ _ (logging_info_run _ w)).
    rewrite (bind_Ok _ _ _ _ _ (read_all_ok _ (logged w _) _ Hr)).
    unfold format_tags in Hf.
    repeat (apply not_in_cons in Hf as [? Hf]).
    repeat match goal with
           | H : f <> _ |- _ => apply String.eqb_neq in H; rewrite H; clear H
           end.
    reflexivity.
  - intros i o v w Hi Ho Hs. now rewrite (decompress_unsupported C i o v w Hi Ho Hs).
  - intros i o f v w Hi Ho Hf. now rewrite (compress_directory_unsupported C i o f v w Hi Ho Hf).
  - apply messages_distinct.
Qed.

Lemma domain_errors_are_one_class_witness :
  fst (run Store.codecs (CompressDirectory "missing" "out.tar" "tar" false) Sample.w0)
  = Raise (CompressionError ("Input path does not exist: missing"))
  /\ fst (compress_file Store.codecs "in.txt" "out.rar" "rar" 6 false Sample.w0)
     = Raise (CompressionError ("Unsupported format: rar")).
Proof.
  destruct (domain_errors_are_one_class Store.codecs) as (_ & H1 & _ & H3 & _).
  split.
  - apply (H1 (CompressDirectory "missing" "out.tar" "tar" false) Sample.w0). reflexivity.
  - apply (H3 "in.txt" "out.rar" "rar" 6%Z false Sample.w0 Sample.abc); try reflexivity.
    simpl. intuition discriminate.
Defined.

(* ================================================================== *)
(** * What the operations come to *)

Module OutcomeFacts.
Import Str FS StrFacts FSFacts PathFacts RunFacts FileFacts TreeFacts.

Lemma mem_In s l : mem s l = true <-> In s l.
Proof.
  unfold mem. rewrite existsb_exists. split.
  - intros (x & Hx & E). apply String.eqb_eq in E. now subst.
  - intros H. exists s. split; [exact H | apply String.eqb_refl].
Qed.

(** [compress_file], step by step, is its list of decisions. *)
Lemma compress_file_run C i o f l v w :
  compress_file C i o f l v w = compress_file_outcome C i o f l v w.
Proof.
  unfold compress_file_outcome, compress_file. cbn [announcement].
  destruct (Path_exists (disk w) i) eqn:Hi; cbn [negb];
    [|apply bind_Raise; now apply validate_input_path_missing].
  rewrite (bind_Ok _ _ _ _ _ (validate_input_path_ok _ _ Hi)).
  destruct (Path_exists (disk w) o) eqn:Ho;
    [apply bind_Raise; now apply validate_output_path_taken|].
  rewrite (bind_Ok _ _ _ _ _ (validate_output_path_ok _ _ Ho)).
  rewrite (bind_Ok _ _ _ _ _ (logging_info_run _ w)).
  set (w0 := logged w _).
  destruct (read_file (disk w) i) as [data|e] eqn:Hr;
    [|apply bind_Raise; rewrite read_all_run; change (disk w0) with (disk w); now rewrite Hr].
  rewrite (bind_Ok _ _ _ _ _ (read_all_ok _ w0 _ Hr)).
  assert (Hstream : forall payload,
    bind (Lib.write_all o payload) (fun _ => logging_info "Compression complete") w0
    = match write_file (disk w) o payload with
      | Ok t' => (Ok tt, logged (with_disk w0 t') "Compression complete")
      | Raise e => (Raise e, w0)
      end).
  { intros payload. unfold bind. rewrite write_all_cases. change (disk w0) with (disk w).
    destruct (write_file (disk w) o payload); reflexivity. }
  assert (Harchive : forall (pack : list member -> bytes)
                            (add : Lib.archive -> string -> string -> M Lib.archive),
    (forall a w' li lo d,
        Lib.arc_name a = OsPath.abspath o /\ Lib.arc_file a = o ->
        locate (disk w') i = Some li -> node_at (disk w') li = Some (File d) ->
        locate (disk w') o = Some lo -> li <> lo ->
        add a i (OsPath.basename i) w'
        = (Ok (Lib.add_members a [RegFile (OsPath.basename i) d]), w')) ->
    bind (bind (Lib.archive_open o) (fun a =>
            bind (add a i (OsPath.basename i)) (fun a =>
              Lib.write_all o (pack (Lib.arc_members a)))))
         (fun _ => logging_info "Compression complete") w0
    = match write_file (disk w) o (pack [RegFile (OsPath.basename i) data]) with
      | Ok t' => (Ok tt, logged (with_disk w0 t') "Compression complete")
      | Raise e => (Raise e, w0)
      end).
  { intros pack add Hadd.
    destruct (write_file (disk w) o []) as [t1|e] eqn:Hw1.
    - pose proof (written_creatable _ _ _ _ Ho Hw1) as Hc.
      destruct (archive_open_fresh o w0 Hc) as (t1' & lo & Hlo & Hno & Hw1' & Hopen).
      change (disk w0) with (disk w) in *.
      assert (t1' = t1) by congruence. subst t1'.
      pose proof (read_kept_by_create _ _ _ _ _ _ Hc Hw1 Hr) as Hr1.
      apply read_file_Ok in Hr1 as (li & Hli & Hni).
      assert (Hne : li <> lo).
      { intros ->. apply read_file_Ok in Hr as (li' & Hli' & Hni').
        rewrite (locate_after_write _ _ _ _ i Hw1) in Hli.
        assert (li' = lo) by congruence. subst. congruence. }
      assert (Hlo1 : locate t1 o = Some lo)
        by now rewrite (locate_after_write _ _ _ _ o Hw1).
      rewrite bind_bind, (bind_Ok _ _ _ _ _ Hopen).
      rewrite bind_bind.
      rewrite (bind_Ok _ _ _ _ _
                 (Hadd {| Lib.arc_name := OsPath.abspath o; Lib.arc_file := o;
                          Lib.arc_members := [] |}
                       (with_disk w0 t1) li lo data (conj eq_refl eq_refl)
                       Hli Hni Hlo1 Hne)).
      cbn [Lib.add_members Lib.arc_members app].
      unfold bind. rewrite write_all_cases.
      change (disk (with_disk w0 t1)) with t1.
      rewrite (write_file_twice _ _ _ _ _ Hw1).
      destruct (write_file_possible _ _ _ (pack [RegFile (OsPath.basename i) data]) _ Hw1)
        as [t2 ->].
      reflexivity.
    - assert (Hfail : forall d, write_file (disk w) o d = Raise e).
      { intros d. destruct (write_file (disk w) o d) as [t2|e2] eqn:E2.
        - destruct (write_file_possible _ _ _ [] _ E2) as [t3 E3]. congruence.
        - apply write_file_error in E2, Hw1. congruence. }
      rewrite Hfail.
      unfold Lib.archive_open, Lib.create. rewrite !bind_bind.
      apply bind_Raise. rewrite write_all_cases. change (disk w0) with (disk w).
      now rewrite Hw1. }
  unfold mem, format_tags, artifact. cbn [existsb].
  destruct (f =? "gz"); cbn [orb]; [apply Hstream|].
  destruct (f =? "xz"); cbn [orb]; [apply Hstream|].
  destruct (f =? "bz2"); cbn [orb]; [apply Hstream|].
  destruct (f =? "zip"); cbn [orb].
  { apply (Harchive (zip_pack C (Some l)) (Lib.zip_write (zip_unfinished C (Some l)))).
    intros a w' l' lo d Ha Hl Hn Hlo Hne. now apply (zip_write_file _ a o _ _ w' l' lo d). }
  destruct (f =? "tar"); cbn [orb].
  { apply (Harchive (tar_pack C) (Lib.tar_add (tar_unfinished C))).
    intros a w' l' lo d Ha Hl Hn Hlo Hne. now apply (tar_add_file _ a o _ _ w' l' lo d). }
  destruct (f =? "zst"); cbn [orb]; [apply Hstream | reflexivity].
Qed.

(** A failure of [compress_file] finds the disk as it was. *)
Lemma compress_file_outcome_failure C i o f l v w e :
  fst (compress_file_outcome C i o f l v w) = Raise e ->
  disk (snd (compress_file_outcome C i o f l v w)) = disk w.
Proof.
  unfold compress_file_outcome.
  destruct (Path_exists (disk w) i); cbn [negb]; [|reflexivity].
  destruct (Path_exists (disk w) o); [reflexivity|].
  destruct (read_file (disk w) i) as [data|e1]; [|reflexivity].
  destruct (mem f format_tags); [|reflexivity].
  destruct (write_file (disk w) o _); [discriminate | reflexivity].
Qed.

(** [compress_file] succeeds on a known format, a readable input and an
    output path that can be created, and on nothing else. *)
Lemma compress_file_outcome_success C i o f l v w :
  fst (compress_file_outcome C i o f l v w) = Ok tt
  <-> In f format_tags /\ (exists data, read_file (disk w) i = Ok data)
      /\ creatable (disk w) o.
Proof.
  unfold compress_file_outcome. split.
  - destruct (Path_exists (disk w) i); cbn [negb]; [|discriminate].
    destruct (Path_exists (disk w) o) eqn:Ho; [discriminate|].
    destruct (read_file (disk w) i) as [data|e1]; [|discriminate].
    destruct (mem f format_tags) eqn:Hf; [|discriminate].
    destruct (write_file (disk w) o _) as [t'|e2] eqn:Hw; [|discriminate].
    intros _. split; [now apply mem_In|]. split; [eauto|].
    apply (written_creatable _ _ _ _ Ho Hw).
  - intros (Hf & (data & Hr) & Hc).
    rewrite (readable_exists _ _ _ Hr), (creatable_not_exists _ _ Hc), Hr.
    cbn [negb]. apply mem_In in Hf. rewrite Hf.
    destruct (creatable_writable _ _ (artifact C f l i data) Hc) as [t' ->]. reflexivity.
Qed.

End OutcomeFacts.

(* ================================================================== *)
(** * The effects of a call on the disk and on the console *)

Module EffectFacts.
Import Str FS StrFacts FSFacts PathFacts RunFacts FileFacts TreeFacts OutcomeFacts.

(** *** Writes to one path *)

Lemma rewritten_trans p t1 t2 t3 :
  rewritten p t1 t2 -> rewritten p t2 t3 -> rewritten p t1 t3.
Proof.
  intros H1 H2. induction H2 as [t|t ta tb d H IH Hw]; [exact H1|].
  eapply rewritten_step; [apply IH; exact H1 | exact Hw].
Qed.

Lemma writes_only_bind {A B} p (m : M A) (k : A -> M B) :
  writes_only p m -> (forall a, writes_only p (k a)) -> writes_only p (bind m k).
Proof.
  intros Hm Hk w. unfold bind. specialize (Hm w).
  destruct (m w) as [[a|e] w']; simpl in *; [|exact Hm].
  eapply rewritten_trans; [exact Hm | apply Hk].
Qed.

Lemma writes_only_still {A} p (m : M A) :
  (forall w, disk (snd (m w)) = disk w) -> writes_only p m.
Proof. intros H w. rewrite H. constructor. Qed.

Lemma writes_only_ret {A} p (a : A) : writes_only p (ret a).
Proof. now apply writes_only_still. Qed.

Lemma writes_only_raise {A} p e : writes_only p (raise (A := A) e).
Proof. now apply writes_only_still. Qed.

Lemma writes_only_get_disk p : writes_only p get_disk.
Proof. now apply writes_only_still. Qed.

Lemma writes_only_logging_info p msg : writes_only p (logging_info msg).
Proof. now apply writes_only_still. Qed.

Lemma writes_only_read_all p q : writes_only p (Lib.read_all q).
Proof. now apply writes_only_still. Qed.

Lemma writes_only_validate_input p q : writes_only p (validate_input_path q).
Proof.
  apply writes_only_still. intros w. unfold validate_input_path, bind, get_disk.
  now destruct (Path_exists (disk w) q).
Qed.

Lemma writes_only_validate_output p q : writes_only p (validate_output_path q).
Proof.
  apply writes_only_still. intros w. unfold validate_output_path, bind, get_disk.
  now destruct (Path_exists (disk w) q).
Qed.

Lemma writes_only_write_all p d : writes_only p (Lib.write_all p d).
Proof.
  intros w. rewrite write_all_cases.
  destruct (write_file (disk w) p d) as [t'|e] eqn:E; simpl; [|constructor].
  eapply rewritten_step; [constructor | exact E].
Qed.

Lemma writes_only_tar_add p u a name arcname :
  writes_only p (Lib.tar_add u a name arcname).
Proof.
  apply writes_only_still. intros w. unfold Lib.tar_add.
  destruct (_ =? _); [reflexivity|].
  unfold bind, get_disk. destruct (locate (disk w) name); [|reflexivity].
  destruct (node_at (disk w) l); [|reflexivity].
  now destruct (Lib.own_file a (disk w) l).
Qed.

Lemma writes_only_zip_write p u a name arcname :
  writes_only p (Lib.zip_write u a name arcname).
Proof.
  apply writes_only_still. intros w. unfold Lib.zip_write, bind, get_disk.
  destruct (locate (disk w) name); [|reflexivity].
  destruct (node_at (disk w) l) as [[d|es]|]; try reflexivity.
  destruct (Lib.own_file a (disk w) l); [|reflexivity].
  now destruct (u _).
Qed.

Lemma writes_only_append_file p d : writes_only p (Lib.append_file p d).
Proof.
  unfold Lib.append_file.
  apply writes_only_bind; [apply writes_only_read_all | intros old].
  apply writes_only_write_all.
Qed.

Lemma writes_only_buffered_write size p buf d :
  writes_only p (Lib.buffered_write size p buf d).
Proof.
  unfold Lib.buffered_write. destruct (_ <=? _)%nat; [apply writes_only_ret|].
  apply writes_only_bind; [apply writes_only_append_file | intros _].
  destruct (_ <? _)%nat; [|apply writes_only_ret].
  apply writes_only_bind; [apply writes_only_append_file | intros _].
  apply writes_only_ret.
Qed.

Lemma writes_only_for_each {A B} p (l : list A) (body : B -> A -> M B) :
  (forall acc x, writes_only p (body acc x)) ->
  forall acc, writes_only p (for_each l acc body).
Proof.
  intros Hb. induction l as [|x l IH]; intros acc; simpl.
  - apply writes_only_ret.
  - apply writes_only_bind; [apply Hb | intros a; apply IH].
Qed.

Lemma writes_only_walk {B} p (step : B -> string -> M B) l :
  (forall acc fp, writes_only p (step acc fp)) ->
  forall acc, writes_only p (for_each l acc (walk_body step)).
Proof.
  intros Hs. apply writes_only_for_each. intros acc [[root dirs] files].
  apply writes_only_for_each. intros acc' file. apply Hs.
Qed.

Lemma writes_only_archive_open p : writes_only p (Lib.archive_open p).
Proof.
  unfold Lib.archive_open, Lib.create.
  apply writes_only_bind; [apply writes_only_write_all | intros _; apply writes_only_ret].
Qed.

Lemma writes_only_copy_decoded decode src dst :
  writes_only dst (Lib.copy_decoded decode src dst).
Proof.
  unfold Lib.copy_decoded, Lib.create.
  apply writes_only_bind; [apply writes_only_read_all | intros raw].
  apply writes_only_bind; [apply writes_only_write_all | intros _].
  destruct (decode raw); [apply writes_only_write_all | apply writes_only_raise].
Qed.

(** A call that does not extract an archive writes to its output path
    and nowhere else. *)
Lemma run_writes_only C c :
  extracting c = false -> writes_only (call_output c) (run C c).
Proof.
  intros Hx. destruct c as [i o f l v | i o f v | i o v];
    cbn [run call_output extracting] in *.
  - unfold compress_file.
    apply writes_only_bind; [apply writes_only_validate_input | intros _].
    apply writes_only_bind; [apply writes_only_validate_output | intros _].
    apply writes_only_bind; [apply writes_only_logging_info | intros _].
    apply writes_only_bind; [apply writes_only_read_all | intros data].
    apply writes_only_bind; [|intros _; apply writes_only_logging_info].
    destruct (f =? "gz"); [apply writes_only_write_all|].
    destruct (f =? "xz"); [apply writes_only_write_all|].
    destruct (f =? "bz2"); [apply writes_only_write_all|].
    destruct (f =? "zip").
    { apply writes_only_bind; [apply writes_only_archive_open | intros a].
      apply writes_only_bind; [apply writes_only_zip_write | intros a'].
      apply writes_only_write_all. }
    destruct (f =? "tar").
    { apply writes_only_bind; [apply writes_only_archive_open | intros a].
      apply writes_only_bind; [apply writes_only_tar_add | intros a'].
      apply writes_only_write_all. }
    destruct (f =? "zst"); [apply writes_only_write_all | apply writes_only_raise].
  - unfold compress_directory.
    apply writes_only_bind; [apply writes_only_validate_input | intros _].
    apply writes_only_bind; [apply writes_only_validate_output | intros _].
    apply writes_only_bind; [apply writes_only_logging_info | intros _].
    apply writes_only_bind; [|intros _; apply writes_only_logging_info].
    destruct (f =? "tar").
    { apply writes_only_bind; [apply writes_only_archive_open | intros a].
      apply writes_only_bind; [apply writes_only_get_disk | intros t].
      apply writes_only_bind; [|intros a'; apply writes_only_write_all].
      apply (writes_only_walk o
               (fun a fp => Lib.tar_add (tar_unfinished C) a fp (OsPath.relpath fp i))).
      intros acc fp. apply writes_only_tar_add. }
    destruct (f =? "zip").
    { apply writes_only_bind; [apply writes_only_archive_open | intros a].
      apply writes_only_bind; [apply writes_only_get_disk | intros t].
      apply writes_only_bind; [|intros a'; apply writes_only_write_all].
      apply (writes_only_walk o
               (fun a fp => Lib.zip_write (zip_unfinished C None) a fp (OsPath.relpath fp i))).
      intros acc fp. apply writes_only_zip_write. }
    destruct (f =? "zst"); [|apply writes_only_raise].
    apply writes_only_bind; [apply writes_only_write_all | intros _].
    apply writes_only_bind; [apply writes_only_get_disk | intros t].
    apply writes_only_bind; [|intros a'; apply writes_only_append_file].
    apply (writes_only_walk o
             (fun (acc : bytes) fp =>
                data <- Lib.read_all fp ;;
                Lib.buffered_write (open_buffer_size C) o acc data)).
    intros acc fp. apply writes_only_bind; [apply writes_only_read_all | intros d].
    apply writes_only_buffered_write.
  - apply orb_false_iff in Hx as [Hzip Htar]. unfold decompress.
    apply writes_only_bind; [apply writes_only_validate_input | intros _].
    apply writes_only_bind; [apply writes_only_validate_output | intros _].
    apply writes_only_bind; [apply writes_only_logging_info | intros _].
    apply writes_only_bind; [|intros _; apply writes_only_logging_info].
    rewrite Hzip, Htar.
    destruct (endswith i ".gz"); [apply writes_only_copy_decoded|].
    destruct (endswith i ".xz"); [apply writes_only_copy_decoded|].
    destruct (endswith i ".bz2"); [apply writes_only_copy_decoded|].
    destruct (endswith i ".zst"); [apply writes_only_copy_decoded | apply writes_only_raise].
Qed.

(** Writes to a path that did not exist leave every other path where it
    was, every directory a directory, and every regular file as it was. *)
Lemma rewritten_keeps p t t' :
  Path_exists t p = false -> rewritten p t t' ->
  (forall q, locate t' q = locate t q)
  /\ (forall l, is_dir_at t' l = is_dir_at t l)
  /\ (forall l d, node_at t l = Some (File d) -> node_at t' l = Some (File d)).
Proof.
  intros Hnew. induction 1 as [t|t t1 t2 d Hrw IH Hw]; [auto|].
  destruct (IH Hnew) as (Hloc & Hdir & Hfiles).
  pose proof (locate_after_write _ _ _ _ p Hw) as Hlp.
  assert (Hlocs : forall q, locate t2 q = locate t q).
  { intros q. now rewrite (locate_after_write _ _ _ _ q Hw). }
  apply write_file_Ok in Hw as (l & Hl & Hnd & Hp).
  split; [exact Hlocs|]. split.
  - intros l'. now rewrite (is_dir_at_put_file _ _ _ _ Hp Hnd).
  - intros l' d0 Hf. pose proof (Hfiles _ _ Hf) as Hf1.
    rewrite <- Hf1. apply (node_at_put_apart _ _ _ _ _ Hp).
    + intros [|c r] E.
      * rewrite app_nil_r in E. subst l'.
        rewrite Hloc in Hl. unfold Path_exists in Hnew.
        rewrite (locate_Path_node _ _ _ Hl), Hf in Hnew. discriminate.
      * subst l. apply put_at_prefix_dir in Hp.
        unfold is_dir_at in Hp. now rewrite Hf1 in Hp.
    + intros [|c r] E.
      * rewrite app_nil_r in E. subst l'.
        rewrite Hloc in Hl. unfold Path_exists in Hnew.
        rewrite (locate_Path_node _ _ _ Hl), Hf in Hnew. discriminate.
      * subst l'. apply node_at_above in Hf1. congruence.
Qed.

Lemma rewritten_read p t t' q d :
  Path_exists t p = false -> rewritten p t t' ->
  read_file t q = Ok d -> read_file t' q = Ok d.
Proof.
  intros Hnew Hrw Hq. destruct (rewritten_keeps _ _ _ Hnew Hrw) as (Hloc & _ & Hfiles).
  apply read_file_Ok in Hq as (l & Hl & Hn). apply read_file_Ok.
  exists l. split; [now rewrite Hloc | now apply Hfiles].
Qed.

Lemma rewritten_exists p t t' q :
  Path_exists t p = false -> rewritten p t t' ->
  Path_exists t q = true -> Path_exists t' q = true.
Proof.
  intros Hnew Hrw. destruct (rewritten_keeps _ _ _ Hnew Hrw) as (_ & Hdir & Hfiles).
  unfold Path_exists, Path_node. rewrite (resolve_ext t t' Hdir).
  destruct (resolve t [] (pure_parts q)) as [l|]; [|discriminate].
  destruct (node_at t l) as [[d|es]|] eqn:E; [| |discriminate]; intros _.
  - now rewrite (Hfiles _ _ E).
  - assert (H : is_dir_at t' l = true) by (rewrite Hdir; unfold is_dir_at; now rewrite E).
    unfold is_dir_at in H. now destruct (node_at t' l).
Qed.

(** *** Calls that leave their output *)

Lemma leaves_file_bind {A B} p (m : M A) (k : A -> M B) :
  (forall a, leaves_file p (k a)) -> leaves_file p (bind m k).
Proof.
  intros Hk w b w' H. apply bind_Ok_inv in H as (a & w1 & _ & H). eapply Hk, H.
Qed.

Lemma leaves_file_log {A} p (m : M A) msg :
  leaves_file p m -> leaves_file p (bind m (fun _ => logging_info msg)).
Proof.
  intros Hm w b w' H. apply bind_Ok_inv in H as (a & w1 & Hm1 & H).
  injection H as _ <-. apply (Hm _ _ _ Hm1).
Qed.

Lemma leaves_file_raise {A} p e : leaves_file p (raise (A := A) e).
Proof. intros w a w' H. discriminate. Qed.

Lemma leaves_file_write_all p d : leaves_file p (Lib.write_all p d).
Proof.
  intros w a w' H. rewrite write_all_cases in H.
  destruct (write_file (disk w) p d) as [t'|e] eqn:E; [|discriminate].
  injection H as _ <-. exists d. now apply read_after_write in E.
Qed.

Lemma leaves_file_copy_decoded decode src dst :
  leaves_file dst (Lib.copy_decoded decode src dst).
Proof.
  unfold Lib.copy_decoded. apply leaves_file_bind. intros raw.
  apply leaves_file_bind. intros _.
  destruct (decode raw); [apply leaves_file_write_all | apply leaves_file_raise].
Qed.

Lemma run_leaves_file C c :
  extracting c = false -> leaves_file (call_output c) (run C c).
Proof.
  intros Hx.
  assert (Harchive : forall A B (o : string) (m1 : M A) (m2 : A -> M B) (x : B -> bytes),
            leaves_file o (bind m1 (fun a => bind (m2 a) (fun b => Lib.write_all o (x b))))).
  { intros. apply leaves_file_bind. intros a. apply leaves_file_bind. intros b.
    apply leaves_file_write_all. }
  destruct c as [i o f l v | i o f v | i o v];
    cbn [run call_output extracting] in *.
  - unfold compress_file.
    apply leaves_file_bind. intros _. apply leaves_file_bind. intros _.
    apply leaves_file_bind. intros _. apply leaves_file_bind. intros data.
    apply leaves_file_log.
    destruct (f =? "gz"); [apply leaves_file_write_all|].
    destruct (f =? "xz"); [apply leaves_file_write_all|].
    destruct (f =? "bz2"); [apply leaves_file_write_all|].
    destruct (f =? "zip"); [apply Harchive|].
    destruct (f =? "tar"); [apply Harchive|].
    destruct (f =? "zst"); [apply leaves_file_write_all | apply leaves_file_raise].
  - unfold compress_directory.
    apply leaves_file_bind. intros _. apply leaves_file_bind. intros _.
    apply leaves_file_bind. intros _. apply leaves_file_log.
    destruct (f =? "tar").
    { apply leaves_file_bind. intros a. apply Harchive. }
    destruct (f =? "zip").
    { apply leaves_file_bind. intros a. apply Harchive. }
    destruct (f =? "zst"); [|apply leaves_file_raise].
    apply leaves_file_bind. intros _. apply leaves_file_bind. intros t.
    apply leaves_file_bind. intros f_out. unfold Lib.append_file.
    apply leaves_file_bind. intros old. apply leaves_file_write_all.
  - apply orb_false_iff in Hx as [Hzip Htar]. unfold decompress.
    apply leaves_file_bind. intros _. apply leaves_file_bind. intros _.
    apply leaves_file_bind. intros _. apply leaves_file_log.
    rewrite Hzip, Htar.
    destruct (endswith i ".gz"); [apply leaves_file_copy_decoded|].
    destruct (endswith i ".xz"); [apply leaves_file_copy_decoded|].
    destruct (endswith i ".bz2"); [apply leaves_file_copy_decoded|].
    destruct (endswith i ".zst"); [apply leaves_file_copy_decoded | apply leaves_file_raise].
Qed.

(** A call that succeeds found its input and no output. *)
Lemma run_Ok_paths C c w w' :
  run C c w = (Ok tt, w') ->
  Path_exists (disk w) (call_input c) = true
  /\ Path_exists (disk w) (call_output c) = false.
Proof.
  intros H.
  destruct (Path_exists (disk w) (call_input c)) eqn:Hi.
  - destruct (Path_exists (disk w) (call_output c)) eqn:Ho; [|auto].
    rewrite (run_taken_output C c w Hi Ho) in H. discriminate.
  - rewrite (run_missing_input C c w Hi) in H. discriminate.
Qed.

End EffectFacts.

(* ================================================================== *)
(** * The log, the decoders, and calls at the edge *)

Module CallFacts.
Import Str FS StrFacts FSFacts PathFacts RunFacts ChecksumFacts FileFacts WalkFacts DirFacts.
Import TreeFacts OutcomeFacts EffectFacts.

(** *** What reaches the console *)

Lemma quiet_bind {A B} (m : M A) (k : A -> M B) :
  quiet m -> (forall a, quiet (k a)) -> quiet (bind m k).
Proof.
  intros Hm Hk w. unfold bind. specialize (Hm w).
  destruct (m w) as [[a|e] w']; simpl in *; [|exact Hm].
  now rewrite Hk.
Qed.

Lemma quiet_library {A} (m : M A) : library_only m -> quiet m.
Proof.
  intros H w. destruct (H w) as [_ (es & Hc & HF)].
  destruct es as [|ev es]; [now rewrite app_nil_r in Hc|].
  inversion HF as [|? ? []].
Qed.

Lemma quiet_raise {A} e : quiet (raise (A := A) e).
Proof. intros w. reflexivity. Qed.

(** Past its two checks, a call is its announcement, a quiet body, and
    its last line. *)
Lemma run_enter C c w :
  Path_exists (disk w) (call_input c) = true ->
  Path_exists (disk w) (call_output c) = false ->
  exists body : M unit,
    quiet body
    /\ run C c w = bind body (fun _ => logging_info (completion c))
                        (logged w (announcement c)).
Proof.
  intros Hi Ho.
  destruct c as [i o f l v | i o f v | i o v];
    cbn [run call_input call_output announcement completion] in *.
  - eexists. split; [|unfold compress_file;
      rewrite (bind_Ok _ _ _ _ _ (validate_input_path_ok _ _ Hi));
      rewrite (bind_Ok _ _ _ _ _ (validate_output_path_ok _ _ Ho));
      rewrite (bind_Ok _ _ _ _ _ (logging_info_run _ w));
      rewrite <- bind_bind; reflexivity].
    apply quiet_bind; [apply quiet_library, library_only_read_all | intros data].
    destruct (f =? "gz"); [apply quiet_library, library_only_write_all|].
    destruct (f =? "xz"); [apply quiet_library, library_only_write_all|].
    destruct (f =? "bz2"); [apply quiet_library, library_only_write_all|].
    destruct (f =? "zip").
    { apply quiet_library.
      apply library_only_bind; [apply library_only_archive_open | intros a].
      apply library_only_bind; [apply library_only_zip_write | intros a'].
      apply library_only_write_all. }
    destruct (f =? "tar").
    { apply quiet_library.
      apply library_only_bind; [apply library_only_archive_open | intros a].
      apply library_only_bind; [apply library_only_tar_add | intros a'].
      apply library_only_write_all. }
    destruct (f =? "zst"); [apply quiet_library, library_only_write_all | apply quiet_raise].
  - eexists. split; [|unfold compress_directory;
      rewrite (bind_Ok _ _ _ _ _ (validate_input_path_ok _ _ Hi));
      rewrite (bind_Ok _ _ _ _ _ (validate_output_path_ok _ _ Ho));
      rewrite (bind_Ok _ _ _ _ _ (logging_info_run _ w)); reflexivity].
    destruct (f =? "tar").
    { apply quiet_library.
      apply library_only_bind; [apply library_only_archive_open | intros a].
      apply library_only_bind; [apply library_only_get_disk | intros t].
      apply library_only_bind; [|intros a'; apply library_only_write_all].
      apply (library_only_walk
               (fun a fp => Lib.tar_add (tar_unfinished C) a fp (OsPath.relpath fp i))).
      intros acc fp. apply library_only_tar_add. }
    destruct (f =? "zip").
    { apply quiet_library.
      apply library_only_bind; [apply library_only_archive_open | intros a].
      apply library_only_bind; [apply library_only_get_disk | intros t].
      apply library_only_bind; [|intros a'; apply library_only_write_all].
      apply (library_only_walk
               (fun a fp => Lib.zip_write (zip_unfinished C None) a fp (OsPath.relpath fp i))).
      intros acc fp. apply library_only_zip_write. }
    destruct (f =? "zst"); [|apply quiet_raise].
    apply quiet_library.
    apply library_only_bind; [apply library_only_write_all | intros _].
    apply library_only_bind; [apply library_only_get_disk | intros t].
    apply library_only_bind; [|intros a'; apply library_only_append_file].
    apply (library_only_walk
             (fun (acc : bytes) fp =>
                data <- Lib.read_all fp ;;
                Lib.buffered_write (open_buffer_size C) o acc data)).
    intros acc fp. apply library_only_bind; [apply library_only_read_all | intros d].
    apply library_only_buffered_write.
  - eexists. split; [|unfold decompress;
      rewrite (bind_Ok _ _ _ _ _ (validate_input_path_ok _ _ Hi));
      rewrite (bind_Ok _ _ _ _ _ (validate_output_path_ok _ _ Ho));
      rewrite (bind_Ok _ _ _ _ _ (logging_info_run _ w)); reflexivity].
    destruct (endswith i ".gz"); [apply quiet_library, library_only_copy_decoded|].
    destruct (endswith i ".xz"); [apply quiet_library, library_only_copy_decoded|].
    destruct (endswith i ".bz2"); [apply quiet_library, library_only_copy_decoded|].
    destruct (endswith i ".zip"); [apply quiet_library, library_only_extractall|].
    destruct (endswith i ".tar"); [apply quiet_library, library_only_extractall|].
    destruct (endswith i ".zst"); [apply quiet_library, library_only_copy_decoded|].
    apply quiet_raise.
Qed.

(** *** Decoders *)

(** With a decoder for its suffix, [decompress] past its checks is the
    copy through that decoder. *)
Lemma decompress_stream_enter C i o v w dec :
  stream_decoder C i = Some dec ->
  Path_exists (disk w) i = true -> Path_exists (disk w) o = false ->
  decompress C i o v w
  = bind (Lib.copy_decoded dec i o) (fun _ => logging_info "Decompression complete")
         (logged w (announcement (Decompress i o v))).
Proof.
  intros Hdec Hi Ho. unfold decompress.
  rewrite (bind_Ok _ _ _ _ _ (validate_input_path_ok _ _ Hi)).
  rewrite (bind_Ok _ _ _ _ _ (validate_output_path_ok _ _ Ho)).
  rewrite (bind_Ok _ _ _ _ _ (logging_info_run _ w)).
  unfold stream_decoder in Hdec. cbn [announcement].
  destruct (endswith i ".gz"); [now injection Hdec as <-|].
  destruct (endswith i ".xz"); [now injection Hdec as <-|].
  destruct (endswith i ".bz2"); [now injection Hdec as <-|].
  destruct (endswith i ".zip"); [discriminate|].
  destruct (endswith i ".tar"); [discriminate|].
  destruct (endswith i ".zst"); [now injection Hdec as <-|discriminate].
Qed.

Lemma stream_decoder_zst C i dec raw :
  endswith i ".zst" = true -> stream_decoder C i = Some dec -> dec raw = Some raw.
Proof.
  intros Hs. unfold stream_decoder.
  rewrite (suffix_exclusive i ".zst" ".gz" Hs eq_refl eq_refl).
  rewrite (suffix_exclusive i ".zst" ".xz" Hs eq_refl eq_refl).
  rewrite (suffix_exclusive i ".zst" ".bz2" Hs eq_refl eq_refl).
  rewrite (suffix_exclusive i ".zst" ".zip" Hs eq_refl eq_refl).
  rewrite (suffix_exclusive i ".zst" ".tar" Hs eq_refl eq_refl).
  rewrite Hs. now intros [= <-].
Qed.

(** The copy through a decoder: the output is created before a byte is
    decoded, and stays when the decoding fails. *)
Lemma copy_decoded_cases dec src dst w raw :
  read_file (disk w) src = Ok raw -> creatable (disk w) dst ->
  exists t1, write_file (disk w) dst [] = Ok t1
    /\ match dec raw with
       | Some data =>
           exists t2, write_file (disk w) dst data = Ok t2
                      /\ Lib.copy_decoded dec src dst w = (Ok tt, with_disk w t2)
       | None => Lib.copy_decoded dec src dst w = (Raise CodecError, with_disk w t1)
       end.
Proof.
  intros Hr Hc. destruct (creatable_writable _ _ [] Hc) as [t1 Hw1].
  exists t1. split; [exact Hw1|]. unfold Lib.copy_decoded, Lib.create.
  rewrite (bind_Ok _ _ _ _ _ (read_all_ok _ _ _ Hr)).
  rewrite (bind_Ok _ _ _ _ _ (write_all_run _ _ _ _ Hw1)).
  destruct (dec raw) as [data|]; [|reflexivity].
  destruct (creatable_writable _ _ data Hc) as [t2 Hw2].
  exists t2. split; [exact Hw2|].
  rewrite write_all_cases. change (disk (with_disk w t1)) with t1.
  now rewrite (write_file_twice _ _ _ _ _ Hw1), Hw2.
Qed.

(** *** [compress_directory] on what is no directory *)

(** When the walk of the input meets nothing, the output is an archive
    without members. *)
Lemma compress_directory_nothing_walked C i o f v w :
  In f directory_tags -> Path_exists (disk w) i = true -> creatable (disk w) o ->
  (forall t1, write_file (disk w) o [] = Ok t1 -> os_walk t1 i = []) ->
  exists w', compress_directory C i o f v w = (Ok tt, w')
             /\ read_file (disk w') o
                = Ok (if f =? "tar" then tar_pack C []
                      else if f =? "zip" then zip_pack C None [] else [])
             /\ rewritten o (disk w) (disk w').
Proof.
  intros Hf Hi Hc Hnothing. unfold compress_directory.
  rewrite (bind_Ok _ _ _ _ _ (validate_input_path_ok _ _ Hi)).
  rewrite (bind_Ok _ _ _ _ _ (validate_output_path_ok _ _ (creatable_not_exists _ _ Hc))).
  rewrite (bind_Ok _ _ _ _ _ (logging_info_run _ w)).
  set (w0 := logged w _).
  destruct (archive_open_fresh o w0 Hc) as (t1 & lo & Hlo & Hno & Hw1 & Hopen).
  change (disk w0) with (disk w) in *.
  pose proof (Hnothing t1 Hw1) as Hwalk.
  assert (Hend : forall payload,
    exists w', bind (Lib.write_all o payload)
                    (fun _ => logging_info "Compression complete") (with_disk w0 t1)
               = (Ok tt, w')
               /\ read_file (disk w') o = Ok payload /\ rewritten o (disk w) (disk w')).
  { intros payload. destruct (write_again _ _ _ _ payload Hw1) as (t2 & Hw2).
    eexists. rewrite (bind_Ok _ _ _ _ _ (write_all_run _ _ (with_disk w0 t1) t2 Hw2)).
    split; [reflexivity|]. cbn [logging_info emit snd disk with_disk]. split.
    - now apply read_after_write in Hw2.
    - eapply rewritten_step; [eapply rewritten_step; [constructor | exact Hw1] | exact Hw2]. }
  unfold directory_tags in Hf. simpl in Hf.
  destruct Hf as [<-|[<-|[<-|[]]]]; cbn [String.eqb Ascii.eqb Bool.eqb].
  - rewrite bind_bind, (bind_Ok _ _ _ _ _ Hopen).
    rewrite bind_bind, (bind_Ok _ _ _ _ _ (get_disk_run _)).
    change (disk (with_disk w0 t1)) with t1. rewrite Hwalk. cbn [for_each].
    rewrite bind_bind. unfold ret at 1. unfold bind at 2. cbn [Lib.arc_members].
    apply Hend.
  - rewrite bind_bind, (bind_Ok _ _ _ _ _ Hopen).
    rewrite bind_bind, (bind_Ok _ _ _ _ _ (get_disk_run _)).
    change (disk (with_disk w0 t1)) with t1. rewrite Hwalk. cbn [for_each].
    rewrite bind_bind. unfold ret at 1. unfold bind at 2. cbn [Lib.arc_members].
    apply Hend.
  - unfold Lib.create.
    rewrite bind_bind, (bind_Ok _ _ _ _ _ (write_all_run _ _ w0 t1 Hw1)).
    rewrite bind_bind, (bind_Ok _ _ _ _ _ (get_disk_run _)).
    change (disk (with_disk w0 t1)) with t1. rewrite Hwalk. cbn [for_each].
    destruct (append_file_run w0 o [] t1 [] Hw1) as (t2 & Hw2 & Hclose).
    eexists. unfold bind, ret. cbn beta iota. rewrite Hclose.
    split; [reflexivity|]. cbn [logging_info emit snd disk with_disk]. split.
    + now apply read_after_write in Hw2.
    + eapply rewritten_step; [constructor | exact Hw2].
Qed.

Lemma compress_directory_of_file C i o f v w data :
  In f directory_tags -> read_file (disk w) i = Ok data -> creatable (disk w) o ->
  exists w', compress_directory C i o f v w = (Ok tt, w')
             /\ read_file (disk w') o
                = Ok (if f =? "tar" then tar_pack C []
                      else if f =? "zip" then zip_pack C None [] else [])
             /\ read_file (disk w') i = Ok data.
Proof.
  intros Hf Hr Hc.
  destruct (compress_directory_nothing_walked C i o f v w Hf (readable_exists _ _ _ Hr) Hc)
    as (w' & Hrun & Hread & Hrw).
  - intros t1 Hw1. pose proof (read_kept_by_create _ _ _ _ _ _ Hc Hw1 Hr) as Hr1.
    apply read_file_Ok in Hr1 as (li & Hli & Hni). unfold os_walk. now rewrite Hli, Hni.
  - exists w'. split; [exact Hrun|]. split; [exact Hread|].
    apply (rewritten_read o (disk w)); auto. now apply creatable_not_exists.
Qed.

(** *** A decoder that accepts *)

Lemma decompress_stream_run C i o v w dec raw data :
  stream_decoder C i = Some dec -> read_file (disk w) i = Ok raw ->
  creatable (disk w) o -> dec raw = Some data ->
  exists w', decompress C i o v w = (Ok tt, w') /\ read_file (disk w') o = Ok data.
Proof.
  intros Hdec Hr Hc Hd.
  rewrite (decompress_stream_enter C i o v w dec Hdec
             (readable_exists _ _ _ Hr) (creatable_not_exists _ _ Hc)).
  set (w0 := logged w _).
  destruct (copy_decoded_run dec i o w0 raw data Hr Hc Hd) as (w' & Hrun & Hread).
  eexists. rewrite (bind_Ok _ _ _ _ _ Hrun). split; [reflexivity | exact Hread].
Qed.

(** *** The checksum, where it fails *)

Lemma calculate_checksum_world hashlib p alg w :
  snd (calculate_checksum hashlib p alg w) = w.
Proof.
  unfold calculate_checksum. destruct (hashlib alg) as [H|]; [|reflexivity].
  unfold bind. rewrite read_all_run.
  destruct (read_file (disk w) p) as [f|e]; [|reflexivity].
  now destruct (read_chunks H (S (length f)) f (hash_new H)).
Qed.

End CallFacts.

(* ================================================================== *)
(** * Extraction: the files of an archive, put below a fresh path *)

Module ExtractFacts.
Import Str FS StrFacts FSFacts PathFacts RunFacts FileFacts WalkFacts DirFacts.
Import TreeFacts OutcomeFacts EffectFacts CallFacts.

(** Two locations: one is below the other, or they lie apart. *)
Lemma loc_compare (l : loc) : forall l',
  (exists r, l' = l ++ r) \/ (exists c r, l = l' ++ c :: r)
  \/ ((forall r, l <> l' ++ r) /\ (forall r, l' <> l ++ r)).
Proof.
  induction l as [|c rest IH]; intros l'; [left; now exists l'|].
  destruct l' as [|c' rest']; [right; left; now exists c, rest|].
  destruct (string_dec c c') as [<-|Hne].
  - destruct (IH rest') as [(r & ->)|[(c2 & r & ->)|[H1 H2]]].
    + left. now exists r.
    + right; left. now exists c2, r.
    + right; right. split; intros r [= E]; [now apply (H1 r) | now apply (H2 r)].
  - right; right. split; intros r [= E _]; congruence.
Qed.

(** *** [makedirs] *)





(** *** Resolution to a node that exists *)


(** *** Names in an archive *)






Lemma node_at_dir_inv t l : is_dir_at t l = true -> exists es, node_at t l = Some (Dir es).
Proof.
  unfold is_dir_at. destruct (node_at t l) as [[d|es]|]; try discriminate. eauto.
Qed.

(** *** One member *)



(** *** All members *)





(** The places of a well-formed tree are made of proper names. *)
Lemma node_at_proper t : forall l x,
  wf_node t -> node_at t l = Some x -> Forall (fun c => proper_name c = true) l.
Proof.
  intros l; revert t; induction l as [|c l IH]; intros t x Hwf H; [constructor|].
  cbn [node_at] in H. destruct t as [d|es]; [discriminate|].
  destruct (lookup_entry c es) as [y|] eqn:E; [|discriminate].
  apply lookup_entry_Some in E. apply wf_node_Dir in Hwf as [_ Hall].
  destruct (Hall c y E) as [Hp Hy]. constructor; [exact Hp | apply (IH y x Hy H)].
Qed.




End ExtractFacts.

(* ================================================================== *)
(** * An archive inside the directory it archives *)

Module InsideFacts.
Import Str FS StrFacts FSFacts PathFacts RunFacts FileFacts WalkFacts DirFacts.
Import TreeFacts OutcomeFacts EffectFacts CallFacts ExtractFacts.

(** *** Entries *)

Lemma lookup_entry_None es c : lookup_entry c es = None -> ~ In c (map fst es).
Proof.
  induction es as [|[k z] es IH]; simpl; [auto|].
  destruct (String.eqb_spec k c) as [->|Hne]; [discriminate|].
  intros H [E|Hin]; [contradiction | now apply IH].
Qed.

Lemma set_entry_absent es c x : lookup_entry c es = None -> set_entry c x es = es ++ [(c, x)].
Proof.
  induction es as [|[k z] es IH]; simpl; [reflexivity|].
  destruct (k =? c); [discriminate|]. intros H. now rewrite IH.
Qed.

Lemma in_names_set_entry es c x k :
  In k (map fst (set_entry c x es)) -> k = c \/ In k (map fst es).
Proof.
  induction es as [|[k' z] es IH]; simpl.
  - intros [<-|[]]. now left.
  - destruct (String.eqb_spec k' c) as [->|Hne]; simpl.
    + intros [<-|H]; auto.
    + intros [<-|H]; [auto|]. destruct (IH H); auto.
Qed.

Lemma NoDup_set_entry es c x : NoDup (map fst es) -> NoDup (map fst (set_entry c x es)).
Proof.
  induction es as [|[k z] es IH]; simpl; intros H.
  - constructor; [intros [] | constructor].
  - inversion H as [|? ? Hnotin Hnd]; subst.
    destruct (String.eqb_spec k c) as [->|Hne]; simpl; [now constructor|].
    constructor; [|now apply IH].
    intros Hin. apply in_names_set_entry in Hin as [->|Hin]; contradiction.
Qed.

Lemma Forall_set_entry (Q : string * node -> Prop) es c x :
  Forall Q es -> Q (c, x) -> Forall Q (set_entry c x es).
Proof.
  intros HF Hq. induction HF as [|[k z] es Hk HF IH]; simpl.
  - now constructor.
  - destruct (String.eqb_spec k c) as [->|Hne]; constructor; auto.
Qed.

Lemma wf_set_entry es c x :
  wf_node (Dir es) -> proper_name c = true -> wf_node x -> wf_node (Dir (set_entry c x es)).
Proof.
  intros Hwf Hc Hx. inversion Hwf as [|? Hnd Hp Hch]; subst.
  constructor; [now apply NoDup_set_entry | now apply Forall_set_entry..].
Qed.

(** A write along proper names keeps a tree well formed. *)
Lemma wf_put r : forall n n' x,
  wf_node n -> wf_node x -> put_at n r x = Some n' ->
  Forall (fun c => proper_name c = true) r -> wf_node n'.
Proof.
  induction r as [|c rest IH]; intros n n' x Hwf Hx Hput Hp.
  - now injection Hput as <-.
  - inversion Hp as [|? ? Hc Hrest]; subst.
    destruct n as [d|es]; [discriminate|]. cbn [put_at] in Hput.
    destruct rest as [|c2 rest2].
    + injection Hput as <-. now apply wf_set_entry.
    + destruct (lookup_entry c es) as [y|] eqn:Ey; [|discriminate].
      destruct (put_at y (c2 :: rest2) x) as [y'|] eqn:Ep; [|discriminate].
      injection Hput as <-. apply wf_set_entry; auto.
      apply (IH y y' x); auto.
      apply lookup_entry_Some in Ey. apply wf_node_Dir in Hwf as [_ Hall].
      apply (Hall c y Ey).
Qed.

(** A write below a node is a write into that node. *)
Lemma put_at_deep l : forall t t' n r x,
  put_at t (l ++ r) x = Some t' -> node_at t l = Some n -> r <> [] ->
  exists n', put_at n r x = Some n' /\ node_at t' l = Some n'.
Proof.
  induction l as [|c l IH]; intros t t' n r x Hput Hn Hr.
  - simpl in *. injection Hn as <-. eauto.
  - cbn [app node_at] in *. destruct t as [d|es]; [discriminate|].
    cbn [put_at] in Hput.
    destruct (lookup_entry c es) as [y|] eqn:Ey; [|discriminate].
    destruct (l ++ r) as [|c2 rest2] eqn:E; [now apply app_eq_nil in E as [_ E]|].
    destruct (put_at y (c2 :: rest2) x) as [y'|] eqn:Ep; [|discriminate].
    injection Hput as <-. rewrite <- E in Ep.
    destruct (IH y y' n r x Ep Hn Hr) as (n' & Hp' & Hn').
    exists n'. split; [exact Hp'|]. now rewrite lookup_set_same.
Qed.

(** *** The files below a node, after one more file was put there *)

Lemma same_parts_true a b : Lib.same_parts a b = true <-> a = b.
Proof. unfold Lib.same_parts. destruct (list_eq_dec string_dec a b); split; congruence. Qed.

Lemma same_parts_app l a b : Lib.same_parts (l ++ a) (l ++ b) = Lib.same_parts a b.
Proof.
  destruct (Lib.same_parts a b) eqn:E.
  - apply same_parts_true in E as ->. now apply same_parts_true.
  - apply same_parts_false. intros H. apply app_inv_head in H.
    apply same_parts_true in H. congruence.
Qed.

Lemma filter_all {A} (f : A -> bool) l : Forall (fun x => f x = true) l -> filter f l = l.
Proof. induction 1 as [|x l Hx _ IH]; simpl; [reflexivity | now rewrite Hx, IH]. Qed.

Lemma own_files_app es1 es2 : own_files (es1 ++ es2) = own_files es1 ++ own_files es2.
Proof.
  induction es1 as [|[k [d|es]] es1 IH]; simpl; [reflexivity | now rewrite IH | exact IH].
Qed.

Lemma own_files_set_dir es c a b :
  lookup_entry c es = Some (Dir a) -> own_files (set_entry c (Dir b) es) = own_files es.
Proof.
  induction es as [|[k z] es IH]; simpl; [discriminate|].
  destruct (String.eqb_spec k c) as [->|Hne].
  - now intros [= ->].
  - intros H. simpl. destruct z; now rewrite (IH H).
Qed.

(** The files a directory holds below its entries, by entry. *)
Lemma below_entries_names es e :
  In e (flat_map (fun '(name, child) =>
                    map (fun e => (name :: fst e, snd e)) (files_under child)) es) ->
  exists name r, fst e = name :: r /\ In name (map fst es).
Proof.
  intros H. apply in_flat_map in H as ([name child] & Hin & He).
  apply in_map_iff in He as (e' & <- & _).
  exists name, (fst e'). split; [reflexivity|]. now apply (in_map fst) in Hin.
Qed.

Lemma files_under_put r : forall n n' d,
  wf_node n -> put_at n r (File d) = Some n' -> node_at n r = None ->
  filter (fun e => negb (Lib.same_parts (fst e) r)) (files_under n') = files_under n.
Proof.
  induction r as [|c rest IH]; intros n n' d Hwf Hput Hfresh; [discriminate|].
  destruct n as [d0|es]; [discriminate|].
  apply wf_node_Dir in Hwf as [Hnd Hall].
  cbn [put_at] in Hput. cbn [node_at] in Hfresh.
  destruct rest as [|c2 rest2].
  - injection Hput as <-.
    destruct (lookup_entry c es) as [y|] eqn:Ey; [discriminate|].
    pose proof (lookup_entry_None _ _ Ey) as Hnotin.
    rewrite (set_entry_absent _ _ _ Ey). cbn [files_under].
    rewrite own_files_app, flat_map_app. cbn [own_files flat_map files_under map app].
    rewrite app_nil_r, !filter_app. cbn [filter fst].
    replace (Lib.same_parts [c] [c]) with true by (symmetry; now apply same_parts_true).
    cbn [negb]. rewrite app_nil_r.
    rewrite !filter_all; [reflexivity | |].
    + apply Forall_forall. intros e He.
      apply below_entries_names in He as (name & r & E & Hname).
      rewrite E. apply negb_true_iff, same_parts_false. intros [= -> _]. contradiction.
    + apply Forall_forall. intros [r d'] He.
      apply own_files_In in He as (name & -> & Hin). cbn [fst].
      apply negb_true_iff, same_parts_false. intros [= ->].
      apply Hnotin. now apply (in_map fst) in Hin.
  - destruct (lookup_entry c es) as [y|] eqn:Ey; [|discriminate].
    destruct (put_at y (c2 :: rest2) (File d)) as [y'|] eqn:Ep; [|discriminate].
    injection Hput as <-.
    assert (Hy : wf_node y) by (apply (Hall c y); now apply lookup_entry_Some).
    pose proof (IH y y' d Hy Ep Hfresh) as IHy.
    destruct y as [dy|esy]; [discriminate|].
    assert (Ey' : exists esy', y' = Dir esy').
    { cbn [put_at] in Ep. destruct rest2.
      - injection Ep as <-. eauto.
      - destruct (lookup_entry c2 esy); [|discriminate].
        destruct (put_at n _ _); [|discriminate]. injection Ep as <-. eauto. }
    destruct Ey' as [esy' ->].
    cbn [files_under]. rewrite (own_files_set_dir _ _ _ _ Ey), filter_app.
    f_equal.
    + apply filter_all, Forall_forall. intros [r d'] He.
      apply own_files_In in He as (name & -> & _). cbn [fst].
      apply negb_true_iff, same_parts_false. discriminate.
    + clear Hall. revert Hnd Ey. clear -IHy.
      induction es as [|[k z] es IHes]; intros Hnd Ey; [discriminate|].
      simpl in Hnd. inversion Hnd as [|? ? Hnotin Hnd']; subst.
      simpl in Ey. cbn [set_entry].
      destruct (String.eqb_spec k c) as [->|Hne].
      * injection Ey as ->. cbn [flat_map]. rewrite filter_app. f_equal.
        -- rewrite filter_map_swap. cbn [fst].
           rewrite <- IHy. f_equal. apply filter_ext. intros e.
           f_equal. apply (same_parts_app [c]).
        -- apply filter_all, Forall_forall. intros e He.
           apply below_entries_names in He as (name & r & E & Hname).
           rewrite E. apply negb_true_iff, same_parts_false. intros [= -> _]. contradiction.
      * cbn [flat_map]. rewrite filter_app. f_equal; [|now apply IHes].
        apply filter_all, Forall_forall. intros e He.
        apply in_map_iff in He as (e' & <- & _). cbn [fst].
        apply negb_true_iff, same_parts_false. intros [= E _]. contradiction.
Qed.

Lemma put_at_keeps_dir es r x n' :
  put_at (Dir es) r x = Some n' -> r <> [] -> is_dir_node n' = true.
Proof.
  intros H Hne. destruct r as [|c r]; [congruence|]. cbn [put_at] in H.
  destruct r as [|c2 r]; [now injection H as <-|].
  destruct (lookup_entry c es) as [y|]; [|discriminate].
  destruct (put_at y (c2 :: r) x) as [y'|]; [|discriminate]. now injection H as <-.
Qed.

(** *** The run *)

(** The place of a fresh path below a directory of a well-formed tree is
    made of proper names. *)
Lemma fresh_place_proper t o li r0 n :
  wf_node n -> locate t o = Some (li ++ r0) -> node_at t (li ++ r0) = None ->
  node_at t li = Some n ->
  r0 <> [] /\ Forall (fun c => proper_name c = true) r0 /\ node_at n r0 = None.
Proof.
  intros Hwf Hlo Hno Hn.
  assert (Hfresh : node_at n r0 = None) by (rewrite node_at_app, Hn in Hno; exact Hno).
  assert (Hne : r0 <> []) by (intros ->; simpl in Hfresh; discriminate).
  split; [exact Hne|]. split; [|exact Hfresh].
  destruct (locate_last _ _ _ Hlo (node_at_None_not_dir _ _ Hno)) as (h & _ & Hd & E & Hp).
  destruct (exists_last Hne) as (p0 & x & ->).
  rewrite app_assoc in E. apply app_inj_tail in E as [<- ->].
  apply Forall_app. split; [|now constructor].
  apply node_at_dir_inv in Hd as [es Hd]. rewrite node_at_app, Hn in Hd.
  apply (node_at_proper n p0 (Dir es) Hwf Hd).
Qed.

(** A place lies below another, or it does not. *)
Lemma below_or_not (li lo : list string) :
  (exists r, lo = li ++ r) \/ (forall r, lo <> li ++ r).
Proof.
  revert lo. induction li as [|c li IH]; intros lo; [left; now exists lo|].
  destruct lo as [|c' lo]; [right; discriminate|].
  destruct (string_dec c' c) as [->|Hne].
  - destruct (IH lo) as [[r ->]|Hno]; [left; now exists r|].
    right. intros r [= E]. now apply (Hno r).
  - right. intros r [= E _]. contradiction.
Qed.

(** The directory as the walk finds it, once the output file has been
    created: as it was when the output lies outside, and with one more
    file, the empty output, when it lies inside. *)
Lemma walked_directory w i o li n :
  wf_node (disk w) -> directory_at (disk w) i li n -> creatable (disk w) o ->
  exists t1 lo n1,
    locate (disk w) o = Some lo
    /\ write_file (disk w) o [] = Ok t1
    /\ locate t1 i = Some li
    /\ node_at t1 li = Some n1
    /\ wf_node t1 /\ wf_node n1 /\ is_dir_node n1 = true
    /\ ((forall r, lo <> li ++ r) -> n1 = n)
    /\ (forall r0, lo = li ++ r0 ->
          r0 <> [] /\ node_at n r0 = None /\ put_at n r0 (File []) = Some n1).
Proof.
  intros Hwf (Hli & Hn & Hdir) Hc.
  assert (Hwfn : wf_node n) by (apply (wf_node_at (disk w) li); assumption).
  destruct (write_all_fresh o [] w Hc) as (t1 & Hw1 & _).
  destruct Hc as (lo & Hlo & Hno).
  pose proof Hw1 as Hw1'. apply write_file_Ok in Hw1' as (lo' & Hlo' & _ & Hput).
  assert (lo' = lo) by congruence. subst lo'.
  assert (Hli1 : locate t1 i = Some li)
    by now rewrite (locate_after_write _ _ _ _ i Hw1).
  assert (Hwf1 : wf_node t1).
  { destruct (fresh_place_proper (disk w) o [] lo (disk w) Hwf Hlo Hno eq_refl)
      as (_ & Hproper & _).
    apply (wf_put lo (disk w) t1 (File [])); auto. constructor. }
  exists t1, lo. destruct (below_or_not li lo) as [[r0 ->]|Hout].
  - destruct (fresh_place_proper _ _ _ _ _ Hwfn Hlo Hno Hn) as (Hne & Hproper & Hfresh).
    destruct (put_at_deep li _ _ n r0 _ Hput Hn Hne) as (n1 & Hput1 & Hn1).
    exists n1. split; [exact Hlo|]. split; [exact Hw1|]. split; [exact Hli1|].
    split; [exact Hn1|]. split; [exact Hwf1|].
    split; [apply (wf_node_at t1 li); assumption|].
    split; [destruct n as [d|es]; [discriminate|];
            apply (put_at_keeps_dir _ _ _ _ Hput1 Hne)|].
    split.
    + intros Hout. exfalso. now apply (Hout r0).
    + intros r E. apply app_inv_head in E. subst r. auto.
  - assert (Hn1 : node_at t1 li = Some n)
      by apply (node_at_put_frame _ _ _ _ _ _ Hput Hno Hn Hout).
    exists n. split; [exact Hlo|]. split; [exact Hw1|]. split; [exact Hli1|].
    split; [exact Hn1|]. split; [exact Hwf1|]. split; [exact Hwfn|].
    split; [exact Hdir|]. split; [reflexivity|].
    intros r0 E. exfalso. now apply (Hout r0).
Qed.

(** The files the walk finds are the files that were there, and the
    output when it lies inside. *)
Lemma walked_files n n1 r0 r d :
  wf_node n -> put_at n r0 (File []) = Some n1 -> node_at n r0 = None ->
  In (r, d) (files_under n1) -> r <> r0 -> In (r, d) (files_under n).
Proof.
  intros Hwf Hput Hfresh Hin Hne.
  rewrite <- (files_under_put r0 n n1 [] Hwf Hput Hfresh).
  apply filter_In. split; [exact Hin|]. cbn [fst].
  apply negb_true_iff. now apply same_parts_false.
Qed.

(** [compress_directory] with an archive format, wherever the output
    lies: the archive is opened, the loop gathers its members from the
    files the walk finds, and the archive is written. *)
Lemma compress_directory_gathers C i o format v w li n
    (pack : list member -> bytes) (own : list member -> result (option bytes)) :
  (format = "tar" /\ pack = tar_pack C
   /\ own = tar_own C (Bool.eqb (OsPath.double_slash i) (OsPath.double_slash o)))
  \/ (format = "zip" /\ pack = zip_pack C None /\ own = zip_own C) ->
  wf_node (disk w) -> directory_at (disk w) i li n -> creatable (disk w) o ->
  forall t1 lo n1,
    locate (disk w) o = Some lo -> write_file (disk w) o [] = Ok t1 ->
    locate t1 i = Some li -> node_at t1 li = Some n1 -> wf_node n1 ->
    match gathered own li lo [] (files_under n1) with
    | Ok ms =>
        exists w', compress_directory C i o format v w = (Ok tt, w')
                   /\ read_file (disk w') o = Ok (pack ms)
    | Raise x => fst (compress_directory C i o format v w) = Raise x
    end.
Proof.
  intros Hf Hwf Hdir Hc t1 lo n1 Hlo Hw1 Hli1 Hn1 Hwf1.
  rewrite (compress_directory_enter C i o v w li n Hdir Hc).
  set (w0 := logged w _).
  assert (Hlo1 : locate t1 o = Some lo)
    by now rewrite (locate_after_write _ _ _ _ o Hw1).
  destruct Hf as [(-> & -> & ->) | (-> & -> & ->)]; cbn [String.eqb Ascii.eqb Bool.eqb].
  - pose proof (archive_run w0 i o li lo t1 n1 (tar_pack C)
                  (Lib.tar_add (tar_unfinished C))
                  (tar_own C (Bool.eqb (OsPath.double_slash i) (OsPath.double_slash o)))
                  Hw1 Hli1 Hn1 Hwf1
                  (fun a p e => tar_add_walked C (with_disk w0 t1) i o li lo a p e
                                  Hli1 Hlo1)) as Hrun.
    destruct (gathered _ li lo [] (files_under n1)) as [ms|x].
    + destruct Hrun as (t2 & Hw2 & Hrun). eexists. split; [exact Hrun|].
      cbn [disk logged with_disk]. now apply read_after_write in Hw2.
    + apply (f_equal fst) in Hrun. exact Hrun.
  - pose proof (archive_run w0 i o li lo t1 n1 (zip_pack C None)
                  (Lib.zip_write (zip_unfinished C None)) (zip_own C)
                  Hw1 Hli1 Hn1 Hwf1
                  (fun a p e => zip_write_walked C (with_disk w0 t1) i o li lo a p e
                                  Hli1 Hlo1)) as Hrun.
    destruct (gathered _ li lo [] (files_under n1)) as [ms|x].
    + destruct Hrun as (t2 & Hw2 & Hrun). eexists. split; [exact Hrun|].
      cbn [disk logged with_disk]. now apply read_after_write in Hw2.
    + apply (f_equal fst) in Hrun. exact Hrun.
Qed.

(** [compress_directory] with format tar and the output inside the input
    directory, both paths beginning with the same slashes: the output is
    created, the walk meets it, and [tar.add] leaves it out. *)
Lemma compress_directory_tar_inside C i o v w li n r0 :
  wf_node (disk w) -> directory_at (disk w) i li n ->
  locate (disk w) o = Some (li ++ r0) -> node_at (disk w) (li ++ r0) = None ->
  OsPath.double_slash o = OsPath.double_slash i ->
  exists w' t1 n1,
    compress_directory C i o "tar" v w = (Ok tt, w')
    /\ read_file (disk w') o = Ok (tar_pack C (archived n))
    /\ write_file (disk w) o [] = Ok t1
    /\ node_at t1 li = Some n1
    /\ In (r0, []) (files_under n1).
Proof.
  intros Hwf Hdir Hlo Hno Halike.
  assert (Hc : creatable (disk w) o) by (exists (li ++ r0); auto).
  assert (Hwfn : wf_node n)
    by (apply (wf_node_at (disk w) li); [exact Hwf | apply Hdir]).
  destruct (walked_directory w i o li n Hwf Hdir Hc)
    as (t1 & lo & n1 & Hlo' & Hw1 & Hli1 & Hn1 & _ & Hwf1 & Hdir1 & _ & Hin).
  assert (lo = li ++ r0) by congruence. subst lo.
  destruct (Hin r0 eq_refl) as (Hne & Hfresh & Hput1).
  pose proof (compress_directory_gathers C i o "tar" v w li n (tar_pack C) _
                (or_introl (conj eq_refl (conj eq_refl eq_refl)))
                Hwf Hdir Hc t1 (li ++ r0) n1 Hlo Hw1 Hli1 Hn1 Hwf1) as Hrun.
  rewrite Halike, Bool.eqb_reflx in Hrun.
  change (tar_own C true) with (fun _ : list member => @Ok (option bytes) None) in Hrun.
  rewrite gathered_left_out in Hrun.
  rewrite (filter_ext _ (fun e => negb (Lib.same_parts (fst e) r0))) in Hrun
    by (intros e; now rewrite same_parts_app).
  rewrite (files_under_put r0 n n1 [] Hwfn Hput1 Hfresh) in Hrun.
  destruct Hrun as (w' & Hrun & Hread).
  exists w', t1, n1. split; [exact Hrun|]. split; [exact Hread|].
  split; [exact Hw1|]. split; [exact Hn1|].
  apply files_under_complete; [exact Hdir1|].
  now apply node_at_put_same in Hput1.
Qed.

End InsideFacts.

(* ================================================================== *)
(** * Archives of directories *)

Import Str FS StrFacts FSFacts PathFacts RunFacts ChecksumFacts FileFacts WalkFacts DirFacts.
Import TreeFacts OutcomeFacts EffectFacts CallFacts ExtractFacts InsideFacts.

(** C9: [compress_directory] with format tar or zip, for every input
    directory of a well-formed disk and every fresh output path, inside
    the directory or outside it.  The archive is opened before the walk,
    so the walk goes over the directory [n1] as it is with the output
    file created: the directory [n] as it was when the output lies
    outside, and [n] with the output as one more file when it lies
    inside.

    Whenever the call succeeds, the output file holds an archive each of
    whose members is a regular file the walk has found below the
    directory, named by its relative path; it holds the bytes of that
    file unless the file is the archive itself.  No member is named by an
    empty subdirectory or lies below one, so empty subdirectories are not
    in the archive.  With the output outside the directory the members
    are exactly the regular files of the directory, in walk order.

    The call does succeed with format tar, and with format zip when the
    output lies outside the directory (a zip archive inside the directory
    it archives reads its own unfinished file, which need not come to an
    end). *)
Theorem directory_archives_hold_files_only (C : Codecs) (L : CodecLaws C)
    (input_path output_path format : string) (v : bool) (w : world) (li : loc) (n : node) :
  format = "tar" \/ format = "zip" ->
  wf_node (disk w) ->
  directory_at (disk w) input_path li n ->
  creatable (disk w) output_path ->
  exists t1 n1,
    write_file (disk w) output_path [] = Ok t1
    /\ directory_at t1 input_path li n1
    /\ map (read_file t1) (walk_paths t1 input_path)
       = map (fun e => Ok (snd e)) (files_under n1)
    /\ (outside (disk w) output_path input_path -> n1 = n)
    /\ (format = "tar" \/ outside (disk w) output_path input_path ->
          exists w', compress_directory C input_path output_path format v w = (Ok tt, w'))
    /\ forall w',
         compress_directory C input_path output_path format v w = (Ok tt, w') ->
         exists raw members,
           read_file (disk w') output_path = Ok raw
           /\ (if format =? "tar" then tar_unpack C raw else zip_unpack C raw) = Some members
           /\ (outside (disk w) output_path input_path ->
                 members
                 = map (fun e => RegFile (join_slash (fst e)) (snd e)) (files_under n))
           /\ Forall (fun m => exists r d,
                         m = RegFile (join_slash r) d /\ r <> []
                         /\ (exists d0, node_at n1 r = Some (File d0))
                         /\ (locate (disk w) output_path <> Some (li ++ r) ->
                               node_at n r = Some (File d))) members
           /\ (forall e m, node_at n1 e = Some (Dir []) -> In m members ->
                 member_name m <> join_slash e
                 /\ startswith (member_name m) (join_slash e +++ "/") = false).
Proof.
  intros Hf Hwf Hdir Hc.
  assert (Hwfn : wf_node n) by (apply (wf_node_at (disk w) li); [exact Hwf | apply Hdir]).
  destruct (walked_directory w input_path output_path li n Hwf Hdir Hc)
    as (t1 & lo & n1 & Hlo & Hw1 & Hli1 & Hn1 & Hwf1 & Hwfn1 & Hdir1 & Hsame & Hin).
  assert (Hout : outside (disk w) output_path input_path -> forall r, lo <> li ++ r).
  { intros H r. apply H; [exact Hlo | apply Hdir]. }
  set (pack := if format =? "tar" then tar_pack C else zip_pack C None).
  set (own := if format =? "tar"
              then tar_own C (Bool.eqb (OsPath.double_slash input_path)
                                       (OsPath.double_slash output_path))
              else zip_own C).
  assert (Hrun :
    match gathered own li lo [] (files_under n1) with
    | Ok ms =>
        exists w', compress_directory C input_path output_path format v w = (Ok tt, w')
                   /\ read_file (disk w') output_path = Ok (pack ms)
    | Raise x => fst (compress_directory C input_path output_path format v w) = Raise x
    end).
  { apply (compress_directory_gathers C input_path output_path format v w li n pack own)
      with (t1 := t1); auto.
    unfold pack, own. destruct Hf as [-> | ->]; [left | right]; auto. }
  assert (Hunpack : forall ms,
    (if format =? "tar" then tar_unpack C (pack ms) else zip_unpack C (pack ms)) = Some ms).
  { intros ms. unfold pack. destruct Hf as [-> | ->]; cbn [String.eqb Ascii.eqb Bool.eqb].
    - apply (tar_roundtrip C L).
    - apply (zip_roundtrip_default C L). }
  exists t1, n1. split; [exact Hw1|]. split; [now repeat split|].
  split; [apply (walk_paths_read t1 input_path li n1 Hwf1); now repeat split|].
  split; [intros H; apply Hsame; now apply Hout|].
  split.
  - (* the calls that succeed *)
    intros Hok.
    assert (Hms : exists ms, gathered own li lo [] (files_under n1) = Ok ms).
    { destruct Hok as [-> | H].
      - unfold own. cbn [String.eqb Ascii.eqb Bool.eqb].
        apply gathered_total. intros ms x. unfold tar_own. now destruct (Bool.eqb _ _).
      - eexists. apply gathered_elsewhere. apply Forall_forall.
        intros e _ E. now apply (Hout H (fst e)). }
    destruct Hms as [ms Hms]. rewrite Hms in Hrun.
    destruct Hrun as (w' & Hrun & _). now exists w'.
  - (* what a call that succeeds leaves *)
    intros w' Hok.
    destruct (gathered own li lo [] (files_under n1)) as [ms|x] eqn:Hms;
      [|rewrite Hok in Hrun; discriminate].
    destruct Hrun as (w'' & Hrun & Hread).
    assert (w'' = w') by congruence. subst w''.
    exists (pack ms), ms. split; [exact Hread|]. split; [apply Hunpack|].
    destruct (gathered_members own li lo _ _ _ Hms) as (added & E & HF).
    cbn [app] in E. subst added.
    assert (Hfound : forall m, In m ms ->
              exists r d d', In (r, d) (files_under n1) /\ m = RegFile (join_slash r) d'
                             /\ (li ++ r <> lo -> d' = d))
      by (now apply Forall_forall).
    split; [|split].
    + intros H. rewrite (gathered_elsewhere own li lo (files_under n1) []) in Hms.
      * injection Hms as <-. now rewrite (Hsame (Hout H)).
      * apply Forall_forall. intros e _ E. now apply (Hout H (fst e)).
    + apply Forall_forall. intros m Hm.
      destruct (Hfound m Hm) as (r & d & d' & Hr & -> & Hd).
      pose proof (files_under_sound n1 Hwfn1 r d Hr) as Hnr.
      exists r, d'. split; [reflexivity|]. split.
      { intros ->. simpl in Hnr. injection Hnr as ->. discriminate. }
      split; [now exists d|].
      intros Hne.
      assert (Hne' : li ++ r <> lo) by (intros E; apply Hne; now rewrite E).
      rewrite (Hd Hne').
      destruct (below_or_not li lo) as [[r0 E]|Hno].
      * destruct (Hin r0 E) as (_ & Hfresh & Hput).
        apply (files_under_sound n Hwfn).
        apply (walked_files n n1 r0 r d Hwfn Hput Hfresh Hr).
        intros ->. now apply Hne'.
      * now rewrite <- (Hsame Hno).
    + intros e m He Hm.
      destruct (Hfound m Hm) as (r & d & d' & Hr & -> & _).
      apply (archived_skips_empty n1 e (file_member (r, d)) Hwfn1 He).
      apply (in_map file_member) in Hr. exact Hr.
Qed.

Lemma directory_archives_hold_files_only_witness :
  exists w' raw,
    compress_directory Store.codecs "docs" "//docs/out.tar" "tar" false Sample.w0
    = (Ok tt, w')
    /\ read_file (disk w') "//docs/out.tar" = Ok raw
    /\ tar_unpack Store.codecs raw
       = Some [RegFile "a.txt" [x61]; RegFile "c.txt" [x63]; RegFile "out.tar" [];
               RegFile "sub/b.txt" [x62; x62]].
Proof.
  destruct (directory_archives_hold_files_only Store.codecs StoreFacts.laws
              "docs" "//docs/out.tar" "tar" false Sample.w0 ["docs"] _
              (or_introl eq_refl) SampleFacts.tree_wf SampleFacts.docs_directory)
    as (t1 & n1 & _ & _ & _ & _ & Hok & Hall).
  - exists ["docs"; "out.tar"]. split; reflexivity.
  - destruct (Hok (or_introl eq_refl)) as [w' Hrun].
    destruct (Hall w' Hrun) as (raw & members & Hread & Hun & _).
    exists w', raw. split; [exact Hrun|]. split; [exact Hread|].
    assert (E : w' = snd (compress_directory Store.codecs "docs" "//docs/out.tar" "tar"
                            false Sample.w0)) by now rewrite Hrun.
    rewrite E in Hread. vm_compute in Hread. injection Hread as <-.
    reflexivity.
Defined.

(* ================================================================== *)
(** * Further properties of the program *)

Import Str FS StrFacts FSFacts PathFacts RunFacts ChecksumFacts FileFacts WalkFacts DirFacts.
Import TreeFacts OutcomeFacts EffectFacts CallFacts ExtractFacts InsideFacts.

(** ** [compress_file], case by case *)

(** X1: for the levels 1 to 9, [compress_file] is a list of decisions
    taken in this order: the input path exists, the output path does not,
    the input can be read as a regular file, the format is one of the six
    tags, the output can be written.  The first check that fails decides
    the error; once both paths have passed, the call is announced on the
    log.  When all pass, the artifact of the format is written to the
    output in one step and the completion is logged.  A call that fails
    leaves the disk as it found it. *)
Theorem compress_file_decides_then_writes (C : Codecs)
    (input_path output_path format : string) (level : Z) (v : bool) (w : world) :
  (1 <= level <= 9)%Z ->
  compress_file C input_path output_path format level v w
  = compress_file_outcome C input_path output_path format level v w
  /\ (forall e,
        fst (compress_file C input_path output_path format level v w) = Raise e ->
        disk (snd (compress_file C input_path output_path format level v w)) = disk w).
Proof.
  intros _. split; [apply compress_file_run|].
  rewrite compress_file_run. apply compress_file_outcome_failure.
Qed.

Lemma compress_file_decides_then_writes_witness :
  compress_file Store.codecs "docs" "out.gz" "gz" 6 false Sample.w0
  = (Raise OSError,
     logged Sample.w0 "Compressing file: docs to out.gz with format gz").
Proof.
  assert (H : (1 <= 6 <= 9)%Z) by lia.
  rewrite (proj1 (compress_file_decides_then_writes Store.codecs "docs" "out.gz" "gz" 6%Z
                    false Sample.w0 H)).
  reflexivity.
Defined.

(** X2: for the levels 1 to 9, [compress_file] succeeds exactly when the
    format is one of the six tags, the input path can be read as a
    regular file, and the output path can be created: it resolves to a
    place in an existing directory where nothing is yet. *)
Theorem compress_file_succeeds_exactly_when (C : Codecs)
    (input_path output_path format : string) (level : Z) (v : bool) (w : world) :
  (1 <= level <= 9)%Z ->
  (fst (compress_file C input_path output_path format level v w) = Ok tt
   <-> In format format_tags
       /\ (exists data, read_file (disk w) input_path = Ok data)
       /\ creatable (disk w) output_path).
Proof.
  intros _. rewrite compress_file_run. apply compress_file_outcome_success.
Qed.

Lemma compress_file_succeeds_exactly_when_witness :
  fst (compress_file Store.codecs "in.txt" "out.bz2" "bz2" 9 false Sample.w0) = Ok tt.
Proof.
  assert (H : (1 <= 9 <= 9)%Z) by lia.
  apply (proj2 (compress_file_succeeds_exactly_when Store.codecs "in.txt" "out.bz2" "bz2"
                  9%Z false Sample.w0 H)).
  split; [simpl; auto 10|]. split.
  - exists Sample.abc. reflexivity.
  - exists ["out.bz2"]. split; reflexivity.
Defined.

(** ** What a call leaves alone *)

(** X3: a call that does not extract an archive (any [compress_file] or
    [compress_directory], and [decompress] of a path that does not end in
    [.zip] or [.tar]) changes the disk by writes to its output path and
    by nothing else, whatever its outcome: every regular file that could
    be read before can be read after, with the same bytes, and every
    path that existed still exists. *)
Theorem calls_write_their_output_only (C : Codecs) (c : call) (w : world) :
  extracting c = false ->
  rewritten (call_output c) (disk w) (disk (snd (run C c w)))
  /\ (forall q d, read_file (disk w) q = Ok d ->
        read_file (disk (snd (run C c w))) q = Ok d)
  /\ (forall q, Path_exists (disk w) q = true ->
        Path_exists (disk (snd (run C c w))) q = true).
Proof.
  intros Hx. pose proof (run_writes_only C c Hx w) as Hrw.
  split; [exact Hrw|].
  destruct (Path_exists (disk w) (call_output c)) eqn:Ho.
  - assert (E : snd (run C c w) = w).
    { destruct (Path_exists (disk w) (call_input c)) eqn:Hi.
      - now rewrite (run_taken_output C c w Hi Ho).
      - now rewrite (run_missing_input C c w Hi). }
    rewrite E. auto.
  - split.
    + intros q d. now apply (rewritten_read (call_output c)).
    + intros q. now apply (rewritten_exists (call_output c)).
Qed.

Lemma calls_write_their_output_only_witness :
  read_file (disk (snd (run Store.codecs (CompressDirectory "docs" "docs/out.zip" "zip" false)
                          Sample.w0))) "docs/sub/b.txt"
  = Ok [x62; x62].
Proof.
  apply (proj1 (proj2 (calls_write_their_output_only Store.codecs
                         (CompressDirectory "docs" "docs/out.zip" "zip" false) Sample.w0
                         eq_refl))).
  reflexivity.
Defined.

(** X4: no call that does not extract an archive can be repeated: after
    it has succeeded, the same call fails with OutputAlreadyExists and
    changes nothing, so the first output is never overwritten. *)
Theorem a_second_run_is_refused (C : Codecs) (c : call) (w w1 : world) :
  extracting c = false ->
  run C c w = (Ok tt, w1) ->
  run C c w1 = (Raise (OutputAlreadyExists (call_output c)), w1).
Proof.
  intros Hx Hrun. destruct (run_Ok_paths C c w w1 Hrun) as [Hi Ho].
  pose proof (run_writes_only C c Hx w) as Hrw. rewrite Hrun in Hrw. cbn [snd] in Hrw.
  destruct (run_leaves_file C c Hx w tt w1 Hrun) as [d Hd].
  apply run_taken_output.
  - now apply (rewritten_exists (call_output c) (disk w)).
  - now apply (readable_exists _ _ d).
Qed.

Lemma a_second_run_is_refused_witness :
  run Store.codecs (Decompress "old.gz" "new" false)
      (snd (run Store.codecs (Decompress "old.gz" "new" false) Sample.w0))
  = (Raise (OutputAlreadyExists "new"),
     snd (run Store.codecs (Decompress "old.gz" "new" false) Sample.w0)).
Proof.
  apply (a_second_run_is_refused Store.codecs (Decompress "old.gz" "new" false) Sample.w0);
    reflexivity.
Defined.

(** ** Decoding that fails *)

(** X5: [decompress] of a path with one of the suffixes [.gz], [.xz],
    [.bz2], [.zst], a readable input and a fresh output path creates the
    output file before it decodes a byte.  When the decoder accepts the
    input, the output holds the decoded bytes.  When it rejects it, the
    call ends with the decoder's exception, not with a
    [CompressionError]; the completion is not logged; the output file
    stays on the disk, so that the same call, tried again, fails with
    OutputAlreadyExists.  For [.zst] the decoder is the identity and
    rejects nothing. *)
Theorem a_failed_decoding_leaves_its_output (C : Codecs)
    (input_path output_path : string) (v : bool) (w : world)
    (dec : bytes -> option bytes) (raw : bytes) :
  stream_decoder C input_path = Some dec ->
  read_file (disk w) input_path = Ok raw ->
  creatable (disk w) output_path ->
  (forall data, dec raw = Some data ->
     exists w', decompress C input_path output_path v w = (Ok tt, w')
                /\ read_file (disk w') output_path = Ok data)
  /\ (dec raw = None ->
      exists w',
        decompress C input_path output_path v w = (Raise CodecError, w')
        /\ Path_exists (disk w') output_path = true
        /\ console w'
           = console w ++ [LogInfo (announcement (Decompress input_path output_path v))]
        /\ decompress C input_path output_path v w'
           = (Raise (OutputAlreadyExists output_path), w'))
  /\ (endswith input_path ".zst" = true -> dec raw = Some raw).
Proof.
  intros Hdec Hr Hc.
  pose proof (decompress_stream_enter C input_path output_path v w dec Hdec
                (readable_exists _ _ _ Hr) (creatable_not_exists _ _ Hc)) as Henter.
  set (w0 := logged w (announcement (Decompress input_path output_path v))) in *.
  destruct (copy_decoded_cases dec input_path output_path w0 raw Hr Hc)
    as (t1 & Hw1 & Hcases).
  change (disk w0) with (disk w) in Hw1.
  split; [|split].
  - intros data Hd. rewrite Hd in Hcases. destruct Hcases as (t2 & Hw2 & Hrun).
    eexists. rewrite Henter, (bind_Ok _ _ _ _ _ Hrun). split; [reflexivity|].
    cbn [logging_info emit snd disk with_disk]. now apply read_after_write in Hw2.
  - intros Hd. rewrite Hd in Hcases.
    exists (with_disk w0 t1). split; [|split; [|split]].
    + rewrite Henter. now apply bind_Raise.
    + cbn [disk with_disk]. apply (readable_exists _ _ []). now apply read_after_write in Hw1.
    + reflexivity.
    + apply (run_taken_output C (Decompress input_path output_path v)); cbn [call_input call_output disk with_disk].
      * apply (readable_exists _ _ raw). apply (read_kept_by_create _ _ _ _ _ _ Hc Hw1 Hr).
      * apply (readable_exists _ _ []). now apply read_after_write in Hw1.
  - intros Hs. now apply (stream_decoder_zst C input_path).
Qed.

Lemma a_failed_decoding_leaves_its_output_witness :
  exists w',
    decompress Store.codecs "in.gz" "out" false
      {| disk := Dir [("in.gz", File Sample.abc)]; console := [] |}
    = (Raise CodecError, w')
    /\ Path_exists (disk w') "out" = true.
Proof.
  destruct (a_failed_decoding_leaves_its_output Store.codecs "in.gz" "out" false
              {| disk := Dir [("in.gz", File Sample.abc)]; console := [] |}
              (Store.unwrap x1f) Sample.abc eq_refl eq_refl) as (_ & Hfail & _).
  - exists ["out"]. split; reflexivity.
  - destruct (Hfail eq_refl) as (w' & Hrun & Hex & _). exists w'. split; assumption.
Defined.

(** ** Round trip of a directory *)



(** ** The checksum, where it does not succeed *)

(** X7: [calculate_checksum] only reads: whatever happens, the world is
    as before.  The hash is looked up before the file is opened, so a
    name [hashlib] does not know gives its [ValueError] even when the
    file is missing; with a known name, a path that cannot be read as a
    regular file gives [OSError].  For an empty file [update] is never
    called: the result is the digest of the fresh hash object. *)
Theorem checksum_only_reads (hashlib : Hashlib) (file_path algorithm : string) (w : world) :
  snd (calculate_checksum hashlib file_path algorithm w) = w
  /\ (hashlib algorithm = None ->
      fst (calculate_checksum hashlib file_path algorithm w)
      = Raise (ValueError ("unsupported hash type " +++ algorithm)))
  /\ (forall H, hashlib algorithm = Some H ->
        (forall content, read_file (disk w) file_path <> Ok content) ->
        fst (calculate_checksum hashlib file_path algorithm w) = Raise OSError)
  /\ (forall H, hashlib algorithm = Some H ->
        read_file (disk w) file_path = Ok [] ->
        fst (calculate_checksum hashlib file_path algorithm w)
        = Ok (hash_hexdigest H (hash_new H))).
Proof.
  split; [apply calculate_checksum_world|]. unfold calculate_checksum.
  split; [|split].
  - now intros ->.
  - intros H -> Hno. unfold bind. rewrite read_all_run.
    destruct (read_file (disk w) file_path) as [f|e] eqn:E; [now elim (Hno f)|].
    apply read_file_error in E. now subst.
  - intros H -> Hr. now rewrite (bind_Ok _ _ _ _ _ (read_all_ok _ _ _ Hr)).
Qed.

Lemma checksum_only_reads_witness :
  fst (calculate_checksum hashlib_sha256 "missing.txt" "md5" Sample.w0)
  = Raise (ValueError "unsupported hash type md5")
  /\ fst (calculate_checksum hashlib_sha256 "docs" "sha256" Sample.w0) = Raise OSError.
Proof.
  destruct (checksum_only_reads hashlib_sha256 "missing.txt" "md5" Sample.w0)
    as (_ & Hname & _).
  destruct (checksum_only_reads hashlib_sha256 "docs" "sha256" Sample.w0)
    as (_ & _ & Hfile & _).
  split; [apply Hname; reflexivity|].
  apply (Hfile Sha256.algo); [reflexivity | discriminate].
Defined.

(** ** The log *)

(** X8: the log of a call tells its outcome.  A call whose path checks
    fail logs nothing.  Every other call logs its announcement first;
    the completion line follows exactly when the call succeeds, and
    nothing else is logged. *)
Theorem the_log_tells_the_outcome (C : Codecs) (c : call) (w : world) :
  console (snd (run C c w))
  = console w ++
    (if negb (Path_exists (disk w) (call_input c)) || Path_exists (disk w) (call_output c)
     then []
     else LogInfo (announcement c)
          :: match fst (run C c w) with
             | Ok _ => [LogInfo (completion c)]
             | Raise _ => []
             end).
Proof.
  destruct (Path_exists (disk w) (call_input c)) eqn:Hi; cbn [negb orb];
    [|rewrite (run_missing_input C c w Hi); cbn [snd]; now rewrite app_nil_r].
  destruct (Path_exists (disk w) (call_output c)) eqn:Ho;
    [rewrite (run_taken_output C c w Hi Ho); cbn [snd]; now rewrite app_nil_r|].
  destruct (run_enter C c w Hi Ho) as (body & Hq & ->).
  unfold bind. specialize (Hq (logged w (announcement c))).
  destruct (body (logged w (announcement c))) as [[u|e] w2]; cbn [fst snd] in *.
  - unfold logging_info, emit. cbn [snd console]. rewrite Hq.
    unfold logged. cbn [console]. now rewrite <- app_assoc.
  - rewrite Hq. reflexivity.
Qed.

(** ** [compress_directory] on a regular file *)

(** X9: [compress_directory] does not ask that its input be a directory.
    On a regular file and a fresh output path, with one of its three
    formats, it succeeds: the walk of a regular file meets nothing, so
    the output is an archive without members (for zst: an empty file).
    The bytes of the input are not in it; the input stays as it was. *)
Theorem a_file_walked_as_a_directory_is_empty (C : Codecs)
    (input_path output_path format : string) (v : bool) (w : world) (data : bytes) :
  In format directory_tags ->
  read_file (disk w) input_path = Ok data ->
  creatable (disk w) output_path ->
  exists w',
    compress_directory C input_path output_path format v w = (Ok tt, w')
    /\ read_file (disk w') output_path
       = Ok (if format =? "tar" then tar_pack C []
             else if format =? "zip" then zip_pack C None []
             else [])
    /\ read_file (disk w') input_path = Ok data.
Proof.
  intros Hf Hr Hc.
  apply (compress_directory_of_file C input_path output_path format v w data Hf Hr Hc).
Qed.

Lemma a_file_walked_as_a_directory_is_empty_witness :
  exists w',
    compress_directory Store.codecs "in.txt" "out.zst" "zst" false Sample.w0 = (Ok tt, w')
    /\ read_file (disk w') "out.zst" = Ok []
    /\ read_file (disk w') "in.txt" = Ok Sample.abc.
Proof.
  apply (a_file_walked_as_a_directory_is_empty Store.codecs "in.txt" "out.zst" "zst" false
           Sample.w0 Sample.abc).
  - simpl; auto.
  - reflexivity.
  - exists ["out.zst"]. split; reflexivity.
Defined.

(** ** The default format on the command line *)

(** X10: without [--format] the format is gz, which directories do not
    take.  So [main] with the compress flag, a directory as input, a
    fresh output path and no format given archives nothing: it logs the
    announcement and the error, leaves the disk as it was and exits with
    status 1. *)
Theorem the_default_format_takes_no_directory (C : Codecs)
    (decompress_flag : bool) (input output : string) (v : bool) (w : world) :
  Path_is_dir (disk w) (Path_str input) = true ->
  Path_exists (disk w) (Path_str output) = false ->
  main C (default_args true decompress_flag input output v) w
  = (1%Z,
     {| disk := disk w;
        console :=
          console w ++
          [ LogInfo (announcement
                       (CompressDirectory (Path_str input) (Path_str output) "gz" v));
            LogError "Error: Unsupported format for directories: gz" ] |}).
Proof.
  intros Hd Ho.
  assert (Hi : Path_exists (disk w) (Path_str input) = true).
  { unfold Path_is_dir in Hd. unfold Path_exists.
    now destruct (Path_node (disk w) (Path_str input)). }
  unfold main, setup_logging, dispatch, default_args.
  cbn [arg_compress arg_input arg_output arg_format arg_level arg_verbose].
  unfold bind at 1. unfold ret at 1.
  unfold bind at 1. unfold get_disk at 1. rewrite Hd.
  rewrite (compress_directory_unsupported C _ _ default_format v w Hi Ho);
    [|unfold default_format; simpl; intuition discriminate].
  unfold UnsupportedFormatForDirectories, default_format.
  cbn [finish logging_error emit snd logged disk console announcement].
  now rewrite <- app_assoc.
Qed.

Lemma the_default_format_takes_no_directory_witness :
  fst (main Store.codecs (default_args true false "docs/" "out" false) Sample.w0) = 1%Z.
Proof.
  rewrite (the_default_format_takes_no_directory Store.codecs false "docs/" "out" false
             Sample.w0); reflexivity.
Defined.

(** ** A tar archive inside the directory it archives *)

(** X11: [compress_directory] with format tar takes a fresh output path
    inside the input directory as well as one outside it, when the two
    paths begin with the same slashes as [os.path.abspath] counts them
    (exactly two, or any other number): the archive holds one member for
    every regular file that was below the directory before the call.  An
    output inside the directory is created before the walk, so the walk
    meets it as one more file of the directory; [tar.add] compares the
    absolute path of every file with the name of the archive, finds the
    two equal, and leaves the file out: the archive does not hold
    itself.  (Spelled with other leading slashes than the input, the
    output is not recognised, and the archive stores what the disk holds
    of it.) *)
Theorem a_tar_archive_leaves_itself_out (C : Codecs) (L : CodecLaws C)
    (input_path output_path : string) (v : bool) (w : world) (li : loc) (n : node) :
  wf_node (disk w) ->
  directory_at (disk w) input_path li n ->
  creatable (disk w) output_path ->
  OsPath.double_slash output_path = OsPath.double_slash input_path ->
  exists w',
    compress_directory C input_path output_path "tar" v w = (Ok tt, w')
    /\ read_file (disk w') output_path = Ok (tar_pack C (archived n))
    /\ tar_unpack C (tar_pack C (archived n)) = Some (map file_member (files_under n))
    /\ (forall r0, locate (disk w) output_path = Some (li ++ r0) ->
          (forall d, ~ In (r0, d) (files_under n))
          /\ exists t1 n1,
               write_file (disk w) output_path [] = Ok t1
               /\ node_at t1 li = Some n1
               /\ In (r0, []) (files_under n1)).
Proof.
  intros Hwf Hdir Hc Halike.
  assert (Hwfn : wf_node n) by (apply (wf_node_at (disk w) li); [exact Hwf | apply Hdir]).
  destruct Hc as (lo & Hlo & Hno).
  destruct (loc_compare li lo) as [(r0 & ->)|Hout].
  - destruct (compress_directory_tar_inside C input_path output_path v w li n r0
                Hwf Hdir Hlo Hno Halike)
      as (w' & t1 & n1 & Hrun & Hread & Hw1 & Hn1 & Hin).
    exists w'. split; [exact Hrun|]. split; [exact Hread|].
    split; [apply (tar_roundtrip C L)|].
    intros r0' Hlo'. assert (r0' = r0) by (rewrite Hlo in Hlo'; injection Hlo' as E;
      now apply app_inv_head in E). subst r0'.
    split; [|now exists t1, n1].
    intros d Hd. apply (files_under_sound n Hwfn) in Hd.
    destruct Hdir as (_ & Hn & _). rewrite node_at_app, Hn in Hno. congruence.
  - assert (Houtside : forall r, lo <> li ++ r).
    { intros r E. destruct Hout as [(c & r' & E')|[_ H2]]; [|now apply (H2 r)].
      rewrite E' in E. apply (f_equal (@length _)) in E.
      rewrite !length_app in E. simpl in E. lia. }
    destruct (compress_directory_tar C input_path output_path v w li n Hwf Hdir)
      as (w' & Hrun & Hread).
    { exists lo. auto. }
    { intros lo' li' r Hlo' Hli'. destruct Hdir as (Hli & _).
      assert (lo' = lo) by congruence. assert (li' = li) by congruence. subst.
      apply Houtside. }
    exists w'. split; [exact Hrun|]. split; [exact Hread|].
    split; [apply (tar_roundtrip C L)|].
    intros r0 Hlo'. exfalso. apply (Houtside r0). congruence.
Qed.

Lemma a_tar_archive_leaves_itself_out_witness :
  exists w',
    compress_directory Store.codecs "docs" "docs/out.tar" "tar" false Sample.w0 = (Ok tt, w')
    /\ read_file (disk w') "docs/out.tar"
       = Ok (tar_pack Store.codecs
               [RegFile "a.txt" [x61]; RegFile "c.txt" [x63]; RegFile "sub/b.txt" [x62; x62]])
    /\ In "docs/out.tar" (walk_paths (disk w') "docs").
Proof.
  destruct (a_tar_archive_leaves_itself_out Store.codecs StoreFacts.laws
              "docs" "docs/out.tar" false Sample.w0 ["docs"] _
              SampleFacts.tree_wf SampleFacts.docs_directory)
    as (w' & Hrun & Hread & _).
  - exists ["docs"; "out.tar"]. split; reflexivity.
  - reflexivity.
  - exists w'. split; [exact Hrun|]. split; [exact Hread|].
    assert (E : w' = snd (compress_directory Store.codecs "docs" "docs/out.tar" "tar" false
                            Sample.w0)) by now rewrite Hrun.
    rewrite E. vm_compute. auto 10.
Defined.

(** ** A regular file on the command line *)

(** X12: with the compress flag, arguments that [argparse] has accepted
    and an input that can be read as a regular file, [main] ends in one
    of three ways, and never with an unsupported format.  If the output
    path exists, the error is logged and the status is 1.  If it does not
    exist and cannot be written, the [OSError] is not caught: a
    traceback, status 1.  Otherwise the artifact is written, both lines
    are logged and the status is 0.  In the first two cases the disk is
    as before. *)
Theorem main_compresses_a_regular_file (C : Codecs) (args : Args) (w : world)
    (data : bytes) :
  arg_compress args = true ->
  parsed args ->
  read_file (disk w) (Path_str (arg_input args)) = Ok data ->
  (Path_exists (disk w) (Path_str (arg_output args)) = true ->
     main C args w
     = (1%Z,
        {| disk := disk w;
           console := console w ++
             [LogError ("Error: Output path already exists: "
                        +++ Path_str (arg_output args))] |}))
  /\ (Path_exists (disk w) (Path_str (arg_output args)) = false ->
      (forall t', write_file (disk w) (Path_str (arg_output args))
                    (artifact C (arg_format args) (arg_level args)
                       (Path_str (arg_input args)) data) <> Ok t') ->
      main C args w
      = (1%Z,
         {| disk := disk w;
            console := console w ++
              [LogInfo (announcement (compress_call args w)); Traceback OSError] |}))
  /\ (Path_exists (disk w) (Path_str (arg_output args)) = false ->
      forall t', write_file (disk w) (Path_str (arg_output args))
                   (artifact C (arg_format args) (arg_level args)
                      (Path_str (arg_input args)) data) = Ok t' ->
      main C args w
      = (0%Z,
         {| disk := t';
            console := console w ++
              [LogInfo (announcement (compress_call args w));
               LogInfo "Compression complete"] |})).
Proof.
  intros Hc [Hf _] Hr.
  assert (E : main C args w
              = finish (compress_file_outcome C (Path_str (arg_input args))
                          (Path_str (arg_output args)) (arg_format args)
                          (arg_level args) (arg_verbose args) w)).
  { unfold main, setup_logging, dispatch. rewrite Hc.
    unfold bind at 1. unfold ret at 1. unfold bind at 1. unfold get_disk at 1.
    rewrite (readable_not_dir _ _ _ Hr). now rewrite compress_file_run. }
  assert (Ecall : compress_call args w
                  = CompressFile (Path_str (arg_input args)) (Path_str (arg_output args))
                      (arg_format args) (arg_level args) (arg_verbose args)).
  { unfold compress_call. now rewrite (readable_not_dir _ _ _ Hr). }
  rewrite E, Ecall. unfold compress_file_outcome.
  rewrite (readable_exists _ _ _ Hr), Hr. cbn [negb].
  apply mem_In in Hf. rewrite Hf.
  split; [|split].
  - intros ->. reflexivity.
  - intros -> Hno.
    destruct (write_file (disk w) (Path_str (arg_output args)) _) as [t'|e] eqn:Ew;
      [now elim (Hno t')|].
    apply write_file_error in Ew. subst e.
    cbn [finish emit snd logged disk console]. now rewrite <- app_assoc.
  - intros -> t' ->.
    unfold finish, logged, with_disk. cbn [disk console]. now rewrite <- !app_assoc.
Qed.

Lemma main_compresses_a_regular_file_witness :
  fst (main Store.codecs
         {| arg_compress := true; arg_decompress := false;
            arg_input := "./in.txt"; arg_output := "nowhere/out.gz";
            arg_format := "gz"; arg_level := 6%Z; arg_verbose := false |}
         Sample.w0) = 1%Z.
Proof.
  destruct (main_compresses_a_regular_file Store.codecs
              {| arg_compress := true; arg_decompress := false;
                 arg_input := "./in.txt"; arg_output := "nowhere/out.gz";
                 arg_format := "gz"; arg_level := 6%Z; arg_verbose := false |}
              Sample.w0 Sample.abc eq_refl) as (_ & Hfail & _).
  - split; [simpl; auto 10 | simpl; lia].
  - reflexivity.
  - rewrite Hfail; [reflexivity | reflexivity | discriminate].
Defined.

(** ** The empty path *)

(** X13: the empty string passes the input check on every disk, because
    [Path] reads it as the current directory; it is never reported as
    missing.  With a fresh output path, [compress_file] on it fails only
    when it opens it, with [OSError]; [compress_directory] succeeds and
    writes an archive without members, since the walk of the empty path
    meets nothing; [decompress] finds no suffix on it.  As an output
    path the empty string is always refused as existing. *)
Theorem the_empty_path_is_never_missing (C : Codecs) (output_path : string) (w : world) :
  creatable (disk w) output_path ->
  (forall p, validate_input_path p w = (Raise (PathNotFound p), w) -> p <> "")
  /\ (forall format level v, (1 <= level <= 9)%Z ->
        compress_file C "" output_path format level v w
        = (Raise OSError,
           logged w (announcement (CompressFile "" output_path format level v))))
  /\ (forall format v, In format directory_tags ->
        exists w',
          compress_directory C "" output_path format v w = (Ok tt, w')
          /\ read_file (disk w') output_path
             = Ok (if format =? "tar" then tar_pack C []
                   else if format =? "zip" then zip_pack C None []
                   else []))
  /\ (forall v,
        decompress C "" output_path v w
        = (Raise (UnsupportedFormat ""),
           logged w (announcement (Decompress "" output_path v))))
  /\ (forall c, call_output c = "" ->
        Path_exists (disk w) (call_input c) = true ->
        run C c w = (Raise (OutputAlreadyExists ""), w)).
Proof.
  intros Hc.
  assert (Hempty : forall t, Path_exists t "" = true) by reflexivity.
  split; [|split; [|split; [|split]]].
  - intros p H ->. rewrite (validate_input_path_ok "" w (Hempty _)) in H. discriminate.
  - intros format level v _. rewrite compress_file_run. unfold compress_file_outcome.
    now rewrite Hempty, (creatable_not_exists _ _ Hc).
  - intros format v Hf.
    destruct (compress_directory_nothing_walked C "" output_path format v w Hf
                (Hempty _) Hc) as (w' & Hrun & Hread & _); [reflexivity|].
    exists w'. split; assumption.
  - intros v. apply decompress_unsupported;
      [apply Hempty | now apply creatable_not_exists | reflexivity].
  - intros c Ho Hi. rewrite <- Ho. apply run_taken_output; [exact Hi|].
    rewrite Ho. apply Hempty.
Qed.

Lemma the_empty_path_is_never_missing_witness :
  exists w',
    compress_directory Store.codecs "" "out.zip" "zip" false Sample.w0 = (Ok tt, w')
    /\ read_file (disk w') "out.zip" = Ok (zip_pack Store.codecs None []).
Proof.
  assert (Hc : creatable (disk Sample.w0) "out.zip") by (exists ["out.zip"]; split; reflexivity).
  destruct (the_empty_path_is_never_missing Store.codecs "out.zip" Sample.w0 Hc)
    as (_ & _ & Hdir & _).
  apply (Hdir "zip" false). simpl; auto.
Defined.

(** ** The placeholder format does not bring a directory back *)

(** X14: a directory compressed with format zst, to a fresh path outside
    it that ends in [.zst], and then decompressed into a fresh output
    path, does not come back as a directory: the output is one regular
    file that holds the bytes of all the files, one after the other.
    The names of the files and the places where one ends and the next
    begins are lost. *)
Theorem zst_does_not_bring_a_directory_back (C : Codecs)
    (input_path archive_path output_path : string) (v : bool) (w : world)
    (li : loc) (n : node) :
  wf_node (disk w) ->
  directory_at (disk w) input_path li n ->
  creatable (disk w) archive_path ->
  outside (disk w) archive_path input_path ->
  endswith archive_path ".zst" = true ->
  creatable (disk (snd (compress_directory C input_path archive_path "zst" v w)))
            output_path ->
  exists w1 w2,
    compress_directory C input_path archive_path "zst" v w = (Ok tt, w1)
    /\ decompress C archive_path output_path v w1 = (Ok tt, w2)
    /\ read_file (disk w2) output_path = Ok (concat (map snd (files_under n)))
    /\ Path_is_dir (disk w2) output_path = false.
Proof.
  intros Hwf Hdir Hnew Hout Hs Ho.
  destruct (compress_directory_zst C input_path archive_path v w li n Hwf Hdir Hnew Hout)
    as (w1 & Hrun & Hread).
  rewrite Hrun in Ho. cbn [snd] in Ho.
  destruct (stream_decoder C archive_path) as [dec|] eqn:Hdec.
  - destruct (decompress_stream_run C archive_path output_path v w1 dec _ _ Hdec Hread Ho
                (stream_decoder_zst C archive_path dec _ Hs Hdec)) as (w2 & Hback & Hread2).
    exists w1, w2. repeat split; auto. now apply (readable_not_dir _ _ _ Hread2).
  - exfalso. unfold stream_decoder in Hdec.
    rewrite (suffix_exclusive archive_path ".zst" ".gz" Hs eq_refl eq_refl) in Hdec.
    rewrite (suffix_exclusive archive_path ".zst" ".xz" Hs eq_refl eq_refl) in Hdec.
    rewrite (suffix_exclusive archive_path ".zst" ".bz2" Hs eq_refl eq_refl) in Hdec.
    rewrite (suffix_exclusive archive_path ".zst" ".zip" Hs eq_refl eq_refl) in Hdec.
    rewrite (suffix_exclusive archive_path ".zst" ".tar" Hs eq_refl eq_refl) in Hdec.
    rewrite Hs in Hdec. discriminate.
Qed.

Lemma zst_does_not_bring_a_directory_back_witness :
  exists w1 w2,
    compress_directory Store.codecs "docs" "out.zst" "zst" false Sample.w0 = (Ok tt, w1)
    /\ decompress Store.codecs "out.zst" "back" false w1 = (Ok tt, w2)
    /\ read_file (disk w2) "back" = Ok [x61; x63; x62; x62]
    /\ Path_is_dir (disk w2) "back" = false.
Proof.
  apply (zst_does_not_bring_a_directory_back Store.codecs "docs" "out.zst" "back" false
           Sample.w0 ["docs"] _ SampleFacts.tree_wf SampleFacts.docs_directory).
  - exists ["out.zst"]. split; reflexivity.
  - intros lo li r Hlo Hli. vm_compute in Hlo, Hli.
    injection Hlo as <-. injection Hli as <-. discriminate.
  - reflexivity.
  - exists ["back"]. split; reflexivity.
Defined.

(** ** Input and output cannot be the same *)

(** X15: the two path checks ask opposite things of a path, so no call
    gets past them with an input and an output that exist alike: when
    both paths exist or both are missing (as when they are the same
    path, or two spellings of one), the call fails on a path check and
    the world is as before.  No file is ever replaced by its own
    artifact. *)
Theorem input_and_output_never_coincide (C : Codecs) (c : call) (w : world) :
  Path_exists (disk w) (call_input c) = Path_exists (disk w) (call_output c) ->
  run C c w = (Raise (PathNotFound (call_input c)), w)
  \/ run C c w = (Raise (OutputAlreadyExists (call_output c)), w).
Proof.
  intros E. destruct (Path_exists (disk w) (call_input c)) eqn:Hi.
  - right. now apply run_taken_output.
  - left. now apply run_missing_input.
Qed.

Lemma input_and_output_never_coincide_witness :
  run Store.codecs (CompressFile "in.txt" "./in.txt" "gz" 6 false) Sample.w0
  = (Raise (OutputAlreadyExists "./in.txt"), Sample.w0).
Proof.
  destruct (input_and_output_never_coincide Store.codecs
              (CompressFile "in.txt" "./in.txt" "gz" 6 false) Sample.w0 eq_refl)
    as [H|H]; [|exact H].
  vm_compute in H. discriminate.
Defined.

(** ** The verbosity *)

(** X16: the verbose flag changes nothing that [main] does or shows.
    [setup_logging] sets the root logger to DEBUG with the flag and to
    INFO without; the program logs at INFO and at ERROR only, so after
    [setup_logging] on a fresh root logger every record of a run is
    written exactly once in both cases, and only a DEBUG record, which
    the program never logs, would tell them apart.  The three operations
    take the flag and do not look at it: exit status, disk and console
    of [main] are the same with and without it.  Without
    [setup_logging] the root logger is at WARNING and no announcement
    would be shown. *)
Theorem the_verbose_flag_changes_nothing (C : Codecs) (args : Args) (w : world)
    (verbose : bool) :
  main C (with_verbose verbose args) w = main C args w
  /\ (forall es, Logging.shown (Logging.setup_logging verbose Logging.fresh_root) es = es)
  /\ Logging.emitted (Logging.setup_logging verbose Logging.fresh_root) Logging.DEBUG
     = (if verbose then 1 else 0)
  /\ Logging.emitted Logging.fresh_root Logging.INFO = 0
  /\ Logging.emitted Logging.fresh_root Logging.ERROR = 1.
Proof.
  split; [|split; [|split; [|split]]].
  - unfold main, dispatch, with_verbose.
    cbn [arg_compress arg_decompress arg_input arg_output arg_format arg_level arg_verbose].
    reflexivity.
  - intros es. induction es as [|e es IH]; [reflexivity|].
    change (Logging.shown (Logging.setup_logging verbose Logging.fresh_root) (e :: es))
      with ((match Logging.levelno e with
             | Some lvl => repeat e (Logging.emitted
                                      (Logging.setup_logging verbose Logging.fresh_root) lvl)
             | None => [e]
             end)
            ++ Logging.shown (Logging.setup_logging verbose Logging.fresh_root) es).
    rewrite IH. destruct e, verbose; reflexivity.
  - now destruct verbose.
  - reflexivity.
  - reflexivity.
Qed.
